(** * A resource-bounded priority dispatcher

    Shallow embedding of the two programs of the repository:
    - [QuantumSimulator] (src/1.cpp): ten workers, four processors that
      can fail and be repaired, a counting semaphore of four slots;
    - [EnergyMonitorSystem] (src/2.cpp): one server thread fed by
      station threads, a semaphore whose capacity follows the load, and
      an emergency mode that sheds low-priority packets.

    Each thread is a program counter with its local variables; one step
    of the model is one atomic action of the source (a critical section
    under a mutex, a semaphore operation, an atomic read or write).
    Random draws, the scheduler's choice and the tie-break of the heap
    are carried by the label of the step, so that [step] is a function
    and runs can be evaluated. *)

From stdpp Require Import base list sorting gmap fin_maps.
From Stdlib Require Import ZArith Lia.

Local Open Scope Z_scope.

(** ** std::priority_queue

  The container adaptor is the standard library's.  Its contract: the
  queue holds a multiset of elements and [top()] is an element that no
  element of the queue compares greater than ([less top y] is false
  for every [y]); which of several such elements is returned is left
  to the heap.  The queue is the list of its elements, newest first. *)
Section priority_queue.
Context {A : Type} (less : A → A → bool).

Definition pq_push (x : A) (q : list A) : list A := x :: q.

Definition is_topb (q : list A) (x : A) : bool :=
  forallb (λ y, negb (less x y)) q.

(** [top()] followed by [pop()], the heap's choice among equivalent
    maxima given by the position [k]. *)
Definition pq_pop_at (k : nat) (q : list A) : option (A * list A) :=
  match q !! k with
  | Some x => if is_topb q x then Some (x, delete k q) else None
  | None => None
  end.

Definition pq_pops (q : list A) (x : A) (q' : list A) : Prop :=
  ∃ k, pq_pop_at k q = Some (x, q').

(** Pushes with no pop in between, then pops until the queue is empty. *)
Definition pq_push_all (xs : list A) : list A := foldl (λ q x, pq_push x q) [] xs.

Inductive pq_drains : list A → list A → Prop :=
| drains_nil : pq_drains [] []
| drains_cons q x q' l : pq_pops q x q' → pq_drains q' l → pq_drains q (x :: l).

(** *** The heap behind the queue

    Which of several equivalent maxima [top()] returns is decided by
    the heap that [std::priority_queue] keeps in its vector.  This is
    the heap of libstdc++ ([std::push_heap] and [std::pop_heap] of
    bits/stl_heap.h), with the vector as a list and [comp(a, b)] as
    [less a b]; it serves to compute the pop order of a sequence of
    pushes.  The steps of the programs rely on the contract alone. *)

(** [std::__push_heap]: the value moves up from the hole while its
    parent is less. *)
Fixpoint push_heap (fuel : nat) (v : list A) (holeIndex topIndex : nat) (value : A)
    : list A :=
  match fuel with
  | O => <[holeIndex:=value]> v
  | S fuel' =>
      let parent := ((holeIndex - 1) / 2)%nat in
      match v !! parent with
      | Some p =>
          if (topIndex <? holeIndex)%nat && less p value
          then push_heap fuel' (<[holeIndex:=p]> v) parent topIndex value
          else <[holeIndex:=value]> v
      | None => <[holeIndex:=value]> v
      end
  end.

(** [push]: [c.push_back(x)], then [std::push_heap]. *)
Definition heap_push (x : A) (v : list A) : list A :=
  push_heap (S (length v)) (v ++ [x]) (length v) 0 x.

(** The loop of [std::__adjust_heap]: the hole moves down to the
    greater child, the right one on a tie. *)
Fixpoint adjust_down (fuel : nat) (v : list A) (holeIndex len : nat) : list A * nat :=
  match fuel with
  | O => (v, holeIndex)
  | S fuel' =>
      if (holeIndex <? (len - 1) / 2)%nat then
        let secondChild := (2 * (holeIndex + 1))%nat in
        match v !! secondChild, v !! (secondChild - 1)%nat with
        | Some r, Some l =>
            adjust_down fuel' (<[holeIndex:=if less r l then l else r]> v)
              (if less r l then secondChild - 1 else secondChild)%nat len
        | _, _ => (v, holeIndex)
        end
      else (v, holeIndex)
  end.

(** [std::__adjust_heap]: the loop, the case of a last node with one
    child, then [std::__push_heap] of the value from the hole. *)
Definition adjust_heap (v : list A) (holeIndex len : nat) (value : A) : list A :=
  let '(v1, hole) := adjust_down len v holeIndex len in
  let '(v2, hole2) :=
    if Nat.even len && (hole =? (len - 2) / 2)%nat then
      match v1 !! (2 * (hole + 1) - 1)%nat with
      | Some c => (<[hole:=c]> v1, (2 * (hole + 1) - 1)%nat)
      | None => (v1, hole)
      end
    else (v1, hole) in
  push_heap len v2 hole2 holeIndex value.

(** [top()] followed by [pop()]: the front of the vector, then
    [std::pop_heap] and [c.pop_back()]. *)
Definition heap_pop (v : list A) : option (A * list A) :=
  match v, last v with
  | top :: _, Some value =>
      let n := length v in
      if (1 <? n)%nat
      then Some (top, take (n - 1) (adjust_heap (<[(n - 1)%nat:=top]> v) 0 (n - 1) value))
      else Some (top, [])
  | _, _ => None
  end.

Definition heap_push_all (xs : list A) : list A := foldl (λ v x, heap_push x v) [] xs.

Fixpoint heap_drain (fuel : nat) (v : list A) : list A :=
  match fuel with
  | O => []
  | S n => match heap_pop v with
           | Some (x, v') => x :: heap_drain n v'
           | None => []
           end
  end.
End priority_queue.

(** ** The dequeue order of the specification

    [(critical, -priority)] compared lexicographically, [false < true]. *)
Definition lex_gt (a b : bool * Z) : Prop :=
  (a.1 = true ∧ b.1 = false) ∨ (a.1 = b.1 ∧ a.2 > b.2).

(** The pop sequence [popped] of the items [pushed], as the
    specification orders it: a permutation in which an item with the
    greater [(critical, -priority)] comes first, and no item comes
    before one with a greater key; items with equal keys come in any
    order. *)
Definition dequeued_in_order {A : Type} (crit : A → bool) (pri : A → Z)
    (pushed popped : list A) : Prop :=
  popped ≡ₚ pushed ∧
  ∀ (i j : nat) a b, popped !! i = Some a → popped !! j = Some b →
    (lex_gt (crit a, - pri a) (crit b, - pri b) → (i < j)%nat) ∧
    ((i < j)%nat → ¬ lex_gt (crit b, - pri b) (crit a, - pri a)) ∧
    ((crit a, - pri a) ≠ (crit b, - pri b) →
     ((i < j)%nat ↔ lex_gt (crit a, - pri a) (crit b, - pri b))) ∧
    (crit a = true → crit b = false → (i < j)%nat) ∧
    (crit a = crit b → pri a < pri b → (i < j)%nat).

(** ** Integers and maps of the source *)

(** [++] on a [std::atomic<int>] wraps around in two's complement. *)
Definition wrap32 (z : Z) : Z := (z + 2 ^ 31) mod 2 ^ 32 - 2 ^ 31.

(** [std::map::operator[]]: a missing key is first inserted with the
    value-initialised element ([false], [0]). *)
Definition map_index {V : Type} (d : V) (m : gmap Z V) (k : Z) : V * gmap Z V :=
  match m !! k with
  | Some v => (v, m)
  | None => (d, <[k:=d]> m)
  end.

(** The keys of a [std::map], in the order its iterators visit them. *)
Definition map_keys {V : Type} (m : gmap Z V) : list Z :=
  merge_sort Z.le (map_to_list m).*1.

(** Sum of [f] over the threads of a group. *)
Definition total {P : Type} (f : P → Z) (ths : list P) : Z :=
  foldr (λ p acc, f p + acc) 0 ths.

(** * Variant A: QuantumSimulator (src/1.cpp) *)
Module QuantumSimulator.

(** [struct Task]. *)
Record Task := { priority : Z; is_critical : bool; task_id : Z }.

(** [Task::operator<], the order of the priority queue. *)
Definition Task_less (a other : Task) : bool :=
  if negb (eqb (is_critical a) (is_critical other)) then negb (is_critical a)
  else priority a >? priority other.

Definition key (t : Task) : bool * Z := (is_critical t, - priority t).

(** The three items of the specification's scenario, in push order. *)
Definition scenario : list Task :=
  [Build_Task 1 false 1; Build_Task 5 true 2; Build_Task 1 false 3].

(** What the program writes to [std::cout], one constructor per message. *)
Inductive message :=
| MsgAlreadyFailed (processor_id : Z)
| MsgFailed (processor_id tasks_to_redirect : Z)
| MsgAlreadyWorking (processor_id : Z)
| MsgRepaired (processor_id : Z)
| MsgRequeued (t : Task)
| MsgExecuting (thread_id : nat) (t : Task) (processor_id : Z).

(** Where a worker stands in [worker_thread], with its local variables. *)
Inductive pc :=
| LoopTest                                (* while (!shutdown) *)
| QueueCheck                              (* task_mutex held: the wait condition *)
| QueueWait                               (* inside task_condition.wait(lock) *)
| GateWait (current_task : Task)          (* task_semaphore.wait() *)
| FailureDraw (current_task : Task)       (* if (failure_dist(gen)) *)
| Failing (current_task : Task) (processor_to_fail : Z)
| Redirecting (current_task : Task) (i tasks_to_redirect : Z)
| Select (current_task : Task)            (* processor_mutex held: choice of a processor *)
| Requeue (current_task : Task)           (* processor_id == -1 *)
| RequeuePost (current_task : Task)
| Backoff (ms : Z)
| Execute (current_task : Task) (processor_id : Z)
| Release (current_task : Task) (processor_id : Z)
| Post (current_task : Task)
| Exited.

(** Where the main thread stands in [stop]. *)
Inductive stop_pc := StopNotCalled | StopFlagSet | StopJoining | Stopped.

Record state := State {
  tasks : list Task;
  task_semaphore : Z;
  processor_status : gmap Z bool;
  processor_task_count : gmap Z Z;
  shutdown : bool;
  next_task_id : Z;
  threads : list pc;
  stopping : stop_pc;
  cout : list message
}.

Definition set_tasks (v : list Task) (s : state) : state :=
  State v (task_semaphore s) (processor_status s) (processor_task_count s)
        (shutdown s) (next_task_id s) (threads s) (stopping s) (cout s).
Definition set_task_semaphore (v : Z) (s : state) : state :=
  State (tasks s) v (processor_status s) (processor_task_count s)
        (shutdown s) (next_task_id s) (threads s) (stopping s) (cout s).
Definition set_processor_status (v : gmap Z bool) (s : state) : state :=
  State (tasks s) (task_semaphore s) v (processor_task_count s)
        (shutdown s) (next_task_id s) (threads s) (stopping s) (cout s).
Definition set_processor_task_count (v : gmap Z Z) (s : state) : state :=
  State (tasks s) (task_semaphore s) (processor_status s) v
        (shutdown s) (next_task_id s) (threads s) (stopping s) (cout s).
Definition set_shutdown (v : bool) (s : state) : state :=
  State (tasks s) (task_semaphore s) (processor_status s) (processor_task_count s)
        v (next_task_id s) (threads s) (stopping s) (cout s).
Definition set_next_task_id (v : Z) (s : state) : state :=
  State (tasks s) (task_semaphore s) (processor_status s) (processor_task_count s)
        (shutdown s) v (threads s) (stopping s) (cout s).
Definition set_threads (v : list pc) (s : state) : state :=
  State (tasks s) (task_semaphore s) (processor_status s) (processor_task_count s)
        (shutdown s) (next_task_id s) v (stopping s) (cout s).
Definition set_stopping (v : stop_pc) (s : state) : state :=
  State (tasks s) (task_semaphore s) (processor_status s) (processor_task_count s)
        (shutdown s) (next_task_id s) (threads s) v (cout s).
Definition print (m : message) (s : state) : state :=
  State (tasks s) (task_semaphore s) (processor_status s) (processor_task_count s)
        (shutdown s) (next_task_id s) (threads s) (stopping s) (cout s ++ [m]).

(** The constructor: four healthy processors with no task, four slots,
    ids from 1; [start] creates the workers ([n] of them, 10 in [start]). *)
Definition processors : list Z := [0; 1; 2; 3].

Definition init_with (n : nat) : state :=
  State [] 4
        (foldl (λ m i, <[i:=true]> m) ∅ processors)
        (foldl (λ m i, <[i:=0]> m) ∅ processors)
        false 1 (replicate n LoopTest) StopNotCalled [].

Definition init : state := init_with 10.

(** *** The condition variable *)

Definition waiting (p : pc) : Z := match p with QueueWait => 1 | _ => 0 end.

Fixpoint wake_nth (n : nat) (ths : list pc) : list pc :=
  match ths with
  | [] => []
  | QueueWait :: r =>
      match n with
      | O => QueueCheck :: r
      | S n' => QueueWait :: wake_nth n' r
      end
  | p :: r => p :: wake_nth n r
  end.

(** [notify_one]: one of the threads blocked in [wait], if there is one. *)
Definition notify_one (pick : nat) (ths : list pc) : list pc :=
  wake_nth (pick mod Z.to_nat (total waiting ths)) ths.

Definition wake (p : pc) : pc := match p with QueueWait => QueueCheck | _ => p end.

(** [notify_all]: every thread blocked in [wait]. *)
Definition notify_all (ths : list pc) : list pc := wake <$> ths.

(** *** The public operations *)

Definition default_task_id : Z := -1.

(** [add_task]: the push under [task_mutex], then [notify_one]. *)
Definition add_task (priority : Z) (is_critical : bool) (task_id : Z)
    (pick : nat) (s : state) : state :=
  let actual_id := if task_id =? -1 then next_task_id s else task_id in
  let s1 := if task_id =? -1 then set_next_task_id (wrap32 (next_task_id s + 1)) s else s in
  let s2 := set_tasks (pq_push (Build_Task priority is_critical actual_id) (tasks s1)) s1 in
  set_threads (notify_one pick (threads s2)) s2.

(** A call of [void add_task(...)] as its caller sees it: the new state
    and no value. *)
Definition add_task_call (priority : Z) (is_critical : bool) (task_id : Z)
    (pick : nat) (s : state) : unit * state :=
  (tt, add_task priority is_critical task_id pick s).

(** [processor_failure] up to [lock.unlock()], its critical section
    under [processor_mutex]: [None] on the early return, otherwise the
    value of the local [tasks_to_redirect].  The loop that follows is
    not part of it: every [add_task] of the loop locks the queue on its
    own, and the worker that runs the loop ([Redirecting] below) is
    interleaved with the other threads between two of its calls. *)
Definition processor_failure_locked (processor_id : Z) (s : state) : state * option Z :=
  let '(healthy, status) := map_index false (processor_status s) processor_id in
  if negb healthy then
    (print (MsgAlreadyFailed processor_id) (set_processor_status status s), None)
  else
    let status := <[processor_id:=false]> status in
    let '(tasks_to_redirect, count) :=
      map_index 0 (processor_task_count s) processor_id in
    let count := <[processor_id:=0]> count in
    (set_processor_task_count count (set_processor_status status s),
     Some tasks_to_redirect).

(** The two [std::rand()] draws of one replacement task. *)
Definition random_priority (r : nat) : Z := 1 + Z.of_nat r mod 5.
Definition random_critical (r : nat) : bool := Z.of_nat r mod 10 =? 0.

Record draws := Draws { coin : bool; r1 : nat; r2 : nat; pick : nat }.

(** One iteration of the loop of [processor_failure]: one call of
    [add_task] with the default id. *)
Definition redirect_one (d : draws) (s : state) : state :=
  add_task (random_priority (r1 d)) (random_critical (r2 d)) default_task_id (pick d) s.

Definition processor_repair (processor_id : Z) (s : state) : state :=
  let '(healthy, status) := map_index false (processor_status s) processor_id in
  if healthy then
    print (MsgAlreadyWorking processor_id) (set_processor_status status s)
  else
    print (MsgRepaired processor_id)
      (set_processor_status (<[processor_id:=true]> status) s).

(** *** One step of a worker

    [processor_task_count] holds plain [int]s.  The count of a processor
    on which tasks run stays between 0 and the capacity of the gate
    ([task_count_bounded] below), so [+ 1] and [- 1] are those of [Z].
    The count of the key -1, the value that [worker_thread] also uses
    for "no processor", is raised and never lowered; it is followed as
    an integer, below the bound of [int]. *)

Definition healthy_processors (status : gmap Z bool) : list Z :=
  filter (λ k, status !! k = Some true) (map_keys status).

Definition backoff_ms : Z := 100.

Definition worker_step (thread_id : nat) (d : draws) (p : pc) (s : state)
    : option (pc * state) :=
  match p with
  | LoopTest => Some (if shutdown s then Exited else QueueCheck, s)
  | QueueCheck =>
      if shutdown s then Some (Exited, s)
      else match tasks s with
           | [] => Some (QueueWait, s)
           | _ => match pq_pop_at Task_less (pick d) (tasks s) with
                  | Some (t, q) => Some (GateWait t, set_tasks q s)
                  | None => None
                  end
           end
  | QueueWait => None
  | GateWait t =>
      if 0 <? task_semaphore s
      then Some (FailureDraw t, set_task_semaphore (task_semaphore s - 1) s)
      else None
  | FailureDraw t =>
      if coin d then Some (Failing t (Z.of_nat (r1 d) mod 4), s)
      else Some (Select t, s)
  | Failing t processor_to_fail =>
      match processor_failure_locked processor_to_fail s with
      | (s', None) => Some (Select t, s')
      | (s', Some k) => Some (Redirecting t 0 k, print (MsgFailed processor_to_fail k) s')
      end
  | Redirecting t i k =>
      if i <? k then Some (Redirecting t (i + 1) k, redirect_one d s)
      else Some (Select t, s)
  | Select t =>
      let available_processors := healthy_processors (processor_status s) in
      match available_processors with
      | [] => Some (Requeue t, s)
      | p0 :: _ =>
          let processor_id :=
            nth (r1 d mod length available_processors) available_processors p0 in
          let '(n, count) := map_index 0 (processor_task_count s) processor_id in
          let s' := set_processor_task_count (<[processor_id:=n + 1]> count) s in
          (* if (processor_id == -1), after the choice and the increment *)
          if processor_id =? -1 then Some (Requeue t, s')
          else Some (Execute t processor_id,
                     print (MsgExecuting thread_id t processor_id) s')
      end
  | Requeue t =>
      Some (RequeuePost t, set_tasks (pq_push t (tasks s)) (print (MsgRequeued t) s))
  | RequeuePost t =>
      Some (Backoff backoff_ms, set_task_semaphore (task_semaphore s + 1) s)
  | Backoff _ => Some (LoopTest, s)
  | Execute t processor_id => Some (Release t processor_id, s)
  | Release t processor_id =>
      let '(n, count) := map_index 0 (processor_task_count s) processor_id in
      Some (Post t,
            set_processor_task_count
              (if 0 <? n then <[processor_id:=n - 1]> count else count) s)
  | Post t => Some (LoopTest, set_task_semaphore (task_semaphore s + 1) s)
  | Exited => None
  end.

(** *** The whole program *)

(** The actions of the program: a worker's next action, and the calls
    of the public operations by the main thread.  As in the source,
    [processor_failure] is called by the workers only. *)
Inductive label :=
| Worker (thread_id : nat) (d : draws)     (* the next action of a worker *)
| Wakeup (thread_id : nat)                 (* a spurious wake-up of [wait] *)
| AddTask (priority : Z) (is_critical : bool) (task_id : Z) (pick : nat)
| Repair (processor_id : Z)
| Stop.                                    (* the next action of [stop] *)

Definition all_exited (ths : list pc) : bool :=
  forallb (λ p, match p with Exited => true | _ => false end) ths.

Definition stop_step (s : state) : option state :=
  match stopping s with
  | StopNotCalled => Some (set_stopping StopFlagSet (set_shutdown true s))
  | StopFlagSet => Some (set_stopping StopJoining (set_threads (notify_all (threads s)) s))
  | StopJoining => if all_exited (threads s) then Some (set_stopping Stopped s) else None
  | Stopped => None
  end.

Definition step (l : label) (s : state) : option state :=
  match l with
  | Worker i d =>
      match threads s !! i with
      | Some p =>
          match worker_step i d p s with
          | Some (p', s') => Some (set_threads (<[i:=p']> (threads s')) s')
          | None => None
          end
      | None => None
      end
  | Wakeup i =>
      match threads s !! i with
      | Some QueueWait => Some (set_threads (<[i:=QueueCheck]> (threads s)) s)
      | _ => None
      end
  | AddTask priority is_critical task_id pick =>
      Some (add_task priority is_critical task_id pick s)
  | Repair processor_id => Some (processor_repair processor_id s)
  | Stop => stop_step s
  end.

Fixpoint run (ls : list label) (s : state) : option state :=
  match ls with
  | [] => Some s
  | l :: ls' => match step l s with
                | Some s' => run ls' s'
                | None => None
                end
  end.

Definition reachable_from (s0 s : state) : Prop := ∃ ls, run ls s0 = Some s.

(** States of the program started with [n] workers. *)
Definition reachable (s : state) : Prop := ∃ n, reachable_from (init_with n) s.

(** *** Runs of the program *)

(** The draws of a step: the failure coin down or up, every number 0. *)
Definition tails : draws := Draws false 0 0 0.
Definition heads : draws := Draws true 0 0 0.

(** The caller submits tasks 1, 2 and 3 with explicit ids, and worker 0
    takes task 3 and starts it on processor 0. *)
Definition busy_run : list label :=
  [AddTask 5 false 1 0; AddTask 1 false 2 0; AddTask 1 true 3 0;
   Worker 0 tails; Worker 0 tails; Worker 0 tails; Worker 0 tails; Worker 0 tails].

(** Then worker 1 takes task 2, draws a failure of processor 0 and
    redirects the one task counted there: [add_task] with the default
    id. *)
Definition collision_run : list label :=
  busy_run ++
  [Worker 1 tails; Worker 1 tails; Worker 1 tails; Worker 1 heads;
   Worker 1 tails; Worker 1 tails].

(** Worker 0 takes the only task; [stop] sets the flag and notifies
    while the worker is at the gate; the worker goes on. *)
Definition late_run : list label :=
  [AddTask 1 false 1 0; Worker 0 tails; Worker 0 tails; Stop; Stop;
   Worker 0 tails; Worker 0 tails; Worker 0 tails].

(** Worker 0 takes four tasks in turn and each time draws the failure
    of another processor; after the fourth failure it stands at the
    choice of a processor and none is healthy. *)
Definition fail_draw (p : nat) : draws := Draws true p 0 0.




(** As [collision_run], but worker 1 draws the failure of processor 1,
    on which no task runs. *)
Definition idle_failure_run : list label :=
  busy_run ++
  [Worker 1 tails; Worker 1 tails; Worker 1 tails; Worker 1 (fail_draw 1);
   Worker 1 tails; Worker 1 tails].




(** Five tasks are queued; workers 0 to 3 take one each and pass the
    gate, which is then closed; worker 4 takes the fifth and waits at
    the gate. *)
Definition take_and_pass (i : nat) : list label :=
  [Worker i tails; Worker i tails; Worker i tails].

Definition closed_gate_run : list label :=
  [AddTask 1 false 1 0; AddTask 1 false 2 0; AddTask 1 false 3 0;
   AddTask 1 false 4 0; AddTask 1 false 5 0]
  ++ take_and_pass 0 ++ take_and_pass 1 ++ take_and_pass 2 ++ take_and_pass 3
  ++ [Worker 4 tails; Worker 4 tails].

(** [stop] sets the flag and notifies; worker 0 runs its task, gives
    its slot back and leaves; worker 4 then passes the gate and starts
    its task. *)
Definition closed_gate_stop_run : list label :=
  closed_gate_run ++ [Stop; Stop].

Definition after_stop_run : list label :=
  [Worker 0 tails; Worker 0 tails; Worker 0 tails; Worker 0 tails; Worker 0 tails;
   Worker 0 tails;
   Worker 4 tails; Worker 4 tails; Worker 4 tails].


(** *** The admission gate and the resources, as the specification counts them *)

Definition capacity : Z := 4.

(** Slots taken: what [task_semaphore] is short of its capacity. *)
Definition held (s : state) : Z := capacity - task_semaphore s.

(** A worker between [task_semaphore.wait()] and [task_semaphore.post()]. *)
Definition holds_slot (p : pc) : Z :=
  match p with
  | FailureDraw _ | Failing _ _ | Redirecting _ _ _ | Select _ | Requeue _
  | RequeuePost _ | Execute _ _ | Release _ _ | Post _ => 1
  | _ => 0
  end.

(** A worker running a task on a processor. *)
Definition executing (p : pc) : Z :=
  match p with Execute _ _ | Release _ _ => 1 | _ => 0 end.

Definition executing_on (processor_id : Z) (p : pc) : Z :=
  match p with
  | Execute _ q | Release _ q => if decide (q = processor_id) then 1 else 0
  | _ => 0
  end.

(** The task a worker has taken from the queue, [current_task]. *)
Definition task_in_hand (p : pc) : option Task :=
  match p with
  | GateWait t | FailureDraw t | Failing t _ | Redirecting t _ _ | Select t
  | Requeue t | RequeuePost t | Execute t _ | Release t _ | Post t => Some t
  | _ => None
  end.

(** A worker that has no task in hand and no slot. *)
Definition idle (p : pc) : bool :=
  match p with
  | LoopTest | QueueCheck | QueueWait | Backoff _ | Exited => true
  | _ => false
  end.

Definition quiescent (s : state) : Prop :=
  tasks s = [] ∧ ∀ p, p ∈ threads s → idle p = true.


(** What one step does to the queue: nothing, a pop by a worker, or a
    push; a push is a submission by a caller, a replacement task of the
    redirection loop, or the task a worker gives back. *)
Inductive queue_change (l : label) (s s' : state) : Prop :=
| QueueSame :
    tasks s' = tasks s → queue_change l s s'
| QueuePop i d t :
    l = Worker i d → threads s !! i = Some QueueCheck →
    threads s' !! i = Some (GateWait t) →
    pq_pops Task_less (tasks s) t (tasks s') → queue_change l s s'
| QueueSubmit priority is_critical task_id pick :
    l = AddTask priority is_critical task_id pick →
    tasks s' = Build_Task priority is_critical
                 (if task_id =? -1 then next_task_id s else task_id) :: tasks s →
    queue_change l s s'
| QueueRedirect i d t j k :
    l = Worker i d → threads s !! i = Some (Redirecting t j k) → j < k →
    tasks s' = Build_Task (random_priority (r1 d)) (random_critical (r2 d))
                 (next_task_id s) :: tasks s →
    queue_change l s s'
| QueueRequeue i d t :
    l = Worker i d → threads s !! i = Some (Requeue t) →
    tasks s' = t :: tasks s → queue_change l s s'.

(** No worker is blocked in [task_condition.wait]. *)
Definition no_queue_waiter (s : state) : Prop :=
  ∀ p, p ∈ threads s → p ≠ QueueWait.

(** Once [stop] has set the flag it stays set, and once [stop] has
    notified, no worker waits for the queue. *)
Record stop_inv (s : state) : Prop := StopInv {
  stop_flag : stopping s ≠ StopNotCalled → shutdown s = true;
  stop_woken : stopping s = StopJoining ∨ stopping s = Stopped → no_queue_waiter s
}.

(** The invariant of the gate and of the task counters: no slot is
    created or lost, no count is negative, and a processor other than
    the key -1 never counts more tasks than the workers running on it. *)
Record inv (s : state) : Prop := Inv {
  inv_sem : 0 ≤ task_semaphore s;
  inv_gate : task_semaphore s + total holds_slot (threads s) = capacity;
  inv_count : ∀ p n, processor_task_count s !! p = Some n →
                     0 ≤ n ∧ (p ≠ -1 → n ≤ total (executing_on p) (threads s))
}.

End QuantumSimulator.

(** * Variant B: EnergyMonitorSystem (src/2.cpp) *)
Module EnergyMonitorSystem.

(** [struct DataPacket]. *)
Record DataPacket := { priority : Z; is_critical : bool; station_id : Z }.

(** [DataPacket::operator<], the order of the priority queue. *)
Definition DataPacket_less (a other : DataPacket) : bool :=
  if negb (eqb (is_critical a) (is_critical other)) then negb (is_critical a)
  else priority a >? priority other.

Definition key (p : DataPacket) : bool * Z := (is_critical p, - priority p).

(** The three items of the specification's scenario, in push order;
    a packet carries the id of its station. *)
Definition scenario : list DataPacket :=
  [Build_DataPacket 1 false 1; Build_DataPacket 5 true 2; Build_DataPacket 1 false 3].

Inductive message :=
| MsgEmergency
| MsgHandlerAdded (load handlers : Z)
| MsgDropped (packet : DataPacket)
| MsgUrgent (packet : DataPacket)
| MsgProcessing (packet : DataPacket)
| MsgHandlerRemoved (new_load handlers : Z).

(** Where the server thread stands in [server_handler], with its local
    variables. *)
Inductive pc :=
| LoopTest                                         (* while (!shutdown) *)
| QueueCheck                                       (* data_mutex held: the wait condition *)
| QueueWait                                        (* inside data_condition.wait(lock) *)
| GateWait (packet : DataPacket)                   (* data_semaphore.wait() *)
| ReadLoad (packet : DataPacket)                   (* int load = current_load.load() *)
| GrowCheck (packet : DataPacket) (load : Z)
| GrowPost (packet : DataPacket) (load : Z)        (* additional_handlers++ done *)
| EmergencyCheck (packet : DataPacket) (load : Z)
| DropPost (packet : DataPacket)                   (* the packet is dropped *)
| Process (packet : DataPacket) (load : Z)         (* processing_time is drawn *)
| Sleeping (packet : DataPacket) (load processing_time : Z)
| ShrinkCheck (packet : DataPacket) (new_load : Z)
| ShrinkWait (packet : DataPacket) (new_load : Z)  (* additional_handlers-- done *)
| Post (packet : DataPacket)
| Exited.

Inductive stop_pc := StopNotCalled | StopFlagSet | StopJoining | Stopped.

Record state := State {
  data_packets : list DataPacket;
  data_semaphore : Z;
  current_load : Z;
  additional_handlers : Z;
  shutdown : bool;
  emergency_mode : bool;
  server : pc;
  stopping : stop_pc;
  cout : list message
}.

Definition set_data_packets (v : list DataPacket) (s : state) : state :=
  State v (data_semaphore s) (current_load s) (additional_handlers s)
        (shutdown s) (emergency_mode s) (server s) (stopping s) (cout s).
Definition set_data_semaphore (v : Z) (s : state) : state :=
  State (data_packets s) v (current_load s) (additional_handlers s)
        (shutdown s) (emergency_mode s) (server s) (stopping s) (cout s).
Definition set_current_load (v : Z) (s : state) : state :=
  State (data_packets s) (data_semaphore s) v (additional_handlers s)
        (shutdown s) (emergency_mode s) (server s) (stopping s) (cout s).
Definition set_additional_handlers (v : Z) (s : state) : state :=
  State (data_packets s) (data_semaphore s) (current_load s) v
        (shutdown s) (emergency_mode s) (server s) (stopping s) (cout s).
Definition set_shutdown (v : bool) (s : state) : state :=
  State (data_packets s) (data_semaphore s) (current_load s) (additional_handlers s)
        v (emergency_mode s) (server s) (stopping s) (cout s).
Definition set_emergency_mode (v : bool) (s : state) : state :=
  State (data_packets s) (data_semaphore s) (current_load s) (additional_handlers s)
        (shutdown s) v (server s) (stopping s) (cout s).
Definition set_server (v : pc) (s : state) : state :=
  State (data_packets s) (data_semaphore s) (current_load s) (additional_handlers s)
        (shutdown s) (emergency_mode s) v (stopping s) (cout s).
Definition set_stopping (v : stop_pc) (s : state) : state :=
  State (data_packets s) (data_semaphore s) (current_load s) (additional_handlers s)
        (shutdown s) (emergency_mode s) (server s) v (cout s).
Definition print (m : message) (s : state) : state :=
  State (data_packets s) (data_semaphore s) (current_load s) (additional_handlers s)
        (shutdown s) (emergency_mode s) (server s) (stopping s) (cout s ++ [m]).

Definition max_load : Z := 100.
Definition base_handlers : Z := 2.
(** The literal 3 of [additional_handlers < 3]. *)
Definition max_additional_handlers : Z := 3.

(** The constructor, and the one server thread created by [start]. *)
Definition init : state :=
  State [] 2 0 0 false false LoopTest StopNotCalled [].

Definition wake (p : pc) : pc := match p with QueueWait => QueueCheck | _ => p end.

(** [add_data_packet]: the push under [data_mutex], then [notify_one];
    the server is the only thread that waits on [data_condition]. *)
Definition add_data_packet (priority : Z) (is_critical : bool) (station_id : Z)
    (s : state) : state :=
  let s1 := set_data_packets
              (pq_push (Build_DataPacket priority is_critical station_id)
                       (data_packets s)) s in
  set_server (wake (server s1)) s1.

(** A call of [void add_data_packet(...)] as its caller sees it. *)
Definition add_data_packet_call (priority : Z) (is_critical : bool)
    (station_id : Z) (s : state) : unit * state :=
  (tt, add_data_packet priority is_critical station_id s).

Definition simulate_emergency (s : state) : state :=
  print MsgEmergency (set_emergency_mode true s).

(** [processing_time / 10] and the clamp at [max_load]. *)
Definition next_load (load processing_time : Z) : Z :=
  let new_load := load + processing_time ÷ 10 in
  if new_load >? max_load then max_load else new_load.

(** One step of the server.  [processing_time] stands for the value of
    [100 + (rand() % 400) * (current_load / 100.0)] converted to [int]:
    the product lies between 0 and 399, so the value is in [100, 499]. *)
Definition server_step (pick : nat) (processing_time : Z) (s : state) : option state :=
  match server s with
  | LoopTest => Some (set_server (if shutdown s then Exited else QueueCheck) s)
  | QueueCheck =>
      if shutdown s then Some (set_server Exited s)
      else match data_packets s with
           | [] => Some (set_server QueueWait s)
           | _ => match pq_pop_at DataPacket_less pick (data_packets s) with
                  | Some (packet, q) =>
                      Some (set_server (GateWait packet) (set_data_packets q s))
                  | None => None
                  end
           end
  | QueueWait => None
  | GateWait packet =>
      if 0 <? data_semaphore s
      then Some (set_server (ReadLoad packet)
                   (set_data_semaphore (data_semaphore s - 1) s))
      else None
  | ReadLoad packet => Some (set_server (GrowCheck packet (current_load s)) s)
  | GrowCheck packet load =>
      if (load >? 80) && (additional_handlers s <? max_additional_handlers)
      then Some (set_server (GrowPost packet load)
                   (set_additional_handlers (additional_handlers s + 1) s))
      else Some (set_server (EmergencyCheck packet load) s)
  | GrowPost packet load =>
      Some (set_server (EmergencyCheck packet load)
              (print (MsgHandlerAdded load (base_handlers + additional_handlers s))
                 (set_data_semaphore (data_semaphore s + 1) s)))
  | EmergencyCheck packet load =>
      if emergency_mode s then
        if (priority packet >? 3) && negb (is_critical packet)
        then Some (set_server (DropPost packet) (print (MsgDropped packet) s))
        else Some (set_server (Process packet load)
                     (print (MsgProcessing packet)
                        (if is_critical packet then print (MsgUrgent packet) s else s)))
      else Some (set_server (Process packet load) (print (MsgProcessing packet) s))
  | DropPost packet =>
      Some (set_server LoopTest (set_data_semaphore (data_semaphore s + 1) s))
  | Process packet load =>
      if (100 <=? processing_time) && (processing_time <=? 499)
      then Some (set_server (Sleeping packet load processing_time) s)
      else None
  | Sleeping packet load processing_time =>
      let new_load := next_load load processing_time in
      Some (set_server (ShrinkCheck packet new_load) (set_current_load new_load s))
  | ShrinkCheck packet new_load =>
      if (new_load <? 50) && (additional_handlers s >? 0)
      then Some (set_server (ShrinkWait packet new_load)
                   (set_additional_handlers (additional_handlers s - 1) s))
      else Some (set_server (Post packet) s)
  | ShrinkWait packet new_load =>
      if 0 <? data_semaphore s
      then Some (set_server (Post packet)
                   (print (MsgHandlerRemoved new_load
                             (base_handlers + additional_handlers s))
                      (set_data_semaphore (data_semaphore s - 1) s)))
      else None
  | Post packet =>
      Some (set_server LoopTest (set_data_semaphore (data_semaphore s + 1) s))
  | Exited => None
  end.

(** The actions of the program: the server's next action, a packet
    sent by a station thread, and the calls of the main thread. *)
Inductive label :=
| Server (pick : nat) (processing_time : Z)   (* the next action of the server *)
| Wakeup                                      (* a spurious wake-up of [wait] *)
| Station (priority : Z) (is_critical : bool) (station_id : Z)
| Emergency                                   (* [simulate_emergency] *)
| Stop.                                       (* the next action of [stop] *)

Definition stop_step (s : state) : option state :=
  match stopping s with
  | StopNotCalled => Some (set_stopping StopFlagSet (set_shutdown true s))
  | StopFlagSet => Some (set_stopping StopJoining (set_server (wake (server s)) s))
  | StopJoining =>
      match server s with
      | Exited => Some (set_stopping Stopped s)
      | _ => None
      end
  | Stopped => None
  end.

Definition step (l : label) (s : state) : option state :=
  match l with
  | Server pick processing_time => server_step pick processing_time s
  | Wakeup =>
      match server s with
      | QueueWait => Some (set_server QueueCheck s)
      | _ => None
      end
  | Station priority is_critical station_id =>
      Some (add_data_packet priority is_critical station_id s)
  | Emergency => Some (simulate_emergency s)
  | Stop => stop_step s
  end.

Fixpoint run (ls : list label) (s : state) : option state :=
  match ls with
  | [] => Some s
  | l :: ls' => match step l s with
                | Some s' => run ls' s'
                | None => None
                end
  end.

Definition reachable (s : state) : Prop := ∃ ls, run ls init = Some s.

(** *** Runs of the program *)

(** A station sends a non-critical packet of priority 5, the emergency
    is declared, and the server takes the packet up to the test of the
    emergency mode and beyond. *)
Definition shedding_run : list label :=
  [Station 5 false 7; Emergency;
   Server 0 100; Server 0 100; Server 0 100; Server 0 100; Server 0 100;
   Server 0 100].

(** The server takes a critical packet of priority 5 into processing
    during the emergency and stores the new load. *)
Definition critical_run : list label :=
  [Station 5 true 7; Emergency;
   Server 0 100; Server 0 100; Server 0 100; Server 0 100; Server 0 100;
   Server 0 100; Server 0 250; Server 0 100].

(** The server takes the only packet; [stop] sets the flag and notifies
    while the server is at the gate; the server goes on. *)
Definition late_run : list label :=
  [Station 1 false 7; Server 0 100; Server 0 100; Stop; Stop;
   Server 0 100; Server 0 100; Server 0 100; Server 0 100].

(** *** The admission gate, as the specification counts it *)

Definition capacity (s : state) : Z := base_handlers + additional_handlers s.

(** Slots taken: what [data_semaphore] is short of the capacity. *)
Definition held (s : state) : Z := capacity s - data_semaphore s.

(** The slots the server has taken and not yet given back.  After
    [additional_handlers++] the new slot is not yet posted; after
    [additional_handlers--] the removed slot is not yet taken. *)
Definition slots (p : pc) : Z :=
  match p with
  | ReadLoad _ | GrowCheck _ _ | EmergencyCheck _ _ | DropPost _ | Process _ _
  | Sleeping _ _ _ | ShrinkCheck _ _ | Post _ => 1
  | GrowPost _ _ => 2
  | _ => 0
  end.

(** The server is running a packet. *)
Definition executing (p : pc) : Z :=
  match p with Process _ _ | Sleeping _ _ _ => 1 | _ => 0 end.

Definition idle (p : pc) : bool :=
  match p with
  | LoopTest | QueueCheck | QueueWait | Exited => true
  | _ => false
  end.

Definition quiescent (s : state) : Prop :=
  data_packets s = [] ∧ idle (server s) = true.

(** The value the server last read from or stored to [current_load]. *)
Definition local_load (p : pc) : option Z :=
  match p with
  | GrowCheck _ l | GrowPost _ l | EmergencyCheck _ l | Process _ l
  | Sleeping _ l _ | ShrinkCheck _ l | ShrinkWait _ l => Some l
  | _ => None
  end.

(** Once [stop] has set the flag it stays set, and once [stop] has
    notified, the server does not wait for the queue. *)
Record stop_inv (s : state) : Prop := StopInv {
  stop_flag : stopping s ≠ StopNotCalled → shutdown s = true;
  stop_woken : stopping s = StopJoining ∨ stopping s = Stopped → server s ≠ QueueWait
}.

(** The invariant of the gate and of the load.  The load never goes
    down, so once a handler has been added the load stays above 80. *)
Record inv (s : state) : Prop := Inv {
  inv_sem : 0 ≤ data_semaphore s;
  inv_gate : data_semaphore s + slots (server s) = capacity s;
  inv_additional : 0 ≤ additional_handlers s ≤ max_additional_handlers;
  inv_load : 0 ≤ current_load s ≤ max_load;
  inv_local : ∀ l, local_load (server s) = Some l → l = current_load s;
  inv_time : ∀ packet l t, server s = Sleeping packet l t → 100 ≤ t ≤ 499;
  inv_high : 0 < additional_handlers s → 80 < current_load s
}.

End EnergyMonitorSystem.

(** * The rest of variant A: [start], [main] and the program they make *)
Module QuantumSimulator_program.
Import QuantumSimulator.

(** [start]: the ten workers, each at the test of its loop. *)
Definition start (s : state) : state :=
  set_threads (threads s ++ replicate 10 LoopTest) s.

(** Where [main] stands: before [start], at [add_task] in the loop over
    [i], at [processor_repair(j)] in round [i] of the two loops, inside
    [stop], after it. *)
Inductive main_pc :=
| Starting
| Submitting (i : nat)
| Repairing (i j : nat)
| Stopping
| Returned.

#[global] Instance main_pc_eq_dec : EqDecision main_pc.
Proof. solve_decision. Defined.

#[global] Instance stop_pc_eq_dec : EqDecision stop_pc.
Proof. solve_decision. Defined.

Record program := Program { core : state; main : main_pc }.

(** [priority_dist(gen)], uniform on 1..5. *)
Definition priority_dist (r : nat) : Z := 1 + Z.of_nat r mod 5.

(** One action of [main]; the sleeps are not actions.  [coin d] is
    [critical_dist(gen)] and [r1 d] the draw of [priority_dist]. *)
Definition main_step (d : draws) (pr : program) : option program :=
  match main pr with
  | Starting => Some (Program (start (core pr)) (Submitting 0))
  | Submitting i =>
      Some (Program
              (add_task (priority_dist (r1 d)) (coin d) (Z.of_nat i + 1) (pick d) (core pr))
              (if (S i <? 40)%nat then Submitting (S i) else Repairing 0 0))
  | Repairing i j =>
      Some (Program
              (processor_repair (Z.of_nat j) (core pr))
              (if (S j <? 4)%nat then Repairing i (S j)
               else if (S i <? 2)%nat then Repairing (S i) 0
               else Stopping))
  | Stopping =>
      match stop_step (core pr) with
      | Some c => Some (Program c (match stopping c with
                                   | Stopped => Returned
                                   | _ => Stopping
                                   end))
      | None => None
      end
  | Returned => None
  end.

(** The actions of the program: those of [main] and of the workers. *)
Inductive program_label :=
| Main (d : draws)
| Thread (thread_id : nat) (d : draws)
| Spurious (thread_id : nat).

Definition on_core (l : label) (pr : program) : option program :=
  match step l (core pr) with
  | Some c => Some (Program c (main pr))
  | None => None
  end.

Definition program_step (l : program_label) (pr : program) : option program :=
  match l with
  | Main d => main_step d pr
  | Thread i d => on_core (Worker i d) pr
  | Spurious i => on_core (Wakeup i) pr
  end.

Fixpoint program_run (ls : list program_label) (pr : program) : option program :=
  match ls with
  | [] => Some pr
  | l :: ls' => match program_step l pr with
                | Some pr' => program_run ls' pr'
                | None => None
                end
  end.

(** The object as its constructor leaves it, and [main] about to call
    [start]. *)
Definition program_init : program := Program (init_with 0) Starting.

Definition program_reachable (pr : program) : Prop :=
  ∃ ls, program_run ls program_init = Some pr.

(** The tasks of the program: queued, or in the hand of a worker. *)
Definition task_of (s : state) (t : Task) : Prop :=
  t ∈ tasks s ∨ ∃ p, p ∈ threads s ∧ task_in_hand p = Some t.

(** *** Measures on runs *)

(** The actions a worker has left once the shutdown flag is set. *)
Definition steps_left (p : pc) : nat :=
  match p with
  | Exited => 0
  | LoopTest | QueueCheck | QueueWait => 1
  | Post _ | Backoff _ => 2
  | Release _ _ | RequeuePost _ => 3
  | Execute _ _ | Requeue _ => 4
  | Select _ => 5
  | Redirecting _ i k => 6 + Z.to_nat (k - i)
  | Failing _ _ => 11
  | FailureDraw _ => 12
  | GateWait _ => 13
  end.

(** What a step of the others does to a worker: nothing, or it wakes
    it from [wait]. *)
Definition woken (p p' : pc) : Prop := p' = p ∨ (p = QueueWait ∧ p' = QueueCheck).

(** The failures under way: the processor drawn is one of 0..3, and
    the redirection loop runs [i] from 0 over no more tasks than the
    gate admits. *)
Record redirect_bounded (s : state) : Prop := RedirectBounded {
  bounded_loop : ∀ t i k, Redirecting t i k ∈ threads s → 0 ≤ i ∧ k ≤ 4;
  bounded_draw : ∀ t q, Failing t q ∈ threads s → 0 ≤ q ≤ 3
}.

(** The actions all workers have left once the flag is set. *)
Definition work_left (ths : list pc) : Z := total (λ p, Z.of_nat (steps_left p)) ths.

(** A worker that takes no action while the flag is set and the gate
    is closed: it has left, or it stands at the gate. *)
Definition parked (p : pc) : bool :=
  match p with Exited | GateWait _ => true | _ => false end.

(** The actions of a shutdown: those of [stop] and of the workers. *)
Definition shutdown_action (l : label) : bool :=
  match l with Worker _ _ | Stop => true | _ => false end.

(** The number of actions of worker [i] in a run. *)
Fixpoint worker_actions (i : nat) (ls : list label) : nat :=
  match ls with
  | [] => 0
  | Worker j _ :: ls' => (if decide (j = i) then 1 else 0) + worker_actions i ls'
  | _ :: ls' => worker_actions i ls'
  end.

(** A run in which no worker draws a failure. *)
Definition calm (l : label) : bool :=
  match l with
  | Worker _ d => negb (coin d)
  | _ => true
  end.

Definition failing (p : pc) : bool :=
  match p with Failing _ _ => true | _ => false end.

(** The count of a processor; a processor without an entry counts 0
    (what [operator[]] would insert). *)
Definition task_count (s : state) (p : Z) : Z :=
  default 0 (processor_task_count s !! p).

(** Without failures the counts of the processors are exact; the key
    -1 is counted when it is drawn and runs no task. *)
Record exact (s : state) : Prop := Exact {
  exact_count : ∀ p, p ≠ -1 → task_count s p = total (executing_on p) (threads s);
  exact_calm : ∀ p, p ∈ threads s → failing p = false
}.

(** The actions that call [add_task] with the default id: a caller's
    call without an id, and an iteration of the redirection loop of a
    worker. *)
Definition automatic (l : label) (s : state) : bool :=
  match l with
  | AddTask _ _ task_id _ => task_id =? default_task_id
  | Worker i _ =>
      match threads s !! i with
      | Some (Redirecting _ j k) => j <? k
      | _ => false
      end
  | _ => false
  end.

(** The ids of the tasks that those calls of a run have pushed, in the
    order of the calls: each is read from the task at the back of the
    queue's vector after the call. *)
Fixpoint automatic_ids (ls : list label) (s : state) : list Z :=
  match ls with
  | [] => []
  | l :: ls' =>
      match step l s with
      | Some s' =>
          (if automatic l s then option_list (task_id <$> head (tasks s')) else [])
          ++ automatic_ids ls' s'
      | None => []
      end
  end.

(** Workers 0 and 1 run a task each on processor 0; worker 2 takes a
    third task and draws the failure of processor 0, which counts two
    tasks. *)
Definition two_on_one_run : list label :=
  [AddTask 1 false 10 0; AddTask 1 false 11 0; AddTask 1 false 12 0]
  ++ replicate 5 (Worker 0 tails) ++ replicate 5 (Worker 1 tails)
  ++ replicate 3 (Worker 2 tails) ++ [Worker 2 heads; Worker 2 tails].

(** The two iterations of worker 2's loop, and a caller's [add_task]
    without an id between them. *)
Definition interleaved_run : list label :=
  [Worker 2 tails; AddTask 3 false default_task_id 0; Worker 2 tails].

(** The processor a worker has drawn or chosen. *)
Definition processor_of (p : pc) : option Z :=
  match p with
  | Failing _ q | Execute _ q | Release _ q => Some q
  | _ => None
  end.

(** What the program keeps: tasks with a priority of 1..5, and the four
    processors of the constructor. *)
Record well_formed (s : state) : Prop := WellFormed {
  wf_queue : ∀ t, t ∈ tasks s → 1 ≤ priority t ≤ 5;
  wf_hand : ∀ p t, p ∈ threads s → task_in_hand p = Some t → 1 ≤ priority t ≤ 5;
  wf_status : ∀ q, is_Some (processor_status s !! q) ↔ 0 ≤ q ≤ 3;
  wf_count : ∀ q, is_Some (processor_task_count s !! q) ↔ 0 ≤ q ≤ 3;
  wf_processor : ∀ p q, p ∈ threads s → processor_of p = Some q → 0 ≤ q ≤ 3
}.

(** The calls that [main] makes: priorities of 1..5 and the processors
    0..3. *)
Definition main_action (l : label) : Prop :=
  match l with
  | AddTask priority _ _ _ => 1 ≤ priority ≤ 5
  | Repair processor_id => 0 ≤ processor_id ≤ 3
  | _ => True
  end.

Definition workers_of (m : main_pc) : nat :=
  match m with Starting => 0 | _ => 10 end.

Record program_inv (pr : program) : Prop := ProgramInv {
  program_core : well_formed (core pr);
  program_workers : length (threads (core pr)) = workers_of (main pr);
  program_repairing : ∀ i j, main pr = Repairing i j → (j < 4)%nat
}.

(** The calls [main] has left before [stop] returns, counted
    generously. *)
Definition main_left (m : main_pc) : nat :=
  match m with
  | Starting => 100
  | Submitting i => 16 + (40 - i)
  | Repairing i j => 1 + (2 - i) * 5 + (4 - j)
  | Stopping | Returned => 0
  end.

(** An action of [stop] or of a worker, as an action of the program
    while [main] is inside [stop]. *)
Definition in_program (l : label) : program_label :=
  match l with
  | Worker i d => Thread i d
  | _ => Main tails
  end.

(** How far [main] is and how far [stop] is. *)
Record program_flow (pr : program) : Prop := ProgramFlow {
  flow_core : reachable (core pr);
  flow_starting : main pr = Starting → core pr = init_with 0;
  flow_before : main pr ≠ Stopping → main pr ≠ Returned →
                stopping (core pr) = StopNotCalled;
  flow_stopping : main pr = Stopping → stopping (core pr) ≠ Stopped;
  flow_returned : main pr = Returned → all_exited (threads (core pr)) = true
}.

End QuantumSimulator_program.

(** * The rest of variant B: [station_thread], [start], [main] and the
    program they make *)
Module EnergyMonitorSystem_program.
Import EnergyMonitorSystem.

(** Where a station stands in [station_thread], with its local
    variables. *)
Inductive station_pc :=
| StationTest                                     (* while (!shutdown) *)
| StationSend (priority : Z) (is_critical : bool) (* add_data_packet(...) *)
| StationSleep (ms : Z)                           (* sleep_for(interval) *)
| StationExited.

(** Where [main] stands: before [start], in the first sleep, in the
    second sleep, inside [stop], after it. *)
Inductive main_pc :=
| Starting
| Normal
| InEmergency
| Stopping
| Returned.

Record program := Program {
  core : state;
  stations : list station_pc;
  main : main_pc
}.

(** [priority_dist(gen)], uniform on 1..5. *)
Definition priority_dist (r : nat) : Z := 1 + Z.of_nat r mod 5.

(** One action of station [station_id].  [r] is the draw of
    [priority_dist], [coin] that of [critical_dist] and [ms] the value
    of [static_cast<int>(interval * 1000)], not negative. *)
Definition station_step (station_id : nat) (r : nat) (coin : bool) (ms : Z)
    (st : station_pc) (s : state) : option (station_pc * state) :=
  match st with
  | StationTest =>
      Some (if shutdown s then StationExited else StationSend (priority_dist r) coin, s)
  | StationSend priority is_critical =>
      if 0 <=? ms
      then Some (StationSleep ms,
                 add_data_packet priority is_critical (Z.of_nat station_id) s)
      else None
  | StationSleep _ => Some (StationTest, s)
  | StationExited => None
  end.

Definition all_stations_exited (sts : list station_pc) : bool :=
  forallb (λ st, match st with StationExited => true | _ => false end) sts.

(** One action of [main]; the sleeps are not actions.  [stop] joins the
    stations before the server. *)
Definition main_step (pr : program) : option program :=
  match main pr with
  | Starting => Some (Program (core pr) (replicate 10 StationTest) Normal)
  | Normal => Some (Program (simulate_emergency (core pr)) (stations pr) InEmergency)
  | InEmergency | Stopping =>
      if match stopping (core pr) with
         | StopJoining => all_stations_exited (stations pr)
         | _ => true
         end
      then match stop_step (core pr) with
           | Some c => Some (Program c (stations pr)
                               (match stopping c with
                                | Stopped => Returned
                                | _ => Stopping
                                end))
           | None => None
           end
      else None
  | Returned => None
  end.

(** The actions of the program: those of [main], of the server and of
    the stations. *)
Inductive program_label :=
| Main
| ServerThread (pick : nat) (processing_time : Z)
| Spurious
| StationThread (station_id : nat) (r : nat) (coin : bool) (ms : Z).

Definition on_core (l : label) (pr : program) : option program :=
  match main pr with
  | Starting => None
  | _ => match step l (core pr) with
         | Some c => Some (Program c (stations pr) (main pr))
         | None => None
         end
  end.

Definition program_step (l : program_label) (pr : program) : option program :=
  match l with
  | Main => main_step pr
  | ServerThread pick processing_time => on_core (Server pick processing_time) pr
  | Spurious => on_core Wakeup pr
  | StationThread i r coin ms =>
      match stations pr !! i with
      | Some st =>
          match station_step i r coin ms st (core pr) with
          | Some (st', c) => Some (Program c (<[i:=st']> (stations pr)) (main pr))
          | None => None
          end
      | None => None
      end
  end.

Fixpoint program_run (ls : list program_label) (pr : program) : option program :=
  match ls with
  | [] => Some pr
  | l :: ls' => match program_step l pr with
                | Some pr' => program_run ls' pr'
                | None => None
                end
  end.

(** The object as its constructor leaves it, and [main] about to call
    [start]: no thread runs yet. *)
Definition program_init : program := Program init [] Starting.

Definition program_reachable (pr : program) : Prop :=
  ∃ ls, program_run ls program_init = Some pr.

(** The packet the server has taken from the queue. *)
Definition packet_in_hand (p : pc) : option DataPacket :=
  match p with
  | GateWait x | ReadLoad x | GrowCheck x _ | GrowPost x _ | EmergencyCheck x _
  | DropPost x | Process x _ | Sleeping x _ _ | ShrinkCheck x _ | ShrinkWait x _
  | Post x => Some x
  | _ => None
  end.

(** The packets of the program: queued, or in the hand of the server. *)
Definition packet_of (s : state) (x : DataPacket) : Prop :=
  x ∈ data_packets s ∨ packet_in_hand (server s) = Some x.

(** A station that has passed its test and has not sent yet. *)
Definition about_to_send (st : station_pc) : Z :=
  match st with StationSend _ _ => 1 | _ => 0 end.

(** The actions the server has left once the shutdown flag is set. *)
Definition steps_left (p : pc) : nat :=
  match p with
  | Exited => 0
  | LoopTest | QueueCheck | QueueWait => 1
  | Post _ | DropPost _ => 2
  | ShrinkWait _ _ => 3
  | ShrinkCheck _ _ => 4
  | Sleeping _ _ _ => 5
  | Process _ _ => 6
  | EmergencyCheck _ _ => 7
  | GrowPost _ _ => 8
  | GrowCheck _ _ => 9
  | ReadLoad _ => 10
  | GateWait _ => 11
  end.

(** The number of actions of the server in a run. *)
Fixpoint server_actions (ls : list label) : nat :=
  match ls with
  | [] => 0
  | Server _ _ :: ls' => S (server_actions ls')
  | _ :: ls' => server_actions ls'
  end.

(** The actions a station has left once the shutdown flag is set. *)
Definition station_left (st : station_pc) : Z :=
  match st with
  | StationExited => 0
  | StationTest => 1
  | StationSleep _ => 2
  | StationSend _ _ => 3
  end.

(** The actions the threads have left once the shutdown flag is set. *)
Definition program_left (pr : program) : Z :=
  total station_left (stations pr) + Z.of_nat (steps_left (server (core pr))).

Definition stations_of (m : main_pc) : nat :=
  match m with Starting => 0 | _ => 10 end.

#[global] Instance monitor_main_pc_eq_dec : EqDecision main_pc.
Proof. solve_decision. Defined.

#[global] Instance DataPacket_eq_dec : EqDecision DataPacket.
Proof. solve_decision. Defined.

#[global] Instance server_pc_eq_dec : EqDecision pc.
Proof. solve_decision. Defined.

(** What the program keeps: packets with a priority of 1..5 from one of
    the ten stations, and the order of the calls of [main]. *)
Record program_inv (pr : program) : Prop := ProgramInv {
  program_core : reachable (core pr);
  program_packets : ∀ x, packet_of (core pr) x →
                         1 ≤ priority x ≤ 5 ∧ 0 ≤ station_id x ≤ 9;
  program_sends : ∀ pri crit, StationSend pri crit ∈ stations pr → 1 ≤ pri ≤ 5;
  program_stations : length (stations pr) = stations_of (main pr);
  program_flag : stopping (core pr) = StopNotCalled → shutdown (core pr) = false;
  program_starting : main pr = Starting → core pr = init;
  program_normal : main pr = Normal →
                   stopping (core pr) = StopNotCalled ∧ emergency_mode (core pr) = false;
  program_emergency : main pr ≠ Starting → main pr ≠ Normal →
                      emergency_mode (core pr) = true;
  program_in_emergency : main pr = InEmergency → stopping (core pr) = StopNotCalled;
  program_stopping : main pr = Stopping →
                     stopping (core pr) = StopFlagSet ∨ stopping (core pr) = StopJoining;
  program_returned : main pr = Returned →
                     server (core pr) = Exited ∧
                     all_stations_exited (stations pr) = true
}.

(** After [additional_handlers++] and before the post, at least one
    additional handler is counted. *)
Definition grow_counted (s : state) : Prop :=
  ∀ packet load, server s = GrowPost packet load → 1 ≤ additional_handlers s.

End EnergyMonitorSystem_program.

(** ** Facts about the priority queue *)
Section priority_queue_facts.
Context {A : Type} (less : A → A → bool).

Lemma is_topb_spec q x : is_topb less q x = true ↔ ∀ y, y ∈ q → less x y = false.
Proof.
  unfold is_topb. rewrite forallb_forall. split.
  - intros H y Hy. apply list_elem_of_In in Hy. apply H in Hy.
    by destruct (less x y).
  - intros H y Hy. apply list_elem_of_In in Hy. by rewrite (H y Hy).
Qed.

Lemma pq_pop_at_intro (k : nat) q x :
  q !! k = Some x → (∀ y, y ∈ q → less x y = false) →
  pq_pop_at less k q = Some (x, delete k q).
Proof.
  intros Hk Ht. unfold pq_pop_at. rewrite Hk.
  apply is_topb_spec in Ht. by rewrite Ht.
Qed.

Lemma pq_pops_inv q x q' :
  pq_pops less q x q' → (∀ y, y ∈ q → less x y = false) ∧ q ≡ₚ x :: q'.
Proof.
  intros [k Hk]. unfold pq_pop_at in Hk.
  destruct (q !! k) as [x0|] eqn:Hq; [|done].
  destruct (is_topb less q x0) eqn:Ht; [|done].
  injection Hk as -> <-. split.
  - by apply is_topb_spec.
  - by apply delete_Permutation.
Qed.

Lemma pq_push_all_perm (xs : list A) : pq_push_all xs ≡ₚ xs.
Proof.
  unfold pq_push_all.
  enough (∀ acc, foldl (λ q x, pq_push x q) acc xs ≡ₚ xs ++ acc) as H.
  { rewrite H. by rewrite app_nil_r. }
  induction xs as [|x xs IH]; intros acc; simpl; [done|].
  rewrite IH. unfold pq_push. by rewrite Permutation_middle.
Qed.

Lemma pq_drains_perm q l : pq_drains less q l → q ≡ₚ l.
Proof.
  induction 1 as [|q x q' l Hp _ IH]; [done|].
  apply pq_pops_inv in Hp as [_ Hp]. by rewrite Hp, IH.
Qed.

(** The pop sequence never has a greater element after a smaller one. *)
Lemma pq_drains_ordered q l :
  pq_drains less q l →
  ∀ (i j : nat) x y, l !! i = Some x → l !! j = Some y → (i < j)%nat → less x y = false.
Proof.
  induction 1 as [|q x q' l Hp Hd IH]; intros i j a b Hi Hj Hij.
  - by rewrite lookup_nil in Hi.
  - destruct j as [|j]; [lia|]. simpl in Hj.
    destruct i as [|i]; simpl in Hi.
    + injection Hi as ->.
      apply pq_pops_inv in Hp as [Htop Hperm].
      apply Htop. rewrite Hperm. right.
      rewrite (pq_drains_perm _ _ Hd). by eapply list_elem_of_lookup_2.
    + eapply IH; eauto. lia.
Qed.

Section strict_weak_order.
Hypothesis less_irrefl : ∀ x, less x x = false.
Hypothesis less_trans : ∀ x y z, less x y = true → less y z = true → less x z = true.

(** A queue that is not empty has a top: [top()] and [pop()] succeed. *)
Lemma pq_pops_exists q : q ≠ [] → ∃ x q', pq_pops less q x q'.
Proof.
  induction q as [|a q IH]; [done|]. intros _.
  destruct q as [|b q].
  - exists a, []. exists 0%nat. apply (pq_pop_at_intro 0 [a] a); [done|].
    intros z [->|Hz]%elem_of_cons; [done|]. by apply elem_of_nil in Hz.
  - destruct IH as (y & r & k & Hk); [done|].
    pose proof (pq_pops_inv _ _ _ (ex_intro _ k Hk)) as [Ht _].
    unfold pq_pop_at in Hk.
    destruct ((b :: q) !! k) as [y0|] eqn:Hlk; [|done].
    destruct (is_topb less (b :: q) y0); [|done].
    injection Hk as -> <-.
    destruct (less y a) eqn:Hya.
    + exists a, (b :: q). exists 0%nat.
      apply (pq_pop_at_intro 0 (a :: b :: q) a); [done|].
      intros z [->|Hz]%elem_of_cons; [done|].
      destruct (less a z) eqn:Haz; [|done].
      rewrite <- (Ht z Hz). symmetry. by eapply less_trans.
    + exists y, (delete (S k) (a :: b :: q)). exists (S k).
      apply (pq_pop_at_intro (S k) (a :: b :: q) y); [done|].
      intros z [->|Hz]%elem_of_cons; auto.
Qed.

(** Every queue can be popped until it is empty. *)
Lemma pq_drains_exists q : ∃ l, pq_drains less q l.
Proof.
  remember (length q) as n eqn:Hn. revert q Hn.
  induction n as [|n IH]; intros q Hn.
  - destruct q; [|done]. exists []. constructor.
  - destruct (pq_pops_exists q) as (x & q' & Hp); [by destruct q|].
    destruct (IH q') as [l Hl].
    { pose proof (pq_pops_inv _ _ _ Hp) as [_ Hperm].
      apply Permutation_length in Hperm. simpl in Hperm. lia. }
    exists (x :: l). by econstructor.
Qed.
End strict_weak_order.
End priority_queue_facts.

Lemma total_insert {P : Type} (f : P → Z) (ths : list P) (i : nat) a b :
  ths !! i = Some a → total f (<[i:=b]> ths) = total f ths - f a + f b.
Proof.
  revert i. induction ths as [|c ths IH]; intros [|i] H; simplify_eq/=; [lia|].
  rewrite (IH i H). lia.
Qed.

Lemma total_nonneg {P : Type} (f : P → Z) (ths : list P) :
  (∀ p, 0 ≤ f p) → 0 ≤ total f ths.
Proof. intros Hf. induction ths as [|c ths IH]; simpl; [lia|]. specialize (Hf c). lia. Qed.

Lemma total_zero {P : Type} (f : P → Z) (ths : list P) :
  (∀ p, p ∈ ths → f p = 0) → total f ths = 0.
Proof.
  induction ths as [|c ths IH]; intros H; simpl; [done|].
  rewrite (H c), IH; [done| |by left]. intros p Hp. apply H. by right.
Qed.

Lemma total_map {P : Type} (f : P → Z) (g : P → P) (ths : list P) :
  (∀ p, f (g p) = f p) → total f (g <$> ths) = total f ths.
Proof.
  intros H. induction ths as [|c ths IH]; [done|].
  rewrite fmap_cons. simpl. by rewrite H, IH.
Qed.

Lemma total_le {P : Type} (f g : P → Z) (ths : list P) :
  (∀ p, f p ≤ g p) → total f ths ≤ total g ths.
Proof. intros H. induction ths as [|c ths IH]; simpl; [lia|]. specialize (H c). lia. Qed.

Lemma total_lookup_le {P : Type} (f : P → Z) (ths : list P) (i : nat) a :
  (∀ p, 0 ≤ f p) → ths !! i = Some a → f a ≤ total f ths.
Proof.
  intros Hf. revert i. induction ths as [|c ths IH]; intros [|i] H; simplify_eq/=.
  - pose proof (total_nonneg f ths Hf). lia.
  - specialize (IH i H). specialize (Hf c). lia.
Qed.

Lemma map_index_lookup {V : Type} (d : V) (m : gmap Z V) k v m' :
  map_index d m k = (v, m') → m' !! k = Some v ∧ ∀ j, j ≠ k → m' !! j = m !! j.
Proof.
  unfold map_index. destruct (m !! k) eqn:Hk; intros [= <- <-].
  - done.
  - split; [apply lookup_insert_eq|]. intros j Hj. by apply lookup_insert_ne.
Qed.

Lemma map_index_value {V : Type} (d : V) (m : gmap Z V) k v m' :
  map_index d m k = (v, m') → m !! k = Some v ∨ (m !! k = None ∧ v = d).
Proof.
  unfold map_index. destruct (m !! k) eqn:Hk; intros [= <- <-]; auto.
Qed.

Lemma map_index_present {V : Type} (d : V) (m : gmap Z V) k v :
  m !! k = Some v → map_index d m k = (v, m).
Proof. unfold map_index. by intros ->. Qed.

Lemma elem_of_insert_inv {P : Type} (l : list P) (i : nat) x p :
  p ∈ <[i:=x]> l → p = x ∨ p ∈ l.
Proof.
  intros [j Hj]%list_elem_of_lookup.
  apply list_lookup_insert_Some in Hj as [(_ & -> & _)|[_ Hj]]; [by left|].
  right. by eapply list_elem_of_lookup_2.
Qed.

(** Case analysis on the tests of a step function. *)
Ltac step_cases H :=
  repeat match type of H with
    | context [if ?b then _ else _] => destruct b eqn:?
    | context [match ?x with _ => _ end] => destruct x eqn:?
    end; simplify_eq.

Lemma map_sum_zero (m : gmap Z Z) :
  (∀ k v, m !! k = Some v → v = 0) → map_fold (λ _ n acc, n + acc) 0 m = 0.
Proof.
  apply (map_fold_weak_ind (λ r (m : gmap Z Z), (∀ k v, m !! k = Some v → v = 0) → r = 0)).
  - done.
  - intros i x m0 r Hi IH Hall.
    rewrite (Hall i x) by apply lookup_insert_eq.
    rewrite IH; [done|]. intros k v Hk. apply (Hall k).
    rewrite lookup_insert_ne; [done|]. intros ->. by rewrite Hi in Hk.
Qed.

Lemma forallb_false {A : Type} (f : A → bool) (l : list A) :
  forallb f l = false → ∃ (i : nat) x, l !! i = Some x ∧ f x = false.
Proof.
  induction l as [|a l IH]; simpl; [done|].
  destruct (f a) eqn:Ha; simpl.
  - intros (i & x & Hi & Hx)%IH. by exists (S i), x.
  - intros _. by exists 0%nat, a.
Qed.

Lemma forallb_lookup {A : Type} (f : A → bool) (l : list A) (i : nat) x :
  forallb f l = true → l !! i = Some x → f x = true.
Proof.
  revert i. induction l as [|a l IH]; intros [|i] H Hi; simplify_eq/=;
    apply andb_true_iff in H as [Ha Hl]; eauto.
Qed.

(** ** Facts about the dequeue order *)

Lemma lex_gt_irrefl k : ¬ lex_gt k k.
Proof. intros [[H1 H2]|[_ H]]; [congruence|lia]. Qed.

Lemma lex_gt_asym k1 k2 : lex_gt k1 k2 → ¬ lex_gt k2 k1.
Proof.
  intros [[H1 H2]|[H1 H2]] [[H3 H4]|[H3 H4]]; try congruence; lia.
Qed.

Lemma lex_gt_total k1 k2 : k1 ≠ k2 → lex_gt k1 k2 ∨ lex_gt k2 k1.
Proof.
  destruct k1 as [c1 z1], k2 as [c2 z2]. unfold lex_gt. simpl. intros Hne.
  destruct c1, c2; try tauto;
    (destruct (Z.lt_trichotomy z1 z2) as [?|[->|?]]; [right; right; lia|done|left; right; lia]).
Qed.

Section dequeue_order_facts.
Context {A : Type} (less : A → A → bool) (crit : A → bool) (pri : A → Z).
Hypothesis less_lex :
  ∀ a b, less b a = true ↔ lex_gt (crit a, - pri a) (crit b, - pri b).

(** What is popped is not below anything that is in the queue. *)
Lemma pq_pops_greatest q a q' b :
  pq_pops less q a q' → b ∈ q → ¬ lex_gt (crit b, - pri b) (crit a, - pri a).
Proof.
  intros [Htop _]%pq_pops_inv Hb Hgt. apply less_lex in Hgt.
  by rewrite (Htop b Hb) in Hgt.
Qed.

Lemma pq_drains_in_order xs l :
  pq_drains less (pq_push_all xs) l → dequeued_in_order crit pri xs l.
Proof.
  intros Hd. split.
  { by rewrite <- (pq_drains_perm _ _ _ Hd), pq_push_all_perm. }
  intros i j a b Hi Hj.
  assert (lex_gt (crit a, - pri a) (crit b, - pri b) → (i < j)%nat) as Hfwd.
  { intros Hgt. destruct (Nat.lt_trichotomy i j) as [?|[->|Hji]]; [done| |].
    - rewrite Hi in Hj. injection Hj as ->. by apply lex_gt_irrefl in Hgt.
    - pose proof (pq_drains_ordered _ _ _ Hd j i b a Hj Hi Hji) as Hless.
      apply less_lex in Hgt. by rewrite Hless in Hgt. }
  assert ((i < j)%nat → ¬ lex_gt (crit b, - pri b) (crit a, - pri a)) as Hbwd.
  { intros Hij Hgt. apply less_lex in Hgt.
    by rewrite (pq_drains_ordered _ _ _ Hd i j a b Hi Hj Hij) in Hgt. }
  repeat split; try done.
  - intros Hij. destruct (lex_gt_total _ _ H) as [?|Hgt]; [done|]. by apply Hbwd in Hgt.
  - intros Ha Hb. apply Hfwd. left. by split.
  - intros Hc Hp. apply Hfwd. right. simpl. split; [done|lia].
Qed.
End dequeue_order_facts.


(** * Variant A: facts *)
Module QuantumSimulator_facts.
Import QuantumSimulator.

Lemma Task_less_lex a b : Task_less b a = true ↔ lex_gt (key a) (key b).
Proof.
  unfold Task_less, lex_gt, key. simpl.
  destruct (is_critical a), (is_critical b); simpl; rewrite ?Z.gtb_gt; intuition (try discriminate; lia).
Qed.

Lemma Task_less_irrefl a : Task_less a a = false.
Proof.
  unfold Task_less. rewrite eqb_reflx. simpl. rewrite Z.gtb_ltb. apply Z.ltb_irrefl.
Qed.

Lemma Task_less_trans a b c :
  Task_less a b = true → Task_less b c = true → Task_less a c = true.
Proof.
  unfold Task_less.
  destruct (is_critical a), (is_critical b), (is_critical c); simpl;
    rewrite ?Z.gtb_gt; try done; lia.
Qed.

Lemma wake_nth_total f n ths :
  f QueueWait = f QueueCheck → total f (wake_nth n ths) = total f ths.
Proof.
  intros Hf. revert n. induction ths as [|p ths IH]; intros n; [done|].
  destruct p; simpl; rewrite ?IH; try done.
  destruct n; simpl; rewrite ?IH; lia.
Qed.

Lemma wake_nth_lookup n ths (i : nat) p :
  ths !! i = Some p → p ≠ QueueWait → wake_nth n ths !! i = Some p.
Proof.
  revert n i. induction ths as [|q ths IH]; intros n [|i] H Hp; simplify_eq/=.
  - by destruct p.
  - destruct q; simpl; eauto. destruct n; simpl; eauto.
Qed.

Lemma wake_nth_lookup_inv n ths (i : nat) p :
  wake_nth n ths !! i = Some p →
  ths !! i = Some p ∨ (p = QueueCheck ∧ ths !! i = Some QueueWait).
Proof.
  revert n i. induction ths as [|q ths IH]; intros n i H; [done|].
  destruct q; simpl in H;
    try (destruct i as [|i]; simpl in *; [by left|by eapply IH]).
  destruct n as [|n]; destruct i as [|i]; simpl in *; simplify_eq; eauto.
Qed.

Lemma notify_one_lookup_inv pick ths (i : nat) p :
  notify_one pick ths !! i = Some p →
  ths !! i = Some p ∨ (p = QueueCheck ∧ ths !! i = Some QueueWait).
Proof. apply wake_nth_lookup_inv. Qed.

Lemma notify_all_lookup_inv ths (i : nat) p :
  notify_all ths !! i = Some p →
  ths !! i = Some p ∨ (p = QueueCheck ∧ ths !! i = Some QueueWait).
Proof.
  unfold notify_all. rewrite list_lookup_fmap.
  destruct (ths !! i) as [[]|]; simpl; intros [= <-]; auto.
Qed.

Lemma notify_one_total f pick ths :
  f QueueWait = f QueueCheck → total f (notify_one pick ths) = total f ths.
Proof. apply wake_nth_total. Qed.

Lemma notify_one_lookup pick ths (i : nat) p :
  ths !! i = Some p → p ≠ QueueWait → notify_one pick ths !! i = Some p.
Proof. apply wake_nth_lookup. Qed.

Lemma notify_all_total f ths :
  f QueueWait = f QueueCheck → total f (notify_all ths) = total f ths.
Proof. intros Hf. apply total_map. by intros []. Qed.

Lemma executing_on_ge0 q p : 0 ≤ executing_on q p.
Proof. destruct p; simpl; try case_decide; lia. Qed.

Lemma total_executing_on_ge0 q ths : 0 ≤ total (executing_on q) ths.
Proof. apply total_nonneg. intros []; simpl; try case_decide; lia. Qed.

Lemma inv_init n : inv (init_with n).
Proof.
  split; simpl.
  - lia.
  - rewrite total_zero; [done|]. by intros p [-> _]%elem_of_replicate.
  - intros p k H. pose proof (total_executing_on_ge0 p (replicate n LoopTest)).
    rewrite !lookup_insert in H. repeat case_decide; simplify_eq; lia.
Qed.

(** What [add_task] does to each field of the state. *)
Lemma add_task_frame pr cr id pk s :
  tasks (add_task pr cr id pk s)
  = Build_Task pr cr (if id =? -1 then next_task_id s else id) :: tasks s ∧
  task_semaphore (add_task pr cr id pk s) = task_semaphore s ∧
  processor_status (add_task pr cr id pk s) = processor_status s ∧
  processor_task_count (add_task pr cr id pk s) = processor_task_count s ∧
  shutdown (add_task pr cr id pk s) = shutdown s ∧
  threads (add_task pr cr id pk s) = notify_one pk (threads s) ∧
  next_task_id (add_task pr cr id pk s)
  = (if id =? -1 then wrap32 (next_task_id s + 1) else next_task_id s) ∧
  stopping (add_task pr cr id pk s) = stopping s ∧
  cout (add_task pr cr id pk s) = cout s.
Proof. unfold add_task, pq_push. by destruct (id =? -1). Qed.

(** What the locked part of [processor_failure] leaves alone. *)
Lemma processor_failure_locked_frame p s s' r :
  processor_failure_locked p s = (s', r) →
  tasks s' = tasks s ∧ task_semaphore s' = task_semaphore s ∧
  threads s' = threads s ∧ shutdown s' = shutdown s ∧
  next_task_id s' = next_task_id s ∧ stopping s' = stopping s.
Proof.
  unfold processor_failure_locked. intros H. step_cases H; done.
Qed.

Lemma processor_failure_locked_count p s s' r q n :
  processor_failure_locked p s = (s', r) →
  processor_task_count s' !! q = Some n →
  n = 0 ∨ processor_task_count s !! q = Some n.
Proof.
  unfold processor_failure_locked. intros H Hq. step_cases H; simpl in Hq; auto.
  rewrite lookup_insert in Hq. case_decide; simplify_eq; auto.
  match goal with
  | Hm : map_index 0 _ _ = _ |- _ =>
      pose proof (map_index_lookup _ _ _ _ _ Hm) as [_ Hne]
  end.
  right. by rewrite <- Hne.
Qed.

Lemma healthy_processors_elem status p :
  p ∈ healthy_processors status → status !! p = Some true.
Proof. unfold healthy_processors. by intros [? _]%list_elem_of_filter. Qed.

(** The outcomes of the choice of a processor: none is healthy; or
    one is chosen and counted, and then the task runs on it unless its
    id is -1, the value of "no processor". *)
Lemma worker_step_Select i d t s p' s' :
  worker_step i d (Select t) s = Some (p', s') →
  (healthy_processors (processor_status s) = [] ∧ p' = Requeue t ∧ s' = s) ∨
  (∃ processor_id n count,
      processor_id ∈ healthy_processors (processor_status s) ∧
      map_index 0 (processor_task_count s) processor_id = (n, count) ∧
      ((processor_id = -1 ∧ p' = Requeue t ∧
        s' = set_processor_task_count (<[processor_id:=n + 1]> count) s) ∨
       (processor_id ≠ -1 ∧ p' = Execute t processor_id ∧
        s' = print (MsgExecuting i t processor_id)
               (set_processor_task_count (<[processor_id:=n + 1]> count) s)))).
Proof.
  unfold worker_step.
  destruct (healthy_processors (processor_status s)) as [|p0 l] eqn:Hh.
  - intros [= <- <-]. by left.
  - set (pid := nth _ _ _).
    assert (pid ∈ p0 :: l) as Hin.
    { apply list_elem_of_In, nth_In, Nat.mod_upper_bound. done. }
    clearbody pid. destruct (map_index 0 (processor_task_count s) pid) as [n count] eqn:Hm.
    destruct (pid =? -1) eqn:Hpid; intros [= <- <-]; right; exists pid, n, count.
    + apply Z.eqb_eq in Hpid. split; [done|]. split; [done|]. by left.
    + apply Z.eqb_neq in Hpid. split; [done|]. split; [done|]. by right.
Qed.

(** What the choice does to the state, whatever its outcome. *)
Lemma worker_step_Select_frame i d t s p' s' :
  worker_step i d (Select t) s = Some (p', s') →
  tasks s' = tasks s ∧ task_semaphore s' = task_semaphore s ∧
  processor_status s' = processor_status s ∧ threads s' = threads s ∧
  shutdown s' = shutdown s ∧ next_task_id s' = next_task_id s ∧
  stopping s' = stopping s ∧
  (p' = Requeue t ∨ ∃ q, p' = Execute t q ∧ q ≠ -1 ∧ processor_status s !! q = Some true).
Proof.
  intros Hstep.
  apply worker_step_Select in Hstep
    as [(_ & -> & ->)|(q & n & count & Hq & _ & [(_ & -> & ->)|(Hne & -> & ->)])];
    repeat split; auto.
  right. exists q. repeat split; [done|]. by apply healthy_processors_elem.
Qed.

Lemma worker_step_inv i d p s p' s' :
  threads s !! i = Some p → worker_step i d p s = Some (p', s') → inv s →
  inv (set_threads (<[i:=p']> (threads s')) s').
Proof.
  intros Hi Hstep [Hsem Hgate Hcount].
  destruct p.
  8: { apply worker_step_Select in Hstep
         as [(_ & -> & ->)|(pid & n & count & _ & Hm & Hout)].
       - split; simpl; [done|rewrite (total_insert _ _ _ _ _ Hi); simpl; lia|].
         intros q n Hq. destruct (Hcount q n Hq) as [H0 Hle]. split; [done|].
         intros Hne. specialize (Hle Hne). rewrite (total_insert _ _ _ _ _ Hi).
         simpl. lia.
       - pose proof (map_index_lookup _ _ _ _ _ Hm) as [Hk Hne].
         assert (0 ≤ n ∧ (pid ≠ -1 → n ≤ total (executing_on pid) (threads s))) as [Hn0 Hn].
         { apply map_index_value in Hm as [Hm|[Hm ->]]; [by apply Hcount|].
           split; [done|]. intros _. apply total_executing_on_ge0. }
         destruct Hout as [(Hpid & -> & ->)|(Hpid & -> & ->)].
         + split; simpl; [done|rewrite (total_insert _ _ _ _ _ Hi); simpl; lia|].
           intros q k Hq. rewrite (total_insert _ _ _ _ _ Hi). simpl.
           destruct (decide (q = pid)) as [->|Hqp].
           * rewrite lookup_insert_eq in Hq. simplify_eq. split; [lia|done].
           * rewrite lookup_insert_ne, Hne in Hq by done.
             destruct (Hcount q k Hq) as [H0 Hle]. split; [done|].
             intros Hq1. specialize (Hle Hq1). lia.
         + split; simpl; [done|rewrite (total_insert _ _ _ _ _ Hi); simpl; lia|].
           intros q k Hq. rewrite (total_insert _ _ _ _ _ Hi). simpl.
           destruct (decide (q = pid)) as [->|Hqp].
           * rewrite lookup_insert_eq in Hq. rewrite decide_True by done.
             simplify_eq. specialize (Hn Hpid). split; [lia|]. intros _. lia.
           * rewrite lookup_insert_ne, Hne in Hq by done.
             destruct (Hcount q k Hq) as [H0 Hle]. split; [done|].
             intros Hq1. specialize (Hle Hq1). rewrite decide_False by done. lia. }
  6: { simpl in Hstep.
       destruct (processor_failure_locked processor_to_fail s) as [s1 r] eqn:Hf.
       pose proof (processor_failure_locked_frame _ _ _ _ Hf) as (_ & Hs & Ht & _).
       assert (∀ q n, processor_task_count s1 !! q = Some n →
                      0 ≤ n ∧ (q ≠ -1 → n ≤ total (executing_on q) (threads s))) as Hc.
       { intros q n Hq.
         destruct (processor_failure_locked_count _ _ _ _ _ _ Hf Hq) as [->|Hq']; [|by eauto].
         pose proof (total_executing_on_ge0 q (threads s)). split; [done|]. intros _. lia. }
       destruct r; simplify_eq; split; simpl; rewrite ?Hs, ?Ht; try done;
         try (rewrite (total_insert _ _ _ _ _ Hi); simpl; lia);
         intros q n Hq; destruct (Hc q n Hq) as [H0 Hle]; (split; [done|]);
         intros Hq1; specialize (Hle Hq1); rewrite (total_insert _ _ _ _ _ Hi);
         simpl; lia. }
  6: { simpl in Hstep. destruct (i0 <? tasks_to_redirect); simplify_eq.
       - assert (notify_one (pick d) (threads s) !! i
                 = Some (Redirecting current_task i0 tasks_to_redirect)) as Hi'.
         { by apply notify_one_lookup. }
         unfold redirect_one, add_task. simpl.
         split; simpl.
         + by destruct (default_task_id =? -1).
         + destruct (default_task_id =? -1); simpl;
             rewrite (total_insert _ _ _ _ _ Hi'), notify_one_total by done; simpl; lia.
         + intros q n Hq.
           rewrite (total_insert _ _ _ _ _ Hi'), notify_one_total by done. simpl.
           assert (processor_task_count s !! q = Some n) as Hq'
               by (by destruct (default_task_id =? -1)).
           destruct (Hcount q n Hq') as [H0 Hle]. split; [done|].
           intros Hq1. specialize (Hle Hq1). lia.
       - split; simpl; [done|rewrite (total_insert _ _ _ _ _ Hi); simpl; lia|].
         intros q n Hq. destruct (Hcount q n Hq) as [H0 Hle]. split; [done|].
         intros Hq1. specialize (Hle Hq1). rewrite (total_insert _ _ _ _ _ Hi).
         simpl. lia. }
  10: { simpl in Hstep.
        destruct (map_index 0 (processor_task_count s) processor_id) as [n count] eqn:Hm.
        simplify_eq.
        pose proof (map_index_lookup _ _ _ _ _ Hm) as [Hk Hne].
        assert (0 ≤ n ∧ (processor_id ≠ -1 →
                         n ≤ total (executing_on processor_id) (threads s))) as [Hn0 Hn].
        { apply map_index_value in Hm as [Hm|[Hm ->]]; [by eauto|].
          split; [done|]. intros _. apply total_executing_on_ge0. }
        split; simpl; [done|rewrite (total_insert _ _ _ _ _ Hi); simpl; lia|].
        intros q k Hq. rewrite (total_insert _ _ _ _ _ Hi). simpl.
        destruct (0 <? n) eqn:Hpos.
        - apply Z.ltb_lt in Hpos. destruct (decide (q = processor_id)) as [->|Hqp].
          + rewrite lookup_insert_eq in Hq. simplify_eq. rewrite decide_True by done.
            split; [lia|]. intros Hq1. specialize (Hn Hq1). lia.
          + rewrite lookup_insert_ne, Hne in Hq by done.
            destruct (Hcount q k Hq) as [H0 Hle]. split; [done|].
            intros Hq1. specialize (Hle Hq1). rewrite decide_False by done. lia.
        - apply Z.ltb_ge in Hpos. destruct (decide (q = processor_id)) as [->|Hqp].
          + rewrite Hk in Hq. simplify_eq. rewrite decide_True by done.
            pose proof (total_lookup_le (executing_on processor_id) _ _ _
                          (executing_on_ge0 processor_id) Hi) as Hle.
            simpl in Hle. rewrite decide_True in Hle by done. split; [done|]. intros _. lia.
          + rewrite Hne in Hq by done.
            destruct (Hcount q k Hq) as [H0 Hle]. split; [done|].
            intros Hq1. specialize (Hle Hq1). rewrite decide_False by done. lia. }
  all: simpl in Hstep; step_cases Hstep.
  all: split; simpl.
  all: try (rewrite (total_insert _ _ _ _ _ Hi); simpl; lia).
  all: try (intros q n Hq; destruct (Hcount q n Hq) as [H0 Hle]; (split; [done|]);
            intros Hq1; specialize (Hle Hq1); rewrite (total_insert _ _ _ _ _ Hi);
            simpl; repeat case_decide; lia).
  all: try lia.
Qed.

Lemma step_inv l s s' : step l s = Some s' → inv s → inv s'.
Proof.
  intros Hstep Hinv. destruct l as [i d|i|pr cr id pk|p|]; simpl in Hstep.
  - destruct (threads s !! i) as [p|] eqn:Hi; [|done].
    destruct (worker_step i d p s) as [[p' s1]|] eqn:Hw; [|done].
    injection Hstep as <-. by eapply worker_step_inv.
  - destruct (threads s !! i) as [[]|] eqn:Hi; try done.
    injection Hstep as <-. destruct Hinv as [Hsem Hgate Hcount].
    split; simpl; [done|rewrite (total_insert _ _ _ _ _ Hi); simpl; lia|].
    intros q n Hq. destruct (Hcount q n Hq) as [H0 Hle]. split; [done|].
    intros Hq1. specialize (Hle Hq1).
    rewrite (total_insert _ _ _ _ _ Hi). simpl. lia.
  - injection Hstep as <-. destruct Hinv as [Hsem Hgate Hcount].
    pose proof (add_task_frame pr cr id pk s) as (_ & Hs & _ & Hc & _ & Ht & _).
    split; rewrite ?Hs, ?Hc, ?Ht; [done|by rewrite notify_one_total|].
    intros q n Hq. rewrite notify_one_total by done. by apply Hcount.
  - injection Hstep as <-. destruct Hinv as [Hsem Hgate Hcount].
    unfold processor_repair.
    destruct (map_index false (processor_status s) p) as [[] status]; by split.
  - destruct Hinv as [Hsem Hgate Hcount]. unfold stop_step in Hstep.
    destruct (stopping s); [| |destruct (all_exited (threads s))|]; simplify_eq.
    + by split.
    + split; simpl; [done|by rewrite notify_all_total|].
      intros q n Hq. rewrite notify_all_total by done. by apply Hcount.
    + by split.
Qed.

Lemma run_inv ls s s' : run ls s = Some s' → inv s → inv s'.
Proof.
  revert s. induction ls as [|l ls IH]; intros s Hrun Hinv; simpl in Hrun.
  - by simplify_eq.
  - destruct (step l s) as [s1|] eqn:Hs; [|done]. eauto using step_inv.
Qed.

Lemma reachable_inv s : reachable s → inv s.
Proof. intros (n & ls & Hrun). eapply run_inv; [done|apply inv_init]. Qed.



Lemma executing_holds_slot p : executing p ≤ holds_slot p.
Proof. destruct p; simpl; lia. Qed.

(** The slots taken are those of the workers past the gate. *)
Lemma held_holders s : inv s → held s = total holds_slot (threads s).
Proof. intros [_ Hgate _]. unfold held. lia. Qed.


(** The task counters of the processors on which tasks run stay within
    the capacity of the gate. *)
Lemma task_count_bounded s p n :
  reachable s → p ≠ -1 → processor_task_count s !! p = Some n → 0 ≤ n ≤ capacity.
Proof.
  intros Hs Hp Hn. apply reachable_inv in Hs as [Hsem Hgate Hcount].
  destruct (Hcount p n Hn) as [H0 Hle]. specialize (Hle Hp).
  assert (total (executing_on p) (threads s) ≤ total holds_slot (threads s)) as Hle'.
  { apply total_le. intros []; simpl; try case_decide; lia. }
  lia.
Qed.

End QuantumSimulator_facts.

(** * Variant B: facts *)
Module EnergyMonitorSystem_facts.
Import EnergyMonitorSystem.

Lemma DataPacket_less_lex a b : DataPacket_less b a = true ↔ lex_gt (key a) (key b).
Proof.
  unfold DataPacket_less, lex_gt, key. simpl.
  destruct (is_critical a), (is_critical b); simpl; rewrite ?Z.gtb_gt;
    intuition (try discriminate; lia).
Qed.

Lemma DataPacket_less_irrefl a : DataPacket_less a a = false.
Proof.
  unfold DataPacket_less. rewrite eqb_reflx. simpl.
  rewrite Z.gtb_ltb. apply Z.ltb_irrefl.
Qed.

Lemma DataPacket_less_trans a b c :
  DataPacket_less a b = true → DataPacket_less b c = true → DataPacket_less a c = true.
Proof.
  unfold DataPacket_less.
  destruct (is_critical a), (is_critical b), (is_critical c); simpl;
    rewrite ?Z.gtb_gt; try done; lia.
Qed.

(** The load after a packet: the minimum of the specification. *)
Lemma next_load_min load processing_time :
  next_load load processing_time = Z.min max_load (load + processing_time ÷ 10).
Proof.
  unfold next_load. destruct (Z.gtb_spec (load + processing_time ÷ 10) max_load); lia.
Qed.

Lemma next_load_range load processing_time :
  0 ≤ load → 0 ≤ processing_time → 0 ≤ next_load load processing_time ≤ max_load.
Proof.
  intros Hl Hp. rewrite next_load_min.
  assert (0 ≤ processing_time ÷ 10) by (apply Z.quot_pos; lia).
  unfold max_load. lia.
Qed.

Lemma inv_init_server : inv init.
Proof.
  split; simpl; unfold capacity, max_additional_handlers, max_load; simpl;
    try lia; done.
Qed.

Lemma next_load_grows load processing_time :
  load ≤ max_load → 0 ≤ processing_time → load ≤ next_load load processing_time.
Proof.
  intros Hl Hp. rewrite next_load_min.
  assert (0 ≤ processing_time ÷ 10) by (apply Z.quot_pos; lia). lia.
Qed.

Lemma server_step_inv pick pt s s' : server_step pick pt s = Some s' → inv s → inv s'.
Proof.
  intros Hstep [Hsem Hgate Hadd Hload Hlocal Htime Hhigh]. unfold server_step in Hstep.
  unfold capacity, base_handlers, max_additional_handlers in *.
  destruct (server s) eqn:Hpc; simpl in *.
  6: { pose proof (Hlocal _ eq_refl) as ->.
       destruct (current_load s >? 80) eqn:Hl; simpl in Hstep;
         [destruct (additional_handlers s <? 3) eqn:Ha|]; simplify_eq;
         split; simpl; unfold capacity, base_handlers, max_additional_handlers; simpl;
         try lia; try done; try by intros ? [= <-]. }
  10: { injection Hstep as <-.
        pose proof (Hlocal _ eq_refl) as ->.
        pose proof (Htime _ _ _ eq_refl) as Ht.
        pose proof (next_load_range (current_load s) processing_time) as Hr.
        pose proof (next_load_grows (current_load s) processing_time) as Hg.
        split; simpl; unfold capacity, base_handlers, max_additional_handlers; simpl;
          try lia; try done; try by intros ? [= <-]. }
  all: step_cases Hstep.
  all: split; simpl; unfold capacity, base_handlers, max_additional_handlers; simpl.
  all: try lia.
  all: try (intros ? [= <-]; auto).
  all: try done.
  intros ? ? ? [= <- <- <-].
  apply andb_true_iff in Heqb as [?%Z.leb_le ?%Z.leb_le]. lia.
Qed.

Lemma add_data_packet_inv pr cr id s : inv s → inv (add_data_packet pr cr id s).
Proof.
  intros [Hsem Hgate Hadd Hload Hlocal Htime Hhigh]. unfold add_data_packet.
  split; simpl; try done; destruct (server s); simpl in *; try done.
Qed.

Lemma server_stop_step_inv s s' : stop_step s = Some s' → inv s → inv s'.
Proof.
  intros Hstep [Hsem Hgate Hadd Hload Hlocal Htime Hhigh]. unfold stop_step in Hstep.
  destruct (stopping s); simplify_eq.
  - by split.
  - split; simpl; try done; destruct (server s); simpl in *; try done.
  - destruct (server s) eqn:Hpc; simplify_eq. split; simpl; rewrite ?Hpc; done.
Qed.

Lemma server_system_step_inv l s s' : step l s = Some s' → inv s → inv s'.
Proof.
  intros Hstep Hinv. destruct l; simpl in Hstep.
  - by eapply server_step_inv.
  - destruct Hinv as [Hsem Hgate Hadd Hload Hlocal Htime Hhigh].
    destruct (server s) eqn:Hpc; simplify_eq.
    split; simpl; rewrite ?Hpc in *; done.
  - injection Hstep as <-. by apply add_data_packet_inv.
  - injection Hstep as <-. by destruct Hinv.
  - by eapply server_stop_step_inv.
Qed.

Lemma server_run_inv ls s s' : run ls s = Some s' → inv s → inv s'.
Proof.
  revert s. induction ls as [|l ls IH]; intros s Hrun Hinv; simpl in Hrun.
  - by simplify_eq.
  - destruct (step l s) as [s1|] eqn:Hs; [|done]. eauto using server_system_step_inv.
Qed.

Lemma server_reachable_inv s : reachable s → inv s.
Proof. intros [ls Hrun]. eapply server_run_inv; [done|apply inv_init_server]. Qed.


(** The slots taken are those of the server. *)
Lemma held_slots s : inv s → held s = slots (server s).
Proof. intros [_ Hgate _ _ _ _ _]. unfold held. lia. Qed.

Lemma slots_range p : 0 ≤ slots p ≤ 2.
Proof. destruct p; simpl; lia. Qed.

Lemma executing_slots p : executing p ≤ slots p.
Proof. destruct p; simpl; lia. Qed.


End EnergyMonitorSystem_facts.

(** * Variant A: the claims *)
Module QuantumSimulator_claims.
Import QuantumSimulator QuantumSimulator_facts QuantumSimulator_program.

Lemma random_priority_range r : 1 ≤ random_priority r ≤ 5.
Proof.
  unfold random_priority.
  pose proof (Z.mod_pos_bound (Z.of_nat r) 5). lia.
Qed.

Lemma set_processor_status_same s : set_processor_status (processor_status s) s = s.
Proof. by destruct s. Qed.

Lemma redirect_one_tasks d s :
  tasks (redirect_one d s)
  = Build_Task (random_priority (r1 d)) (random_critical (r2 d)) (next_task_id s)
    :: tasks s.
Proof.
  unfold redirect_one.
  by destruct (add_task_frame (random_priority (r1 d)) (random_critical (r2 d))
                 default_task_id (pick d) s).
Qed.

Lemma processor_failure_locked_unhealthy p s :
  processor_status s !! p = Some false →
  processor_failure_locked p s = (print (MsgAlreadyFailed p) s, None).
Proof.
  intros Hp. unfold processor_failure_locked.
  rewrite (map_index_present false _ _ _ Hp). simpl.
  by rewrite set_processor_status_same.
Qed.

Lemma processor_failure_locked_healthy p s k :
  processor_status s !! p = Some true →
  processor_task_count s !! p = Some k →
  processor_failure_locked p s
  = (set_processor_task_count (<[p:=0]> (processor_task_count s))
       (set_processor_status (<[p:=false]> (processor_status s)) s), Some k).
Proof.
  intros Hp Hk. unfold processor_failure_locked.
  rewrite (map_index_present false _ _ _ Hp). simpl.
  by rewrite (map_index_present 0 _ _ _ Hk).
Qed.

(** The threads after a step of worker [i], before its own program
    counter is updated: unchanged, or one waiter notified. *)
Lemma worker_step_threads i d p s p' s' :
  worker_step i d p s = Some (p', s') →
  threads s' = threads s ∨ ∃ pk, threads s' = notify_one pk (threads s).
Proof.
  intros Hstep.
  destruct p; simpl in Hstep.
  6: { destruct (processor_failure_locked processor_to_fail s) as [s1 r] eqn:Hf.
       pose proof (processor_failure_locked_frame _ _ _ _ Hf) as (_ & _ & Ht & _).
       destruct r; simplify_eq; by left. }
  6: { destruct (i0 <? tasks_to_redirect); simplify_eq; [|by left].
       right. exists (pick d). unfold redirect_one.
       by destruct (add_task_frame (random_priority (r1 d)) (random_critical (r2 d))
                      default_task_id (pick d) s) as (_ & _ & _ & _ & _ & ? & _). }
  6: { apply worker_step_Select_frame in Hstep as (_ & _ & _ & ? & _). by left. }
  all: step_cases Hstep; by left.
Qed.

Lemma insert_lookup_self {P : Type} (ths : list P) (i : nat) p p' :
  ths !! i = Some p → <[i:=p']> ths !! i = Some p'.
Proof. intros H. apply list_lookup_insert_eq. by eapply lookup_lt_Some. Qed.

(** Every step, by what it does to the queue. *)
Lemma step_queue_change l s s' : step l s = Some s' → queue_change l s s'.
Proof.
  intros Hstep. destruct l as [i d|i|pr cr id pk|p|]; simpl in Hstep.
  - destruct (threads s !! i) as [p|] eqn:Hi; [|done].
    destruct (worker_step i d p s) as [[p' s1]|] eqn:Hw; [|done].
    injection Hstep as <-.
    destruct p; simpl in Hw.
    6: { destruct (processor_failure_locked processor_to_fail s) as [s2 r] eqn:Hf.
         pose proof (processor_failure_locked_frame _ _ _ _ Hf) as (Ht & _).
         destruct r; simplify_eq; by apply QueueSame. }
    2: { destruct (shutdown s); [simplify_eq; by apply QueueSame|].
         destruct (tasks s) as [|t0 q] eqn:Hq; [simplify_eq; by apply QueueSame|].
         destruct (pq_pop_at Task_less (pick d) (t0 :: q)) as [[t q']|] eqn:Hpop; [|done].
         injection Hw as <- <-.
         apply (QueuePop _ _ _ i d t); simpl; try done.
         + by eapply insert_lookup_self.
         + rewrite Hq. by exists (pick d). }
    5: { destruct (i0 <? tasks_to_redirect) eqn:Hlt; simplify_eq; [|by apply QueueSame].
         apply (QueueRedirect _ _ _ i d current_task i0 tasks_to_redirect); try done.
         by apply Z.ltb_lt. }
    5: { apply worker_step_Select_frame in Hw as (? & _). by apply QueueSame. }
    5: { injection Hw as <- <-. by apply (QueueRequeue _ _ _ i d current_task). }
    all: step_cases Hw; by apply QueueSame.
  - destruct (threads s !! i) as [[]|]; simplify_eq. by apply QueueSame.
  - injection Hstep as <-. apply (QueueSubmit _ _ _ pr cr id pk); [done|].
    by destruct (add_task_frame pr cr id pk s).
  - injection Hstep as <-. apply QueueSame. unfold processor_repair.
    by destruct (map_index false (processor_status s) p) as [[] ?].
  - unfold stop_step in Hstep.
    destruct (stopping s); [| |destruct (all_exited (threads s))|]; simplify_eq;
      by apply QueueSame.
Qed.

(** The number of threads is that of the start. *)
Lemma wake_nth_length n ths : length (wake_nth n ths) = length ths.
Proof.
  revert n. induction ths as [|[] ths IH]; intros n; simpl; rewrite ?IH; try done.
  destruct n; simpl; by rewrite ?IH.
Qed.

(** The program counter of worker [i] after its own step. *)
Lemma step_own_pc i d s p p' s1 :
  threads s !! i = Some p → worker_step i d p s = Some (p', s1) →
  <[i:=p']> (threads s1) !! i = Some p'.
Proof.
  intros Hi Hw. apply list_lookup_insert_eq.
  destruct (worker_step_threads _ _ _ _ _ _ Hw) as [->|[pk ->]].
  - by eapply lookup_lt_Some.
  - unfold notify_one. rewrite wake_nth_length. by eapply lookup_lt_Some.
Qed.

(** A step of another thread leaves a worker where it is, unless it
    wakes it from the queue wait. *)
Lemma step_keeps_others l s s' (i : nat) p :
  step l s = Some s' → threads s !! i = Some p → p ≠ QueueWait →
  (∀ d, l ≠ Worker i d) → threads s' !! i = Some p.
Proof.
  intros Hstep Hi Hp Hl. destruct l as [j d|j|pr cr id pk|q|]; simpl in Hstep.
  - destruct (threads s !! j) as [pj|] eqn:Hj; [|done].
    destruct (worker_step j d pj s) as [[pj' s1]|] eqn:Hw; [|done].
    injection Hstep as <-. simpl.
    assert (j ≠ i) as Hji by (intros ->; by apply (Hl d)).
    rewrite list_lookup_insert_ne by done.
    destruct (worker_step_threads _ _ _ _ _ _ Hw) as [->|[pk ->]]; [done|].
    by apply notify_one_lookup.
  - destruct (threads s !! j) as [[]|] eqn:Hj; simplify_eq. simpl.
    destruct (decide (j = i)) as [->|Hji]; [by simplify_eq|].
    by rewrite list_lookup_insert_ne.
  - injection Hstep as <-.
    destruct (add_task_frame pr cr id pk s) as (_ & _ & _ & _ & _ & -> & _).
    by apply notify_one_lookup.
  - injection Hstep as <-. unfold processor_repair.
    by destruct (map_index false (processor_status s) q) as [[] ?].
  - unfold stop_step in Hstep.
    destruct (stopping s); [| |destruct (all_exited (threads s))|]; simplify_eq;
      simpl; try done.
    unfold notify_all. rewrite list_lookup_fmap, Hi. by destruct p.
Qed.



(** A worker's step touches neither the flag nor [stop]. *)
Lemma worker_step_flags i d p s p' s' :
  worker_step i d p s = Some (p', s') →
  shutdown s' = shutdown s ∧ stopping s' = stopping s.
Proof.
  intros Hstep. destruct p; simpl in Hstep.
  6: { destruct (processor_failure_locked processor_to_fail s) as [s1 r] eqn:Hf.
       pose proof (processor_failure_locked_frame _ _ _ _ Hf) as (_ & _ & _ & H1 & _ & H2).
       by destruct r; simplify_eq. }
  6: { destruct (i0 <? tasks_to_redirect); simplify_eq; [|done].
       unfold redirect_one.
       by destruct (add_task_frame (random_priority (r1 d)) (random_critical (r2 d))
                      default_task_id (pick d) s) as (_ & _ & _ & _ & ? & _ & _ & ? & _). }
  6: { by apply worker_step_Select_frame in Hstep as (_ & _ & _ & _ & ? & _ & ? & _). }
  all: by step_cases Hstep.
Qed.

(** A worker blocks in the queue wait only while the flag is down. *)
Lemma worker_step_blocks i d p s s' :
  worker_step i d p s = Some (QueueWait, s') → shutdown s = false ∧ p = QueueCheck.
Proof.
  intros Hstep. destruct p; simpl in Hstep.
  8: { by apply worker_step_Select_frame in Hstep
         as (_ & _ & _ & _ & _ & _ & _ & [[=]|(? & [=] & _)]). }
  all: by step_cases Hstep.
Qed.

Lemma elem_of_notify_one pk ths p : p ∈ notify_one pk ths → p ∈ ths ∨ p = QueueCheck.
Proof.
  intros [i Hi]%list_elem_of_lookup.
  apply notify_one_lookup_inv in Hi as [Hi|[-> _]]; [|by right].
  left. by eapply list_elem_of_lookup_2.
Qed.

Lemma stop_inv_init n : stop_inv (init_with n).
Proof. split; simpl; [done|]. by intros [|]. Qed.

Lemma step_stop_inv l s s' : step l s = Some s' → stop_inv s → stop_inv s'.
Proof.
  intros Hstep [Hflag Hwoken]. destruct l as [i d|i|pr cr id pk|p|]; simpl in Hstep.
  - destruct (threads s !! i) as [p|] eqn:Hi; [|done].
    destruct (worker_step i d p s) as [[p' s1]|] eqn:Hw; [|done].
    injection Hstep as <-.
    destruct (worker_step_flags _ _ _ _ _ _ Hw) as [Hsh Hst].
    split; simpl; rewrite ?Hsh, ?Hst; [done|].
    intros Hj q Hq. simpl in Hq. apply elem_of_insert_inv in Hq as [->|Hq].
    + intros ->. apply worker_step_blocks in Hw as [Hw _].
      rewrite Hflag in Hw; [done|]. by destruct Hj as [-> | ->].
    + destruct (worker_step_threads _ _ _ _ _ _ Hw) as [Ht|[pk Ht]]; rewrite Ht in Hq.
      * by apply Hwoken.
      * apply elem_of_notify_one in Hq as [Hq| ->]; [by apply Hwoken|done].
  - destruct (threads s !! i) as [[]|] eqn:Hi; simplify_eq.
    split; simpl; [done|]. intros Hj q Hq. simpl in Hq.
    apply elem_of_insert_inv in Hq as [->|Hq]; [done|by apply Hwoken].
  - injection Hstep as <-.
    destruct (add_task_frame pr cr id pk s) as (_ & _ & _ & _ & Hsh & Ht & _ & Hst & _).
    split; rewrite ?Hsh, ?Hst; [done|].
    intros Hj q Hq. unfold no_queue_waiter in *. rewrite Ht in Hq.
    apply elem_of_notify_one in Hq as [Hq| ->]; [by apply Hwoken|done].
  - injection Hstep as <-. unfold processor_repair.
    destruct (map_index false (processor_status s) p) as [[] ?]; by split.
  - unfold stop_step in Hstep.
    destruct (stopping s) eqn:Hst; [| |destruct (all_exited (threads s))|]; simplify_eq.
    + split; simpl; [done|]. by intros [|].
    + split; simpl; [intros _; by apply Hflag|].
      intros _ q Hq. simpl in Hq. unfold notify_all in Hq.
      apply list_elem_of_fmap in Hq as (q0 & -> & _). by destruct q0.
    + split; simpl; [intros _; by apply Hflag|].
      intros _. apply Hwoken. by left.
Qed.

Lemma reachable_stop_inv s : reachable s → stop_inv s.
Proof.
  intros (n & ls & Hrun). revert Hrun. generalize (stop_inv_init n).
  generalize (init_with n). induction ls as [|l ls IH]; intros s0 H0 Hrun; simpl in Hrun.
  - by simplify_eq.
  - destruct (step l s0) as [s1|] eqn:Hs; [|done]. eauto using step_stop_inv.
Qed.

(** *** The redirection of a failed processor's tasks *)

(** While a worker runs the loop of [processor_failure], its loop
    variable counts its own actions, whatever the other threads do in
    between. *)
Lemma redirecting_progress ls : ∀ s s' (i : nat) t j k,
  run ls s = Some s' → threads s !! i = Some (Redirecting t j k) →
  j + Z.of_nat (worker_actions i ls) ≤ k →
  threads s' !! i = Some (Redirecting t (j + Z.of_nat (worker_actions i ls)) k).
Proof.
  induction ls as [|l ls IH]; intros s s' i t j k Hrun Hi Hle; simpl in Hrun.
  - simplify_eq. simpl. by rewrite Z.add_0_r.
  - destruct (step l s) as [s1|] eqn:Hs; [|done].
    destruct l as [j0 d|j0|pr cr id pk|q|].
    1: destruct (decide (j0 = i)) as [->|Hji].
    + simpl in Hle. rewrite decide_True in Hle by done.
      simpl. rewrite decide_True by done.
      assert ((j <? k) = true) as Hlt by (apply Z.ltb_lt; lia).
      assert (worker_step i d (Redirecting t j k) s
              = Some (Redirecting t (j + 1) k, redirect_one d s)) as Hw.
      { simpl. by rewrite Hlt. }
      cbn [step] in Hs. rewrite Hi, Hw in Hs. injection Hs as <-.
      rewrite (IH _ s' i t (j + 1) k Hrun).
      * f_equal. f_equal. lia.
      * exact (step_own_pc _ _ _ _ _ _ Hi Hw).
      * lia.
    + simpl in Hle. rewrite decide_False in Hle by done.
      simpl. rewrite decide_False by done. simpl.
      apply (IH s1); [done| |done].
      apply (step_keeps_others _ _ _ _ _ Hs Hi); [done|]. intros d0 [= ? _]. done.
    + cbn [worker_actions] in Hle |- *. apply (IH s1); [done| |done].
      by apply (step_keeps_others _ _ _ _ _ Hs Hi).
    + cbn [worker_actions] in Hle |- *. apply (IH s1); [done| |done].
      by apply (step_keeps_others _ _ _ _ _ Hs Hi).
    + cbn [worker_actions] in Hle |- *. apply (IH s1); [done| |done].
      by apply (step_keeps_others _ _ _ _ _ Hs Hi).
    + cbn [worker_actions] in Hle |- *. apply (IH s1); [done| |done].
      by apply (step_keeps_others _ _ _ _ _ Hs Hi).
Qed.

(** C4, as the code has it.  [processor_failure] hands nothing back:
    it is [void].  On a processor that is already down it prints its
    message, changes nothing else and returns.  On a healthy processor
    whose count is [k] it marks the processor down and sets the count to
    0 in one critical section, keeps [k] in a local variable, and then
    runs the loop itself: [k] calls of [add_task], each pushing one task
    with the priority [1 + rand() % 5], the flag [rand() % 10 == 0] and
    the next automatic id, and touching neither the processors nor the
    gate.  Every priority of 1..5 and either flag can be drawn.  The
    calls are separate actions: after [n] actions of its own, with any
    actions of other threads in between, the worker is in iteration
    [n] of the loop, and it leaves the loop after [k] pushes. *)
Theorem processor_failure_redirects :
  (∀ i d t p s,
      processor_status s !! p = Some false →
      processor_failure_locked p s = (print (MsgAlreadyFailed p) s, None) ∧
      worker_step i d (Failing t p) s
      = Some (Select t, print (MsgAlreadyFailed p) s)) ∧
  (∀ i d t p s k,
      processor_status s !! p = Some true →
      processor_task_count s !! p = Some k →
      worker_step i d (Failing t p) s
      = Some (Redirecting t 0 k,
              print (MsgFailed p k)
                (set_processor_task_count (<[p:=0]> (processor_task_count s))
                   (set_processor_status (<[p:=false]> (processor_status s)) s)))) ∧
  (∀ i d t j k s,
      j < k →
      ∃ s', worker_step i d (Redirecting t j k) s = Some (Redirecting t (j + 1) k, s') ∧
            tasks s'
            = Build_Task (1 + Z.of_nat (r1 d) mod 5) (Z.of_nat (r2 d) mod 10 =? 0)
                (next_task_id s) :: tasks s ∧
            next_task_id s' = wrap32 (next_task_id s + 1) ∧
            processor_status s' = processor_status s ∧
            processor_task_count s' = processor_task_count s ∧
            task_semaphore s' = task_semaphore s) ∧
  (∀ i d t j k s,
      k ≤ j → worker_step i d (Redirecting t j k) s = Some (Select t, s)) ∧
  (∀ i t j k s v b,
      j < k → 1 ≤ v ≤ 5 →
      ∃ d s', worker_step i d (Redirecting t j k) s = Some (Redirecting t (j + 1) k, s') ∧
              tasks s' = Build_Task v b (next_task_id s) :: tasks s) ∧
  (∀ ls s s' (i : nat) t j k,
      run ls s = Some s' → threads s !! i = Some (Redirecting t j k) →
      j + Z.of_nat (worker_actions i ls) ≤ k →
      threads s' !! i = Some (Redirecting t (j + Z.of_nat (worker_actions i ls)) k)).
Proof.
  split.
  { intros i d t p s Hp. split; [by apply processor_failure_locked_unhealthy|].
    simpl. by rewrite processor_failure_locked_unhealthy. }
  split.
  { intros i d t p s k Hp Hk. simpl.
    by rewrite (processor_failure_locked_healthy p s k Hp Hk). }
  split.
  { intros i d t j k s Hlt. exists (redirect_one d s). split.
    { simpl. apply Z.ltb_lt in Hlt. by rewrite Hlt. }
    unfold redirect_one.
    destruct (add_task_frame (random_priority (r1 d)) (random_critical (r2 d))
                default_task_id (pick d) s) as (Ht & Hg & Hs & Hc & _ & _ & Hn & _).
    by rewrite Ht, Hg, Hs, Hc, Hn. }
  split.
  { intros i d t j k s Hle. simpl. apply Z.ltb_ge in Hle. by rewrite Hle. }
  split.
  { intros i t j k s v b Hlt Hv.
    exists (Draws false (Z.to_nat (v - 1)) (if b then 0 else 1) 0), 
      (redirect_one (Draws false (Z.to_nat (v - 1)) (if b then 0 else 1) 0) s).
    split.
    { simpl. apply Z.ltb_lt in Hlt. by rewrite Hlt. }
    rewrite redirect_one_tasks. unfold random_priority, random_critical.
    cbn [r1 r2]. rewrite Z2Nat.id by lia. rewrite Z.mod_small by lia.
    f_equal. f_equal; [lia|by destruct b]. }
  intros ls. apply redirecting_progress.
Qed.

(** In [collision_run] processor 0 fails while one task runs on it:
    the failing worker pushes one task and then leaves the loop,
    although another thread acts in between. *)
Lemma processor_failure_redirects_witness :
  ∃ s s', run (take 13 collision_run) init = Some s ∧
          threads s !! 1%nat = Some (Redirecting (Build_Task 1 false 2) 0 1) ∧
          run [Worker 2 tails; Worker 1 tails; Worker 2 tails] s = Some s' ∧
          threads s' !! 1%nat = Some (Redirecting (Build_Task 1 false 2) 1 1) ∧
          worker_step 1 tails (Redirecting (Build_Task 1 false 2) 1 1) s'
          = Some (Select (Build_Task 1 false 2), s').
Proof.
  eexists _, _. split; [vm_compute; reflexivity|].
  split; [vm_compute; reflexivity|].
  match goal with
  | |- run ?ls ?s = Some ?s' ∧ _ =>
      assert (Hs : run ls s = Some s') by (vm_compute; reflexivity)
  end.
  split; [exact Hs|]. split.
  - apply (proj2 (proj2 (proj2 (proj2 (proj2 processor_failure_redirects))))
             _ _ _ 1%nat (Build_Task 1 false 2) 0 1 Hs).
    + vm_compute. reflexivity.
    + vm_compute. discriminate.
  - apply (proj1 (proj2 (proj2 (proj2 processor_failure_redirects)))). lia.
Defined.

(** Two calls, one on a processor that counts a task and one on a
    processor that counts none.  When the call has ended the
    replacement task of the first is in the queue already, pushed by
    the call itself, and in both cases the caller stands at the choice
    of a processor, holding its task and nothing else. *)
Lemma processor_failure_returns_no_count :
  ∃ s1 s2 s1' s2',
    run (take 12 collision_run) init = Some s1 ∧
    run (take 12 idle_failure_run) init = Some s2 ∧
    threads s1 !! 1%nat = Some (Failing (Build_Task 1 false 2) 0) ∧
    threads s2 !! 1%nat = Some (Failing (Build_Task 1 false 2) 1) ∧
    (processor_failure_locked 0 s1).2 = Some 1 ∧
    (processor_failure_locked 1 s2).2 = Some 0 ∧
    run [Worker 1 tails; Worker 1 tails; Worker 1 tails] s1 = Some s1' ∧
    run [Worker 1 tails; Worker 1 tails] s2 = Some s2' ∧
    threads s1' !! 1%nat = Some (Select (Build_Task 1 false 2)) ∧
    threads s2' !! 1%nat = Some (Select (Build_Task 1 false 2)) ∧
    tasks s1' = Build_Task 1 true 1 :: tasks s1 ∧
    tasks s2' = tasks s2.
Proof.
  eexists _, _, _, _. split; [vm_compute; reflexivity|].
  split; [vm_compute; reflexivity|]. split; [vm_compute; reflexivity|].
  split; [vm_compute; reflexivity|].
  split; [vm_compute; reflexivity|]. split; [vm_compute; reflexivity|].
  split; [vm_compute; reflexivity|]. split; [vm_compute; reflexivity|].
  split; [vm_compute; reflexivity|]. split; [vm_compute; reflexivity|].
  split; vm_compute; reflexivity.
Qed.

(** *** The requeue *)



(** C10. Ids are not kept unique.  The automatic counter starts at 1,
    and a submission with an explicit id leaves it where it is; so after
    a caller has submitted a task with id 1, the first task that
    [add_task] numbers itself gets id 1 as well.  In [collision_run]
    this second task is the replacement pushed by [processor_failure],
    and the queue then holds two different tasks with id 1. *)
Theorem task_ids_collide :
  next_task_id init = 1 ∧
  (∀ pr cr id pk s,
      id ≠ -1 →
      next_task_id (add_task pr cr id pk s) = next_task_id s ∧
      tasks (add_task pr cr id pk s) = Build_Task pr cr id :: tasks s) ∧
  (∀ pr cr pk s,
      tasks (add_task pr cr default_task_id pk s)
      = Build_Task pr cr (next_task_id s) :: tasks s) ∧
  (∀ pr1 cr1 pr2 cr2,
      tasks (add_task pr2 cr2 default_task_id 0 (add_task pr1 cr1 1 0 init))
      = [Build_Task pr2 cr2 1; Build_Task pr1 cr1 1]) ∧
  (∃ s, run collision_run init = Some s ∧
        tasks s = [Build_Task 1 true 1; Build_Task 5 false 1] ∧
        threads s !! 1%nat = Some (Redirecting (Build_Task 1 false 2) 1 1)).
Proof.
  split; [done|]. split.
  { intros pr cr id pk s Hid.
    destruct (add_task_frame pr cr id pk s) as (Ht & _ & _ & _ & _ & _ & Hn & _).
    rewrite Ht, Hn. apply Z.eqb_neq in Hid. by rewrite Hid. }
  split.
  { intros pr cr pk s. by destruct (add_task_frame pr cr default_task_id pk s). }
  split; [done|].
  eexists. split; [vm_compute; reflexivity|]. split; reflexivity.
Qed.

(** The caller's id 1 is taken as it is and the counter stays at 1. *)
Lemma task_ids_collide_witness :
  next_task_id (add_task 5 false 1 0 init) = next_task_id init ∧
  tasks (add_task 5 false 1 0 init) = Build_Task 5 false 1 :: tasks init.
Proof. apply (proj1 (proj2 task_ids_collide) 5 false 1 0%nat init). lia. Defined.

End QuantumSimulator_claims.




(** * Variant B: the claims *)
Module EnergyMonitorSystem_claims.
Import EnergyMonitorSystem EnergyMonitorSystem_facts.

Lemma run_cons l ls s s1 : step l s = Some s1 → run (l :: ls) s = run ls s1.
Proof. intros H. simpl. by rewrite H. Qed.

(** A step leaves the number of additional handlers as it is, unless it
    is the test that adds one or the test that removes one. *)
Lemma step_additional l s s' :
  step l s = Some s' →
  additional_handlers s' = additional_handlers s ∨
  (∃ pick pt packet load,
      l = Server pick pt ∧ server s = GrowCheck packet load ∧
      load > 80 ∧ additional_handlers s < 3 ∧
      server s' = GrowPost packet load ∧
      additional_handlers s' = additional_handlers s + 1) ∨
  (∃ pick pt packet new_load,
      l = Server pick pt ∧ server s = ShrinkCheck packet new_load ∧
      new_load < 50 ∧ additional_handlers s > 0 ∧
      server s' = ShrinkWait packet new_load ∧
      additional_handlers s' = additional_handlers s - 1).
Proof.
  intros Hstep. destruct l as [pick pt| | | |]; simpl in Hstep.
  - unfold server_step in Hstep.
    destruct (server s) eqn:Hpc.
    6: { destruct (load >? 80) eqn:Hl; simpl in Hstep;
           [destruct (additional_handlers s <? max_additional_handlers) eqn:Ha|];
           simplify_eq; [|by left..].
         right. left. exists pick, pt, packet, load.
         apply Z.ltb_lt in Ha. unfold max_additional_handlers in Ha.
         pose proof (Zgt_is_gt_bool load 80) as [_ Hgt]. specialize (Hgt Hl).
         by repeat split. }
    11: { destruct (new_load <? 50) eqn:Hl; simpl in Hstep;
            [destruct (additional_handlers s >? 0) eqn:Ha|];
            simplify_eq; [|by left..].
          right. right. exists pick, pt, packet, new_load.
          apply Z.ltb_lt in Hl.
          pose proof (Zgt_is_gt_bool (additional_handlers s) 0) as [_ Hgt].
          specialize (Hgt Ha). by repeat split. }
    all: step_cases Hstep; by left.
  - destruct (server s); simplify_eq; by left.
  - injection Hstep as <-. by left.
  - injection Hstep as <-. by left.
  - unfold stop_step in Hstep.
    destruct (stopping s); [| |destruct (server s)|]; simplify_eq; by left.
Qed.

(** Only the store after processing changes the load. *)
Lemma step_current_load l s s' :
  step l s = Some s' → current_load s' ≠ current_load s →
  ∃ pick pt packet load t, l = Server pick pt ∧ server s = Sleeping packet load t.
Proof.
  intros Hstep Hne. destruct l as [pick pt| | | |]; simpl in Hstep.
  - unfold server_step in Hstep.
    destruct (server s) eqn:Hpc.
    11: { by exists pick, pt, packet, load, processing_time. }
    all: step_cases Hstep; done.
  - destruct (server s); by simplify_eq.
  - by injection Hstep as <-.
  - by injection Hstep as <-.
  - unfold stop_step in Hstep.
    destruct (stopping s); [| |destruct (server s)|]; by simplify_eq.
Qed.

(** No step clears the emergency mode. *)
Lemma step_emergency_latch l s s' :
  step l s = Some s' → emergency_mode s = true → emergency_mode s' = true.
Proof.
  intros Hstep He. destruct l as [pick pt| | | |]; simpl in Hstep.
  - unfold server_step in Hstep.
    destruct (server s) eqn:Hpc; step_cases Hstep; done.
  - destruct (server s); by simplify_eq.
  - by injection Hstep as <-.
  - by injection Hstep as <-.
  - unfold stop_step in Hstep.
    destruct (stopping s); [| |destruct (server s)|]; by simplify_eq.
Qed.

(** Execution is entered only from the test of the emergency mode, and
    during an emergency never with a non-critical packet of priority
    above 3. *)
Lemma step_enters_execution l s s' :
  step l s = Some s' → executing (server s) = 0 → executing (server s') = 1 →
  ∃ packet load,
    server s = EmergencyCheck packet load ∧ server s' = Process packet load ∧
    (emergency_mode s = true → is_critical packet = true ∨ priority packet ≤ 3).
Proof.
  intros Hstep H0 H1. destruct l as [pick pt| | | |]; simpl in Hstep.
  - unfold server_step in Hstep.
    destruct (server s) eqn:Hpc.
    8: { exists packet, load. split; [done|].
         pose proof (Zgt_cases (priority packet) 3) as Hle.
         destruct (emergency_mode s) eqn:He.
         - destruct (priority packet >? 3) eqn:Hp;
             destruct (is_critical packet) eqn:Hc; simpl in Hstep; simplify_eq;
             simpl in H1; try done; (split; [done|intros _; auto]).
         - simplify_eq. by split. }
    all: step_cases Hstep; simpl in *; done.
  - destruct (server s); by simplify_eq.
  - injection Hstep as <-. simpl in H1. by destruct (server s).
  - injection Hstep as <-. simpl in H1. lia.
  - unfold stop_step in Hstep.
    destruct (stopping s); [| |destruct (server s) eqn:Hpc|]; simplify_eq; simpl in *;
      try lia.
    + by destruct (server s).
    + rewrite Hpc in H1. simpl in H1. lia.
Qed.

Lemma emergency_check_critical pick pt s packet load :
  server s = EmergencyCheck packet load → is_critical packet = true →
  ∃ s', step (Server pick pt) s = Some s' ∧ server s' = Process packet load ∧
        data_packets s' = data_packets s.
Proof.
  intros Hpc Hc. simpl. unfold server_step. rewrite Hpc, Hc.
  destruct (emergency_mode s), (priority packet >? 3); simpl; by eexists.
Qed.

Lemma grow_check_next pick pt s packet load :
  server s = GrowCheck packet load →
  ∃ s', step (Server pick pt) s = Some s' ∧
        (server s' = EmergencyCheck packet load ∨ server s' = GrowPost packet load).
Proof.
  intros Hpc. simpl. unfold server_step. rewrite Hpc.
  destruct ((load >? 80) && (additional_handlers s <? max_additional_handlers));
    eexists; (split; [done|]); simpl; auto.
Qed.

Lemma grow_post_next pick pt s packet load :
  server s = GrowPost packet load →
  ∃ s', step (Server pick pt) s = Some s' ∧
        data_semaphore s' = data_semaphore s + 1 ∧
        server s' = EmergencyCheck packet load.
Proof. intros Hpc. simpl. unfold server_step. rewrite Hpc. eexists. by split. Qed.

(** Once the server has taken a critical packet from the queue it takes
    it into processing, whatever the priority and the mode: the gate has
    a free slot, and the test of the emergency mode lets it pass. *)
Lemma critical_reaches_processing s packet :
  inv s → server s = GateWait packet → is_critical packet = true →
  ∃ (n : nat) s' load,
    (n ≤ 5)%nat ∧ (run (replicate n (Server 0 100)) s = Some s' ∧
    server s' = Process packet load).
Proof.
  intros [_ Hgate Hadd _ _ _ _] Hpc Hc.
  assert (step (Server 0 100) s
          = Some (set_server (ReadLoad packet)
                    (set_data_semaphore (data_semaphore s - 1) s))) as H1.
  { simpl. unfold server_step. rewrite Hpc.
    rewrite Hpc in Hgate. simpl in Hgate. unfold capacity, base_handlers in Hgate.
    assert ((0 <? data_semaphore s) = true) as -> by (apply Z.ltb_lt; lia). done. }
  set (s1 := set_server (ReadLoad packet) _) in H1.
  assert (step (Server 0 100) s1
          = Some (set_server (GrowCheck packet (current_load s1)) s1)) as H2 by done.
  set (s2 := set_server (GrowCheck packet _) s1) in H2.
  destruct (grow_check_next 0 100 s2 packet (current_load s1) eq_refl)
    as (s3 & H3 & [P3|P3]).
  - destruct (emergency_check_critical 0 100 s3 packet _ P3 Hc) as (s4 & H4 & P4 & _).
    exists 4%nat, s4, (current_load s1). split; [lia|]. split; [|done].
    cbn [replicate].
    by rewrite (run_cons _ _ _ _ H1), (run_cons _ _ _ _ H2), (run_cons _ _ _ _ H3),
      (run_cons _ _ _ _ H4).
  - destruct (grow_post_next 0 100 s3 packet _ P3) as (s4 & H4 & _ & P4).
    destruct (emergency_check_critical 0 100 s4 packet _ P4 Hc) as (s5 & H5 & P5 & _).
    exists 5%nat, s5, (current_load s1). split; [lia|]. split; [|done].
    cbn [replicate].
    by rewrite (run_cons _ _ _ _ H1), (run_cons _ _ _ _ H2), (run_cons _ _ _ _ H3),
      (run_cons _ _ _ _ H4), (run_cons _ _ _ _ H5).
Qed.

(** The server's step touches neither the flag nor [stop], and the
    server blocks in the queue wait only while the flag is down. *)
Lemma server_step_flags pick pt s s' :
  server_step pick pt s = Some s' →
  shutdown s' = shutdown s ∧ stopping s' = stopping s ∧
  (server s' = QueueWait → shutdown s = false ∧ server s = QueueCheck).
Proof.
  intros Hstep. unfold server_step in Hstep.
  destruct (server s) eqn:Hpc; step_cases Hstep; simpl; repeat split; try done.
Qed.

Lemma server_stop_inv_init : stop_inv init.
Proof. split; simpl; [done|]. by intros [|]. Qed.

Lemma server_step_stop_inv l s s' : step l s = Some s' → stop_inv s → stop_inv s'.
Proof.
  intros Hstep [Hflag Hwoken]. destruct l as [pick pt| | | |]; simpl in Hstep.
  - destruct (server_step_flags _ _ _ _ Hstep) as (Hsh & Hst & Hblock).
    split; rewrite ?Hsh, ?Hst; [done|].
    intros Hj Hq. destruct (Hblock Hq) as [Hdown _].
    rewrite Hflag in Hdown; [done|]. by destruct Hj as [-> | ->].
  - destruct (server s) eqn:Hpc; simplify_eq. by split.
  - injection Hstep as <-. split; simpl; [done|].
    intros Hj. specialize (Hwoken Hj). by destruct (server s).
  - injection Hstep as <-. by split.
  - unfold stop_step in Hstep.
    destruct (stopping s) eqn:Hst; [| |destruct (server s) eqn:Hpc|]; simplify_eq.
    + split; simpl; [done|]. by intros [|].
    + split; simpl; [intros _; by apply Hflag|]. intros _. by destruct (server s).
    + split; simpl; [intros _; by apply Hflag|]. intros _. by rewrite Hpc.
Qed.

Lemma server_reachable_stop_inv s : reachable s → stop_inv s.
Proof.
  intros [ls Hrun]. revert Hrun. generalize server_stop_inv_init.
  generalize init. induction ls as [|l ls IH]; intros s0 H0 Hrun; simpl in Hrun.
  - by simplify_eq.
  - destruct (step l s0) as [s1|] eqn:Hs; [|done]. eauto using server_step_stop_inv.
Qed.

(** C3. The emergency mode, once set, stays set.  While it is set the
    server enters processing only with a packet that is critical or has
    priority at most 3: a non-critical packet of priority above 3 is
    dropped at the test, after the gate, and the drop gives the slot
    back and goes to the next packet without touching the load.  A
    critical packet passes the test in either mode, and once taken from
    the queue it reaches processing. *)
Theorem emergency_shedding :
  (∀ l s s', step l s = Some s' → emergency_mode s = true → emergency_mode s' = true) ∧
  (∀ l s s',
      step l s = Some s' → executing (server s) = 0 → executing (server s') = 1 →
      ∃ packet load,
        server s = EmergencyCheck packet load ∧ server s' = Process packet load ∧
        (emergency_mode s = true → is_critical packet = true ∨ priority packet ≤ 3)) ∧
  (∀ pick pt s packet load,
      server s = EmergencyCheck packet load → emergency_mode s = true →
      priority packet > 3 → is_critical packet = false →
      server_step pick pt s
      = Some (set_server (DropPost packet) (print (MsgDropped packet) s))) ∧
  (∀ pick pt s packet,
      server s = DropPost packet →
      server_step pick pt s
      = Some (set_server LoopTest (set_data_semaphore (data_semaphore s + 1) s))) ∧
  (∀ pick pt s packet load,
      server s = EmergencyCheck packet load → is_critical packet = true →
      ∃ s', step (Server pick pt) s = Some s' ∧ server s' = Process packet load ∧
            data_packets s' = data_packets s) ∧
  (∀ s packet,
      reachable s → server s = GateWait packet → is_critical packet = true →
      ∃ (n : nat) s' load,
        (n ≤ 5)%nat ∧ (run (replicate n (Server 0 100)) s = Some s' ∧
        server s' = Process packet load)).
Proof.
  split; [exact step_emergency_latch|].
  split; [exact step_enters_execution|].
  split.
  { intros pick pt s packet load Hpc He Hp Hc. unfold server_step.
    rewrite Hpc, He, Hc. simpl.
    pose proof (Zgt_is_gt_bool (priority packet) 3) as [Hgt _].
    by rewrite (Hgt Hp). }
  split.
  { intros pick pt s packet Hpc. unfold server_step. by rewrite Hpc. }
  split; [exact emergency_check_critical|].
  intros s packet Hs. apply critical_reaches_processing.
  by apply server_reachable_inv.
Qed.

(** In [shedding_run] the packet of priority 5 is dropped at the test. *)
Lemma emergency_shedding_witness :
  ∃ s packet load,
    run (take 7 shedding_run) init = Some s ∧
    server s = EmergencyCheck packet load ∧
    (priority packet, is_critical packet) = (5, false) ∧
    server_step 0 100 s
    = Some (set_server (DropPost packet) (print (MsgDropped packet) s)).
Proof.
  eexists _, _, _. split; [vm_compute; reflexivity|].
  split; [vm_compute; reflexivity|]. split; [reflexivity|].
  apply (proj1 (proj2 (proj2 emergency_shedding))) with (load := 0).
  - vm_compute. reflexivity.
  - vm_compute. reflexivity.
  - vm_compute. reflexivity.
  - vm_compute. reflexivity.
Defined.

(** The load never goes down and a handler is added only above 80, so
    the test that removes a handler never succeeds in a reachable
    state. *)
Lemma shrink_never_due s packet new_load :
  reachable s → server s = ShrinkCheck packet new_load →
  (new_load <? 50) && (additional_handlers s >? 0) = false.
Proof.
  intros Hs Hpc. destruct (server_reachable_inv s Hs) as [_ _ _ _ Hlocal _ Hhigh].
  rewrite Hpc in Hlocal. specialize (Hlocal new_load eq_refl). subst new_load.
  destruct (current_load s <? 50) eqn:Hl; [|done]. simpl.
  pose proof (Zgt_cases (additional_handlers s) 0) as Hc.
  destruct (additional_handlers s >? 0); [|done].
  apply Z.ltb_lt in Hl. lia.
Qed.

(** C7. The shared load stays in [0, 100]; it changes only when the
    server has processed a packet, and then becomes the minimum of 100
    and the load plus a tenth of the processing time.  An additional
    handler is added exactly at the test of the load read before
    processing, when that load is above 80 and fewer than 3 additional
    handlers are active, and the next action of the server posts the
    semaphore once; one is removed exactly at the test of the new load,
    when it is below 50 and an additional handler is active. *)
Theorem load_and_capacity :
  (∀ s, reachable s → 0 ≤ current_load s ≤ 100) ∧
  (∀ s l, reachable s → local_load (server s) = Some l → l = current_load s) ∧
  (∀ pick pt s packet load t,
      reachable s → server s = Sleeping packet load t →
      ∃ s', server_step pick pt s = Some s' ∧
            current_load s' = Z.min 100 (current_load s + t ÷ 10) ∧
            server s' = ShrinkCheck packet (current_load s')) ∧
  (∀ l s s',
      step l s = Some s' → current_load s' ≠ current_load s →
      ∃ pick pt packet load t, l = Server pick pt ∧ server s = Sleeping packet load t) ∧
  (∀ l s s',
      step l s = Some s' →
      (additional_handlers s' = additional_handlers s + 1
       ↔ ∃ pick pt packet load,
           l = Server pick pt ∧ server s = GrowCheck packet load ∧
           load > 80 ∧ additional_handlers s < 3) ∧
      (additional_handlers s' = additional_handlers s - 1
       ↔ ∃ pick pt packet new_load,
           l = Server pick pt ∧ server s = ShrinkCheck packet new_load ∧
           new_load < 50 ∧ additional_handlers s > 0) ∧
      (additional_handlers s' = additional_handlers s + 1 →
       ∃ packet load, server s' = GrowPost packet load)) ∧
  (∀ pick pt s packet load,
      server s = GrowPost packet load →
      ∃ s', step (Server pick pt) s = Some s' ∧
            data_semaphore s' = data_semaphore s + 1 ∧
            server s' = EmergencyCheck packet load).
Proof.
  split.
  { intros s Hs. by destruct (server_reachable_inv s Hs). }
  split.
  { intros s l Hs Hl. destruct (server_reachable_inv s Hs) as [_ _ _ _ Hlocal _ _].
    by apply Hlocal. }
  split.
  { intros pick pt s packet load t Hs Hpc.
    destruct (server_reachable_inv s Hs) as [_ _ _ _ Hlocal _ _].
    rewrite Hpc in Hlocal. specialize (Hlocal load eq_refl). subst load.
    unfold server_step. rewrite Hpc. eexists. split; [done|].
    simpl. by rewrite next_load_min. }
  split; [exact step_current_load|].
  split.
  { intros l s s' Hstep.
    destruct (step_additional l s s' Hstep)
      as [Heq|[(pick & pt & packet & load & -> & Hpc & Hl & Ha & Hpc' & Hinc)
              |(pick & pt & packet & nl & -> & Hpc & Hl & Ha & Hpc' & Hdec)]].
    - split; [|split].
      + split; [lia|]. intros (pick & pt & packet & load & -> & Hpc & Hl & Ha).
        simpl in Hstep. unfold server_step in Hstep. rewrite Hpc in Hstep.
        pose proof (Zgt_is_gt_bool load 80) as [Hgt _]. rewrite (Hgt Hl) in Hstep.
        assert ((additional_handlers s <? max_additional_handlers) = true) as Hlt
            by (by apply Z.ltb_lt).
        rewrite Hlt in Hstep. simpl in Hstep. injection Hstep as <-. done.
      + split; [lia|]. intros (pick & pt & packet & nl & -> & Hpc & Hl & Ha).
        simpl in Hstep. unfold server_step in Hstep. rewrite Hpc in Hstep.
        pose proof (Zgt_is_gt_bool (additional_handlers s) 0) as [Hgt _].
        rewrite (Hgt Ha) in Hstep.
        assert ((nl <? 50) = true) as Hlt by (by apply Z.ltb_lt).
        rewrite Hlt in Hstep. simpl in Hstep. injection Hstep as <-. done.
      + lia.
    - split; [|split].
      + split; [|done]. intros _. by exists pick, pt, packet, load.
      + split; [lia|]. intros (? & ? & ? & ? & _ & Hpc2 & _). by rewrite Hpc in Hpc2.
      + intros _. by exists packet, load.
    - split; [|split].
      + split; [lia|]. intros (? & ? & ? & ? & _ & Hpc2 & _). by rewrite Hpc in Hpc2.
      + split; [|done]. intros _. by exists pick, pt, packet, nl.
      + lia. }
  exact grow_post_next.
Qed.

(** In [critical_run] the server sleeps 250 ms at load 0 and stores 25. *)
Lemma load_and_capacity_witness :
  ∃ s packet load,
    run (take 9 critical_run) init = Some s ∧
    server s = Sleeping packet load 250 ∧
    ∃ s', server_step 0 100 s = Some s' ∧
          current_load s' = Z.min 100 (current_load s + 250 ÷ 10) ∧
          current_load s' = 25.
Proof.
  eexists _, _, _. split; [vm_compute; reflexivity|].
  split; [vm_compute; reflexivity|].
  match goal with |- context [server_step 0 100 ?s] =>
    destruct (proj1 (proj2 (proj2 load_and_capacity)) 0%nat 100 s
                (Build_DataPacket 5 true 7) 0 250) as (s' & Hstep & Hload & _)
  end.
  - exists (take 9 critical_run). vm_compute. reflexivity.
  - vm_compute. reflexivity.
  - exists s'. split; [exact Hstep|]. split; [exact Hload|].
    rewrite Hload. vm_compute. reflexivity.
Defined.

End EnergyMonitorSystem_claims.


(** * The claims about both variants *)

(** Every way to pop a queue of at most three known items. *)
Ltac pops_cases H :=
  let k := fresh "k" in
  destruct H as [k H];
  destruct k as [|[|[|k]]]; vm_compute in H; simplify_eq.

Lemma scenario_tasks_drain l :
  pq_drains QuantumSimulator.Task_less (pq_push_all QuantumSimulator.scenario) l →
  QuantumSimulator.task_id <$> l = [2; 1; 3] ∨ QuantumSimulator.task_id <$> l = [2; 3; 1].
Proof.
  intros Hd. vm_compute in Hd.
  inversion Hd as [|q x q1 l1 Hp1 Hd1]; subst. pops_cases Hp1.
  inversion Hd1 as [|q x q2 l2 Hp2 Hd2]; subst. pops_cases Hp2.
  - inversion Hd2 as [|q x q3 l3 Hp3 Hd3]; subst. pops_cases Hp3.
    inversion Hd3 as [|q x q4 l4 Hp4 Hd4]; subst; [by right|]. by pops_cases Hp4.
  - inversion Hd2 as [|q x q3 l3 Hp3 Hd3]; subst. pops_cases Hp3.
    inversion Hd3 as [|q x q4 l4 Hp4 Hd4]; subst; [by left|]. by pops_cases Hp4.
Qed.

Lemma scenario_packets_drain l :
  pq_drains EnergyMonitorSystem.DataPacket_less
    (pq_push_all EnergyMonitorSystem.scenario) l →
  EnergyMonitorSystem.station_id <$> l = [2; 1; 3] ∨
  EnergyMonitorSystem.station_id <$> l = [2; 3; 1].
Proof.
  intros Hd. vm_compute in Hd.
  inversion Hd as [|q x q1 l1 Hp1 Hd1]; subst. pops_cases Hp1.
  inversion Hd1 as [|q x q2 l2 Hp2 Hd2]; subst. pops_cases Hp2.
  - inversion Hd2 as [|q x q3 l3 Hp3 Hd3]; subst. pops_cases Hp3.
    inversion Hd3 as [|q x q4 l4 Hp4 Hd4]; subst; [by right|]. by pops_cases Hp4.
  - inversion Hd2 as [|q x q3 l3 Hp3 Hd3]; subst. pops_cases Hp3.
    inversion Hd3 as [|q x q4 l4 Hp4 Hd4]; subst; [by left|]. by pops_cases Hp4.
Qed.

(** A worker takes from the queue only a task that no queued task precedes. *)
Lemma worker_takes_greatest i d s t s' b :
  QuantumSimulator.worker_step i d QuantumSimulator.QueueCheck s
  = Some (QuantumSimulator.GateWait t, s') →
  b ∈ QuantumSimulator.tasks s →
  ¬ lex_gt (QuantumSimulator.key b) (QuantumSimulator.key t).
Proof.
  intros Hstep Hb. simpl in Hstep.
  destruct (QuantumSimulator.shutdown s); [done|].
  destruct (QuantumSimulator.tasks s) as [|t0 q] eqn:Hq; [done|].
  destruct (pq_pop_at _ _ _) as [[t1 q1]|] eqn:Hpop; [|done].
  injection Hstep as -> <-.
  eapply (pq_pops_greatest _ _ _ QuantumSimulator_facts.Task_less_lex); [|done].
  by eexists.
Qed.

Lemma server_takes_greatest pick pt s s' p b :
  EnergyMonitorSystem.server s = EnergyMonitorSystem.QueueCheck →
  EnergyMonitorSystem.server_step pick pt s = Some s' →
  EnergyMonitorSystem.server s' = EnergyMonitorSystem.GateWait p →
  b ∈ EnergyMonitorSystem.data_packets s →
  ¬ lex_gt (EnergyMonitorSystem.key b) (EnergyMonitorSystem.key p).
Proof.
  intros Hpc Hstep Hpc' Hb. unfold EnergyMonitorSystem.server_step in Hstep.
  rewrite Hpc in Hstep.
  destruct (EnergyMonitorSystem.shutdown s); [by simplify_eq|].
  destruct (EnergyMonitorSystem.data_packets s) as [|t0 q] eqn:Hq; [by simplify_eq|].
  destruct (pq_pop_at _ _ _) as [[t1 q1]|] eqn:Hpop; [|done].
  injection Hstep as <-. simpl in Hpc'. injection Hpc' as ->.
  eapply (pq_pops_greatest _ _ _ EnergyMonitorSystem_facts.DataPacket_less_lex); [|done].
  by eexists.
Qed.

(** The heap does not keep items of one key in push order: four such
    tasks pushed as 1, 2, 3, 4 leave as 1, 3, 2, 4. *)
Lemma heap_ties_not_in_push_order :
  QuantumSimulator.task_id <$>
    heap_drain QuantumSimulator.Task_less 4
      (heap_push_all QuantumSimulator.Task_less
         [QuantumSimulator.Build_Task 1 false 1; QuantumSimulator.Build_Task 1 false 2;
          QuantumSimulator.Build_Task 1 false 3; QuantumSimulator.Build_Task 1 false 4])
  = [1; 3; 2; 4].
Proof. reflexivity. Qed.

(** C1. Items leave the priority queue by decreasing
    [(critical, -priority)]: in both variants [operator<] is exactly the
    lexicographic order, a thread takes from the queue only an item that
    no queued item precedes, and after pushes with no pop in between the
    pop sequence has an item with the greater key first (critical before
    non-critical, then lower priority value first), items with equal
    keys in either order.  The scenario of the specification pops 2
    first, then 1 and 3. *)
Theorem dequeue_order :
  (∀ a b, QuantumSimulator.Task_less b a = true
          ↔ lex_gt (QuantumSimulator.key a) (QuantumSimulator.key b)) ∧
  (∀ a b, EnergyMonitorSystem.DataPacket_less b a = true
          ↔ lex_gt (EnergyMonitorSystem.key a) (EnergyMonitorSystem.key b)) ∧
  (∀ i d s t s' b,
      QuantumSimulator.worker_step i d QuantumSimulator.QueueCheck s
      = Some (QuantumSimulator.GateWait t, s') →
      b ∈ QuantumSimulator.tasks s →
      ¬ lex_gt (QuantumSimulator.key b) (QuantumSimulator.key t)) ∧
  (∀ pick pt s s' p b,
      EnergyMonitorSystem.server s = EnergyMonitorSystem.QueueCheck →
      EnergyMonitorSystem.server_step pick pt s = Some s' →
      EnergyMonitorSystem.server s' = EnergyMonitorSystem.GateWait p →
      b ∈ EnergyMonitorSystem.data_packets s →
      ¬ lex_gt (EnergyMonitorSystem.key b) (EnergyMonitorSystem.key p)) ∧
  (∀ xs l,
      pq_drains QuantumSimulator.Task_less (pq_push_all xs) l →
      dequeued_in_order QuantumSimulator.is_critical QuantumSimulator.priority xs l) ∧
  (∀ xs l,
      pq_drains EnergyMonitorSystem.DataPacket_less (pq_push_all xs) l →
      dequeued_in_order EnergyMonitorSystem.is_critical EnergyMonitorSystem.priority xs l) ∧
  (∀ l,
      pq_drains QuantumSimulator.Task_less (pq_push_all QuantumSimulator.scenario) l →
      QuantumSimulator.task_id <$> l = [2; 1; 3] ∨
      QuantumSimulator.task_id <$> l = [2; 3; 1]) ∧
  (∀ l,
      pq_drains EnergyMonitorSystem.DataPacket_less
        (pq_push_all EnergyMonitorSystem.scenario) l →
      EnergyMonitorSystem.station_id <$> l = [2; 1; 3] ∨
      EnergyMonitorSystem.station_id <$> l = [2; 3; 1]) ∧
  QuantumSimulator.task_id <$>
    heap_drain QuantumSimulator.Task_less 3
      (heap_push_all QuantumSimulator.Task_less QuantumSimulator.scenario)
  = [2; 1; 3] ∧
  EnergyMonitorSystem.station_id <$>
    heap_drain EnergyMonitorSystem.DataPacket_less 3
      (heap_push_all EnergyMonitorSystem.DataPacket_less EnergyMonitorSystem.scenario)
  = [2; 1; 3] ∧
  (∀ xs, ∃ l, pq_drains QuantumSimulator.Task_less (pq_push_all xs) l) ∧
  (∀ xs, ∃ l, pq_drains EnergyMonitorSystem.DataPacket_less (pq_push_all xs) l).
Proof.
  split; [exact QuantumSimulator_facts.Task_less_lex|].
  split; [exact EnergyMonitorSystem_facts.DataPacket_less_lex|].
  split; [exact worker_takes_greatest|].
  split; [exact server_takes_greatest|].
  split.
  { intros xs l.
    apply (pq_drains_in_order _ _ _ QuantumSimulator_facts.Task_less_lex). }
  split.
  { intros xs l.
    apply (pq_drains_in_order _ _ _ EnergyMonitorSystem_facts.DataPacket_less_lex). }
  split; [exact scenario_tasks_drain|].
  split; [exact scenario_packets_drain|].
  split; [reflexivity|]. split; [reflexivity|].
  split.
  - intros xs. apply pq_drains_exists.
    + apply QuantumSimulator_facts.Task_less_irrefl.
    + apply QuantumSimulator_facts.Task_less_trans.
  - intros xs. apply pq_drains_exists.
    + apply EnergyMonitorSystem_facts.DataPacket_less_irrefl.
    + apply EnergyMonitorSystem_facts.DataPacket_less_trans.
Qed.

(** The scenario, popped by the heap of the library: 2 is first and 1
    comes before 3 although neither precedes the other; the sequence is
    one that the contract of the queue allows. *)
Lemma dequeue_order_witness :
  let l := heap_drain QuantumSimulator.Task_less 3
             (heap_push_all QuantumSimulator.Task_less QuantumSimulator.scenario) in
  pq_drains QuantumSimulator.Task_less (pq_push_all QuantumSimulator.scenario) l ∧
  dequeued_in_order QuantumSimulator.is_critical QuantumSimulator.priority
    QuantumSimulator.scenario l ∧
  (QuantumSimulator.task_id <$> l = [2; 1; 3] ∨
   QuantumSimulator.task_id <$> l = [2; 3; 1]).
Proof.
  assert (pq_drains QuantumSimulator.Task_less
            (pq_push_all QuantumSimulator.scenario)
            (heap_drain QuantumSimulator.Task_less 3
               (heap_push_all QuantumSimulator.Task_less QuantumSimulator.scenario)))
    as Hd.
  { vm_compute.
    econstructor; [by exists 1%nat|]. econstructor; [by exists 1%nat|].
    econstructor; [by exists 0%nat|]. constructor. }
  split; [exact Hd|]. split.
  - exact (proj1 (proj2 (proj2 (proj2 (proj2 dequeue_order)))) _ _ Hd).
  - exact (proj1 (proj2 (proj2 (proj2 (proj2 (proj2 (proj2 dequeue_order)))))) _ Hd).
Defined.

(** C2. At every reachable state of both programs the gate holds at
    most its capacity, and the items in execution are among the holders:
    in variant A, for any number of workers, the slots taken are those
    of the workers between [wait] and [post], at most 4; in variant B
    the capacity is 2 plus the additional handlers, at most 2+3, and the
    slots taken are the server's. *)
Theorem admission_bound :
  (∀ s, QuantumSimulator.reachable s →
        0 ≤ QuantumSimulator.held s ≤ QuantumSimulator.capacity ∧
        QuantumSimulator.held s
        = total QuantumSimulator.holds_slot (QuantumSimulator.threads s) ∧
        total QuantumSimulator.executing (QuantumSimulator.threads s)
        ≤ QuantumSimulator.held s ∧
        QuantumSimulator.capacity = 4) ∧
  (∀ s, EnergyMonitorSystem.reachable s →
        0 ≤ EnergyMonitorSystem.held s ≤ EnergyMonitorSystem.capacity s ∧
        EnergyMonitorSystem.held s
        = EnergyMonitorSystem.slots (EnergyMonitorSystem.server s) ∧
        EnergyMonitorSystem.executing (EnergyMonitorSystem.server s)
        ≤ EnergyMonitorSystem.held s ∧
        EnergyMonitorSystem.capacity s
        = 2 + EnergyMonitorSystem.additional_handlers s ∧
        0 ≤ EnergyMonitorSystem.additional_handlers s ≤ 3).
Proof.
  split.
  - intros s Hs. apply QuantumSimulator_facts.reachable_inv in Hs as Hinv.
    pose proof (QuantumSimulator_facts.held_holders s Hinv) as Hheld.
    destruct Hinv as [Hsem Hgate _].
    assert (0 ≤ total QuantumSimulator.holds_slot (QuantumSimulator.threads s)) as Hpos.
    { apply total_nonneg. intros []; simpl; lia. }
    split; [|split; [done|split; [|done]]].
    + unfold QuantumSimulator.held in *. lia.
    + rewrite Hheld. apply total_le, QuantumSimulator_facts.executing_holds_slot.
  - intros s Hs. apply EnergyMonitorSystem_facts.server_reachable_inv in Hs as Hinv.
    pose proof (EnergyMonitorSystem_facts.held_slots s Hinv) as Hheld.
    pose proof (EnergyMonitorSystem_facts.slots_range (EnergyMonitorSystem.server s)).
    pose proof (EnergyMonitorSystem_facts.executing_slots (EnergyMonitorSystem.server s)).
    destruct Hinv as [Hsem Hgate Hadd _ _ _ _].
    unfold EnergyMonitorSystem.held, EnergyMonitorSystem.capacity,
      EnergyMonitorSystem.base_handlers, EnergyMonitorSystem.max_additional_handlers in *.
    repeat split; lia.
Qed.

(** After [collision_run] two workers hold a slot and one of them
    runs a task. *)
Lemma admission_bound_witness :
  ∃ s, QuantumSimulator.run QuantumSimulator.collision_run QuantumSimulator.init = Some s ∧
       QuantumSimulator.held s = 2 ∧
       0 ≤ QuantumSimulator.held s ≤ QuantumSimulator.capacity ∧
       total QuantumSimulator.executing (QuantumSimulator.threads s)
       ≤ QuantumSimulator.held s.
Proof.
  eexists. split; [vm_compute; reflexivity|]. split; [reflexivity|].
  match goal with |- context [QuantumSimulator.held ?s] =>
    destruct (proj1 admission_bound s) as (H1 & _ & H2 & _)
  end.
  - exists 10%nat, QuantumSimulator.collision_run. vm_compute. reflexivity.
  - split; assumption.
Defined.



(** C8, as the code has it.  [add_task] takes any priority, a critical
    flag and an id that defaults to -1, and hands nothing back to its
    caller.  With the id omitted (or given as -1) the task gets the
    value of the counter, which then advances by one; with any other id
    the task gets that id and the counter stays.  [add_data_packet]
    takes a priority, a critical flag and a station id, none of them
    optional, queues them as given and hands nothing back. *)
Theorem submit_assigns_id :
  (∀ pr cr pk s,
      QuantumSimulator.add_task_call pr cr QuantumSimulator.default_task_id pk s
      = (tt, QuantumSimulator.add_task pr cr (-1) pk s) ∧
      QuantumSimulator.tasks (QuantumSimulator.add_task pr cr (-1) pk s)
      = QuantumSimulator.Build_Task pr cr (QuantumSimulator.next_task_id s)
        :: QuantumSimulator.tasks s ∧
      QuantumSimulator.next_task_id (QuantumSimulator.add_task pr cr (-1) pk s)
      = wrap32 (QuantumSimulator.next_task_id s + 1)) ∧
  (∀ pr cr id pk s,
      id ≠ -1 →
      QuantumSimulator.tasks (QuantumSimulator.add_task pr cr id pk s)
      = QuantumSimulator.Build_Task pr cr id :: QuantumSimulator.tasks s ∧
      QuantumSimulator.next_task_id (QuantumSimulator.add_task pr cr id pk s)
      = QuantumSimulator.next_task_id s) ∧
  (∀ pr cr sid s,
      EnergyMonitorSystem.add_data_packet_call pr cr sid s
      = (tt, EnergyMonitorSystem.add_data_packet pr cr sid s) ∧
      EnergyMonitorSystem.data_packets (EnergyMonitorSystem.add_data_packet pr cr sid s)
      = EnergyMonitorSystem.Build_DataPacket pr cr sid
        :: EnergyMonitorSystem.data_packets s).
Proof.
  split.
  { intros pr cr pk s.
    destruct (QuantumSimulator_facts.add_task_frame pr cr (-1) pk s)
      as (Ht & _ & _ & _ & _ & _ & Hn & _).
    by rewrite Ht, Hn. }
  split.
  { intros pr cr id pk s Hid.
    destruct (QuantumSimulator_facts.add_task_frame pr cr id pk s)
      as (Ht & _ & _ & _ & _ & _ & Hn & _).
    rewrite Ht, Hn. apply Z.eqb_neq in Hid. by rewrite Hid. }
  intros pr cr sid s. split; [done|].
  unfold EnergyMonitorSystem.add_data_packet. simpl. done.
Qed.

(** The caller's id 7 is kept and the counter stays at 1. *)
Lemma submit_assigns_id_witness :
  QuantumSimulator.tasks (QuantumSimulator.add_task 2 false 7 0 QuantumSimulator.init)
  = [QuantumSimulator.Build_Task 2 false 7] ∧
  QuantumSimulator.next_task_id
    (QuantumSimulator.add_task 2 false 7 0 QuantumSimulator.init) = 1.
Proof.
  apply (proj1 (proj2 submit_assigns_id) 2 false 7 0%nat QuantumSimulator.init).
  lia.
Defined.

(** Two calls that omit the id: the first task gets id 1 and the second
    id 2, and both calls hand back the same, empty, value. *)
Lemma add_task_returns_no_id :
  let s1 := QuantumSimulator.init in
  let s2 := QuantumSimulator.add_task 1 false (-1) 0 QuantumSimulator.init in
  (QuantumSimulator.add_task_call 1 false (-1) 0 s1).1
  = (QuantumSimulator.add_task_call 1 false (-1) 0 s2).1 ∧
  QuantumSimulator.task_id
    <$> head (QuantumSimulator.tasks (QuantumSimulator.add_task_call 1 false (-1) 0 s1).2)
  = Some 1 ∧
  QuantumSimulator.task_id
    <$> head (QuantumSimulator.tasks (QuantumSimulator.add_task_call 1 false (-1) 0 s2).2)
  = Some 2.
Proof. repeat split. Qed.

Lemma worker_exits_at_test i d p s s' :
  QuantumSimulator.worker_step i d p s = Some (QuantumSimulator.Exited, s') →
  (p = QuantumSimulator.LoopTest ∨ p = QuantumSimulator.QueueCheck) ∧
  QuantumSimulator.shutdown s = true.
Proof.
  intros Hstep. destruct p; simpl in Hstep.
  8: { by apply QuantumSimulator_facts.worker_step_Select_frame in Hstep
         as (_ & _ & _ & _ & _ & _ & _ & [[=]|(? & [=] & _)]). }
  all: step_cases Hstep; auto.
Qed.

Lemma server_exits_at_test pick pt s s' :
  EnergyMonitorSystem.server_step pick pt s = Some s' →
  EnergyMonitorSystem.server s' = EnergyMonitorSystem.Exited →
  (EnergyMonitorSystem.server s = EnergyMonitorSystem.LoopTest ∨
   EnergyMonitorSystem.server s = EnergyMonitorSystem.QueueCheck) ∧
  EnergyMonitorSystem.shutdown s = true.
Proof.
  intros Hstep Hex. unfold EnergyMonitorSystem.server_step in Hstep.
  destruct (EnergyMonitorSystem.server s) eqn:Hpc; step_cases Hstep;
    simpl in Hex; try done; auto.
Qed.

(** C9, as the code has it.  [stop] sets the flag under the mutex of the
    queue and then notifies every thread that waits for the queue: after
    that no thread waits there, in any reachable state, and a thread
    that sees the flag at the queue wait or at the loop test leaves
    without taking an item.  The wait at the semaphore does not read the
    flag: its outcome depends on the count alone, and [stop] leaves a
    thread that waits there where it is and the count as it is.  Once
    the count is positive the thread takes the slot, keeps its item and
    goes on with its iteration: a thread leaves only at the loop test
    or at the queue check. *)
Theorem shutdown_wakes_queue_waiters :
  (∀ s s',
      QuantumSimulator.stopping s = QuantumSimulator.StopFlagSet →
      QuantumSimulator.step QuantumSimulator.Stop s = Some s' →
      QuantumSimulator.threads s'
      = QuantumSimulator.notify_all (QuantumSimulator.threads s) ∧
      QuantumSimulator.no_queue_waiter s') ∧
  (∀ s,
      QuantumSimulator.reachable s →
      QuantumSimulator.stopping s = QuantumSimulator.StopJoining ∨
      QuantumSimulator.stopping s = QuantumSimulator.Stopped →
      QuantumSimulator.shutdown s = true ∧ QuantumSimulator.no_queue_waiter s) ∧
  (∀ i d s,
      QuantumSimulator.shutdown s = true →
      QuantumSimulator.worker_step i d QuantumSimulator.QueueCheck s
      = Some (QuantumSimulator.Exited, s) ∧
      QuantumSimulator.worker_step i d QuantumSimulator.LoopTest s
      = Some (QuantumSimulator.Exited, s)) ∧
  (∀ i d t s,
      QuantumSimulator.worker_step i d (QuantumSimulator.GateWait t) s
      = if 0 <? QuantumSimulator.task_semaphore s
        then Some (QuantumSimulator.FailureDraw t,
                   QuantumSimulator.set_task_semaphore
                     (QuantumSimulator.task_semaphore s - 1) s)
        else None) ∧
  (∀ s s' (i : nat) t,
      QuantumSimulator.step QuantumSimulator.Stop s = Some s' →
      QuantumSimulator.threads s !! i = Some (QuantumSimulator.GateWait t) →
      QuantumSimulator.threads s' !! i = Some (QuantumSimulator.GateWait t) ∧
      QuantumSimulator.task_semaphore s' = QuantumSimulator.task_semaphore s) ∧
  (∀ i d p s s',
      QuantumSimulator.worker_step i d p s = Some (QuantumSimulator.Exited, s') →
      (p = QuantumSimulator.LoopTest ∨ p = QuantumSimulator.QueueCheck) ∧
      QuantumSimulator.shutdown s = true) ∧
  (∀ s,
      EnergyMonitorSystem.reachable s →
      EnergyMonitorSystem.stopping s = EnergyMonitorSystem.StopJoining ∨
      EnergyMonitorSystem.stopping s = EnergyMonitorSystem.Stopped →
      EnergyMonitorSystem.shutdown s = true ∧
      EnergyMonitorSystem.server s ≠ EnergyMonitorSystem.QueueWait) ∧
  (∀ pick pt s,
      EnergyMonitorSystem.shutdown s = true →
      EnergyMonitorSystem.server s = EnergyMonitorSystem.QueueCheck ∨
      EnergyMonitorSystem.server s = EnergyMonitorSystem.LoopTest →
      EnergyMonitorSystem.server_step pick pt s
      = Some (EnergyMonitorSystem.set_server EnergyMonitorSystem.Exited s)) ∧
  (∀ pick pt s packet,
      EnergyMonitorSystem.server s = EnergyMonitorSystem.GateWait packet →
      EnergyMonitorSystem.server_step pick pt s
      = if 0 <? EnergyMonitorSystem.data_semaphore s
        then Some (EnergyMonitorSystem.set_server (EnergyMonitorSystem.ReadLoad packet)
                     (EnergyMonitorSystem.set_data_semaphore
                        (EnergyMonitorSystem.data_semaphore s - 1) s))
        else None) ∧
  (∀ s s' packet,
      EnergyMonitorSystem.step EnergyMonitorSystem.Stop s = Some s' →
      EnergyMonitorSystem.server s = EnergyMonitorSystem.GateWait packet →
      EnergyMonitorSystem.server s' = EnergyMonitorSystem.GateWait packet ∧
      EnergyMonitorSystem.data_semaphore s' = EnergyMonitorSystem.data_semaphore s) ∧
  (∀ pick pt s s',
      EnergyMonitorSystem.server_step pick pt s = Some s' →
      EnergyMonitorSystem.server s' = EnergyMonitorSystem.Exited →
      (EnergyMonitorSystem.server s = EnergyMonitorSystem.LoopTest ∨
       EnergyMonitorSystem.server s = EnergyMonitorSystem.QueueCheck) ∧
      EnergyMonitorSystem.shutdown s = true).
Proof.
  split.
  { intros s s' Hst Hstep. simpl in Hstep. unfold QuantumSimulator.stop_step in Hstep.
    rewrite Hst in Hstep. injection Hstep as <-. split; [done|].
    intros q Hq. simpl in Hq. unfold QuantumSimulator.notify_all in Hq.
    apply list_elem_of_fmap in Hq as (q0 & -> & _). by destruct q0. }
  split.
  { intros s Hs Hj.
    destruct (QuantumSimulator_claims.reachable_stop_inv s Hs) as [Hflag Hwoken].
    split; [|by apply Hwoken]. apply Hflag. by destruct Hj as [-> | ->]. }
  split.
  { intros i d s Hsh. simpl. by rewrite Hsh. }
  split; [done|].
  split.
  { intros s s' i t Hstep Hi. simpl in Hstep. unfold QuantumSimulator.stop_step in Hstep.
    destruct (QuantumSimulator.stopping s);
      [| |destruct (QuantumSimulator.all_exited (QuantumSimulator.threads s))|];
      simplify_eq; simpl; try done.
    unfold QuantumSimulator.notify_all. by rewrite list_lookup_fmap, Hi. }
  split; [exact worker_exits_at_test|].
  split.
  { intros s Hs Hj.
    destruct (EnergyMonitorSystem_claims.server_reachable_stop_inv s Hs) as [Hflag Hwoken].
    split; [|by apply Hwoken]. apply Hflag. by destruct Hj as [-> | ->]. }
  split.
  { intros pick pt s Hsh [Hpc|Hpc]; unfold EnergyMonitorSystem.server_step;
      by rewrite Hpc, Hsh. }
  split.
  { intros pick pt s packet Hpc. unfold EnergyMonitorSystem.server_step. by rewrite Hpc. }
  split; [|exact server_exits_at_test].
  intros s s' packet Hstep Hpc. simpl in Hstep.
  unfold EnergyMonitorSystem.stop_step in Hstep.
  destruct (EnergyMonitorSystem.stopping s); simplify_eq; simpl; rewrite ?Hpc; try done.
  by rewrite Hpc in Hstep.
Qed.

(** After [closed_gate_stop_run], [stop] has set the flag and notified:
    no worker waits for the queue, and worker 4 still waits at the
    gate. *)
Lemma shutdown_wakes_queue_waiters_witness :
  ∃ s, QuantumSimulator.run QuantumSimulator.closed_gate_stop_run QuantumSimulator.init
       = Some s ∧
       QuantumSimulator.stopping s = QuantumSimulator.StopJoining ∧
       QuantumSimulator.threads s !! 4%nat
       = Some (QuantumSimulator.GateWait (QuantumSimulator.Build_Task 1 false 1)) ∧
       QuantumSimulator.shutdown s = true ∧ QuantumSimulator.no_queue_waiter s.
Proof.
  eexists. split; [vm_compute; reflexivity|].
  split; [reflexivity|]. split; [reflexivity|].
  apply (proj1 (proj2 shutdown_wakes_queue_waiters)).
  - exists 10%nat, QuantumSimulator.closed_gate_stop_run. vm_compute. reflexivity.
  - by left.
Defined.

(** Worker 4 is blocked at the gate, the four slots being taken, when
    [stop] sets the flag and notifies every waiter: it is still blocked
    afterwards, whatever it draws.  When worker 0 has given its slot
    back and has left, worker 4 takes the slot and starts its task. *)
Lemma gate_wait_ignores_shutdown :
  ∃ s0 s1 s2 t,
    QuantumSimulator.run QuantumSimulator.closed_gate_run QuantumSimulator.init = Some s0 ∧
    QuantumSimulator.shutdown s0 = false ∧
    QuantumSimulator.threads s0 !! 4%nat = Some (QuantumSimulator.GateWait t) ∧
    QuantumSimulator.task_semaphore s0 = 0 ∧
    (∀ d, QuantumSimulator.step (QuantumSimulator.Worker 4 d) s0 = None) ∧
    QuantumSimulator.run [QuantumSimulator.Stop; QuantumSimulator.Stop] s0 = Some s1 ∧
    QuantumSimulator.shutdown s1 = true ∧
    QuantumSimulator.stopping s1 = QuantumSimulator.StopJoining ∧
    QuantumSimulator.threads s1 !! 4%nat = Some (QuantumSimulator.GateWait t) ∧
    (∀ d, QuantumSimulator.step (QuantumSimulator.Worker 4 d) s1 = None) ∧
    QuantumSimulator.run QuantumSimulator.after_stop_run s1 = Some s2 ∧
    QuantumSimulator.shutdown s2 = true ∧
    QuantumSimulator.threads s2 !! 0%nat = Some QuantumSimulator.Exited ∧
    QuantumSimulator.threads s2 !! 4%nat = Some (QuantumSimulator.Execute t 0) ∧
    last (QuantumSimulator.cout s2) = Some (QuantumSimulator.MsgExecuting 4 t 0).
Proof.
  eexists _, _, _, _. split; [vm_compute; reflexivity|].
  split; [reflexivity|]. split; [reflexivity|]. split; [reflexivity|].
  split; [intros d; vm_compute; reflexivity|].
  split; [vm_compute; reflexivity|].
  split; [reflexivity|]. split; [reflexivity|]. split; [reflexivity|].
  split; [intros d; vm_compute; reflexivity|].
  split; [vm_compute; reflexivity|]. repeat split.
Qed.

(** * Variant A: further properties of the code *)
Module QuantumSimulator_extra.
Import QuantumSimulator QuantumSimulator_facts QuantumSimulator_program.

(** The candidates of the choice are the processors marked healthy. *)
Lemma healthy_processors_spec (status : gmap Z bool) p :
  p ∈ healthy_processors status ↔ status !! p = Some true.
Proof.
  unfold healthy_processors, map_keys. rewrite list_elem_of_filter.
  rewrite merge_sort_Permutation, list_elem_of_fmap. split.
  - by intros [H _].
  - intros H. split; [done|]. exists (p, true). split; [done|].
    by apply elem_of_map_to_list.
Qed.

Lemma set_status_same s : set_processor_status (processor_status s) s = s.
Proof. by destruct s. Qed.

(** [processor_repair], by the case of its test. *)
Lemma processor_repair_cases p s :
  (processor_status s !! p = Some true ∧
   processor_repair p s = print (MsgAlreadyWorking p) s) ∨
  (processor_status s !! p ≠ Some true ∧
   processor_repair p s
   = print (MsgRepaired p) (set_processor_status (<[p:=true]> (processor_status s)) s)).
Proof.
  unfold processor_repair, map_index.
  destruct (processor_status s !! p) as [[]|] eqn:Hp.
  - left. split; [done|]. by rewrite set_status_same.
  - right. split; [done|]. done.
  - right. split; [done|]. by rewrite insert_insert_eq.
Qed.

Lemma repair_makes_healthy_aux p s :
  processor_status (processor_repair p s) !! p = Some true ∧
  ∀ q, q ≠ p → processor_status (processor_repair p s) !! q = processor_status s !! q.
Proof.
  destruct (processor_repair_cases p s) as [[Hp ->]|[Hp ->]]; simpl; [done|].
  rewrite lookup_insert_eq. split; [done|]. intros q Hq. by rewrite lookup_insert_ne.
Qed.

(** X1. After [processor_repair] the processor is healthy, whether it was
    healthy, failed or not a processor at all before; the operation
    touches the status of no other processor, no count, no task and no
    slot.  On a healthy processor it only prints. *)
Theorem repair_makes_healthy :
  ∀ p s,
    processor_status (processor_repair p s) !! p = Some true ∧
    (∀ q, q ≠ p →
          processor_status (processor_repair p s) !! q = processor_status s !! q) ∧
    processor_task_count (processor_repair p s) = processor_task_count s ∧
    tasks (processor_repair p s) = tasks s ∧
    task_semaphore (processor_repair p s) = task_semaphore s ∧
    threads (processor_repair p s) = threads s ∧
    next_task_id (processor_repair p s) = next_task_id s ∧
    (processor_status s !! p = Some true →
     processor_repair p s = print (MsgAlreadyWorking p) s).
Proof.
  intros p s. destruct (processor_repair_cases p s) as [[Hp ->]|[Hp ->]]; simpl.
  - repeat split; done.
  - rewrite lookup_insert_eq. repeat split; try done.
    intros q Hq. by rewrite lookup_insert_ne.
Qed.

(** X2. A repair right after a failure gives the processor its healthy
    mark back and nothing else: the count that the failure has set to 0
    stays 0, whatever it was. *)
Theorem repair_restores_status_only p s k :
  processor_status s !! p = Some true →
  processor_task_count s !! p = Some k →
  processor_status (processor_repair p (processor_failure_locked p s).1)
  = processor_status s ∧
  processor_task_count (processor_repair p (processor_failure_locked p s).1)
  = <[p:=0]> (processor_task_count s) ∧
  tasks (processor_repair p (processor_failure_locked p s).1) = tasks s ∧
  task_semaphore (processor_repair p (processor_failure_locked p s).1)
  = task_semaphore s ∧
  threads (processor_repair p (processor_failure_locked p s).1) = threads s.
Proof.
  intros Hp Hk. unfold processor_failure_locked.
  rewrite (map_index_present false _ _ _ Hp). simpl.
  rewrite (map_index_present 0 _ _ _ Hk). simpl.
  destruct (processor_repair_cases p
              (set_processor_task_count (<[p:=0]> (processor_task_count s))
                 (set_processor_status (<[p:=false]> (processor_status s)) s)))
    as [[Hq _]|[_ ->]]; simpl in *.
  - by rewrite lookup_insert_eq in Hq.
  - rewrite insert_insert_eq, (insert_id _ _ _ Hp). done.
Qed.

(** Processor 0 runs one task, fails and is repaired: its count is 0
    while the worker still runs the task. *)
Lemma repair_restores_status_only_witness :
  ∃ s, run busy_run init = Some s ∧
       threads s !! 0%nat = Some (Execute (Build_Task 1 true 3) 0) ∧
       processor_task_count s !! 0 = Some 1 ∧
       processor_status (processor_repair 0 (processor_failure_locked 0 s).1)
       = processor_status s ∧
       processor_task_count (processor_repair 0 (processor_failure_locked 0 s).1)
       = <[0:=0]> (processor_task_count s).
Proof.
  eexists. split; [vm_compute; reflexivity|]. split; [reflexivity|].
  split; [vm_compute; reflexivity|].
  match goal with |- context [processor_failure_locked 0 ?s] =>
    destruct (repair_restores_status_only 0 s 1) as (H1 & H2 & _)
  end.
  - vm_compute. reflexivity.
  - vm_compute. reflexivity.
  - split; [exact H1|exact H2].
Defined.

(** X3. A failure declared for an id that is not in the status map is
    reported as already failed.  [operator[]] enters the id as a failed
    processor; no count is touched, nothing is redirected, the worker
    that has declared it goes on to the choice of a processor, and the
    healthy processors are the same. *)
Theorem failure_of_unknown_processor p s :
  processor_status s !! p = None →
  processor_failure_locked p s
  = (print (MsgAlreadyFailed p)
       (set_processor_status (<[p:=false]> (processor_status s)) s), None) ∧
  (∀ i d t,
      worker_step i d (Failing t p) s
      = Some (Select t,
              print (MsgAlreadyFailed p)
                (set_processor_status (<[p:=false]> (processor_status s)) s))) ∧
  (∀ q, q ∈ healthy_processors (processor_status (processor_failure_locked p s).1)
        ↔ q ∈ healthy_processors (processor_status s)).
Proof.
  intros Hp.
  assert (processor_failure_locked p s
          = (print (MsgAlreadyFailed p)
               (set_processor_status (<[p:=false]> (processor_status s)) s), None)) as Hf.
  { unfold processor_failure_locked, map_index. by rewrite Hp. }
  split; [done|]. split.
  { intros i d t. cbn [worker_step]. by rewrite Hf. }
  rewrite Hf. intros q. rewrite !healthy_processors_spec. simpl.
  destruct (decide (q = p)) as [->|Hq].
  - rewrite lookup_insert_eq, Hp. split; done.
  - by rewrite lookup_insert_ne.
Qed.

(** On the new object 7 is no processor. *)
Lemma failure_of_unknown_processor_witness :
  processor_failure_locked 7 init
  = (print (MsgAlreadyFailed 7)
       (set_processor_status (<[7:=false]> (processor_status init)) init), None) ∧
  (∀ q, q ∈ healthy_processors (processor_status (processor_failure_locked 7 init).1)
        ↔ q ∈ healthy_processors (processor_status init)).
Proof.
  destruct (failure_of_unknown_processor 7 init) as (H1 & _ & H3).
  - vm_compute. reflexivity.
  - split; [exact H1|exact H3].
Defined.

Lemma map_index_default (m : gmap Z Z) k n m' :
  map_index 0 m k = (n, m') → n = default 0 (m !! k).
Proof. unfold map_index. destruct (m !! k); by intros [= <- <-]. Qed.

(** The choice of a processor, by the key drawn. *)
Lemma worker_step_Select_drawn i d t s :
  healthy_processors (processor_status s) ≠ [] →
  ∃ processor_id n count,
    healthy_processors (processor_status s)
      !! (r1 d mod length (healthy_processors (processor_status s)))%nat
    = Some processor_id ∧
    map_index 0 (processor_task_count s) processor_id = (n, count) ∧
    worker_step i d (Select t) s
    = if processor_id =? -1
      then Some (Requeue t, set_processor_task_count (<[processor_id:=n + 1]> count) s)
      else Some (Execute t processor_id,
                 print (MsgExecuting i t processor_id)
                   (set_processor_task_count (<[processor_id:=n + 1]> count) s)).
Proof.
  intros Hne. unfold worker_step.
  destruct (healthy_processors (processor_status s)) as [|p0 l] eqn:Hh; [done|].
  destruct (lookup_lt_is_Some_2 (p0 :: l) (r1 d mod length (p0 :: l))) as [pid Hpid].
  { by apply Nat.mod_upper_bound. }
  rewrite (nth_lookup_Some _ _ _ _ Hpid).
  destruct (map_index 0 (processor_task_count s) pid) as [n count] eqn:Hm.
  exists pid, n, count. by rewrite Hm.
Qed.

Lemma healthy_processors_nil (status : gmap Z bool) :
  healthy_processors status = [] ↔ ∀ p, status !! p ≠ Some true.
Proof.
  split.
  - intros Hh p Hp. apply healthy_processors_spec in Hp. rewrite Hh in Hp.
    by apply elem_of_nil in Hp.
  - intros Hnone. destruct (healthy_processors status) as [|p0 l] eqn:Hh; [done|].
    exfalso. apply (Hnone p0). apply healthy_processors_spec. rewrite Hh. by left.
Qed.

(** X4. The choice of a processor draws a key that is marked healthy at
    that instant and raises its count, and only its count, by one.  If
    the key is not -1 the worker runs the task on it, and every healthy
    processor other than -1 is taken for some draw.  The task goes back
    to the queue exactly when no key is healthy or the key drawn is -1;
    in the second case the count of -1 has been raised. *)
Theorem select_among_healthy :
  (∀ i d t s p s',
      worker_step i d (Select t) s = Some (Execute t p, s') →
      processor_status s !! p = Some true ∧ p ≠ -1 ∧
      task_count s' p = task_count s p + 1 ∧
      (∀ q, q ≠ p → task_count s' q = task_count s q)) ∧
  (∀ i t s p,
      processor_status s !! p = Some true → p ≠ -1 →
      ∃ d s', worker_step i d (Select t) s = Some (Execute t p, s')) ∧
  (∀ i d t s,
      (∃ s', worker_step i d (Select t) s = Some (Requeue t, s'))
      ↔ (∀ p, processor_status s !! p ≠ Some true) ∨
        healthy_processors (processor_status s)
          !! (r1 d mod length (healthy_processors (processor_status s)))%nat
        = Some (-1)) ∧
  (∀ i d t s s',
      worker_step i d (Select t) s = Some (Requeue t, s') →
      ((∀ p, processor_status s !! p ≠ Some true) ∧ s' = s) ∨
      (processor_status s !! (-1) = Some true ∧
       task_count s' (-1) = task_count s (-1) + 1 ∧
       (∀ q, q ≠ -1 → task_count s' q = task_count s q))).
Proof.
  assert (∀ s q n count,
            map_index 0 (processor_task_count s) q = (n, count) →
            task_count (set_processor_task_count (<[q:=n + 1]> count) s) q
            = task_count s q + 1 ∧
            ∀ j, j ≠ q →
                 task_count (set_processor_task_count (<[q:=n + 1]> count) s) j
                 = task_count s j) as Hraise.
  { intros s q n count Hm.
    pose proof (map_index_default _ _ _ _ Hm) as Hn.
    apply map_index_lookup in Hm as [_ Hne].
    unfold task_count. simpl. rewrite lookup_insert_eq. simpl. split; [by rewrite Hn|].
    intros j Hj. by rewrite lookup_insert_ne, Hne. }
  split; [|split; [|split]].
  - intros i d t s p s' Hstep.
    apply worker_step_Select in Hstep
      as [(_ & [=] & _)
         |(q & n & count & Hq & Hm & [(_ & [=] & _)|(Hq1 & [= <-] & ->)])].
    apply healthy_processors_spec in Hq. split; [done|]. split; [done|].
    exact (Hraise s _ n count Hm).
  - intros i t s p Hp Hp1. apply healthy_processors_spec in Hp.
    apply list_elem_of_lookup in Hp as [k Hk].
    destruct (worker_step_Select_drawn i (Draws false k 0 0) t s)
      as (pid & n & count & Hpid & _ & Hstep).
    { intros Hnil. by rewrite Hnil in Hk. }
    cbn [r1] in Hpid. rewrite Nat.mod_small in Hpid by (by eapply lookup_lt_Some).
    rewrite Hk in Hpid. injection Hpid as <-.
    apply Z.eqb_neq in Hp1. rewrite Hp1 in Hstep. by eexists _, _.
  - intros i d t s. rewrite <- healthy_processors_nil. split.
    + intros [s' Hstep].
      destruct (healthy_processors (processor_status s)) as [|p0 l] eqn:Hh; [by left|].
      right. rewrite <- Hh.
      destruct (worker_step_Select_drawn i d t s) as (pid & n & count & Hpid & _ & Hs).
      { by rewrite Hh. }
      rewrite Hstep in Hs. rewrite Hpid.
      destruct (pid =? -1) eqn:Heq; [|done]. apply Z.eqb_eq in Heq. by rewrite Heq.
    + intros [Hnil|Hdrawn].
      * exists s. unfold worker_step. by rewrite Hnil.
      * destruct (worker_step_Select_drawn i d t s) as (pid & n & count & Hpid & _ & Hs).
        { intros Hnil. by rewrite Hnil in Hdrawn. }
        rewrite Hdrawn in Hpid. injection Hpid as <-.
        rewrite Hs. by eexists.
  - intros i d t s s' Hstep.
    apply worker_step_Select in Hstep
      as [(Hnil & _ & ->)
         |(q & n & count & Hq & Hm & [(-> & _ & ->)|(_ & [=] & _)])].
    + left. split; [|done]. by apply healthy_processors_nil.
    + right. apply healthy_processors_spec in Hq. split; [done|].
      exact (Hraise s (-1) n count Hm).
Qed.

(** After [busy_run] processor 2 is healthy: a draw of 2 takes it. *)
Lemma select_among_healthy_witness :
  ∃ s, run busy_run init = Some s ∧
       ∃ d s', worker_step 1 d (Select (Build_Task 1 false 2)) s
               = Some (Execute (Build_Task 1 false 2) 2, s').
Proof.
  eexists. split; [vm_compute; reflexivity|].
  apply (proj1 (proj2 select_among_healthy)); [vm_compute; reflexivity|done].
Defined.

(** The locked part of [processor_failure] leaves the processor failed
    and the status of the others as it was. *)
Lemma processor_failure_locked_status q s s1 r :
  processor_failure_locked q s = (s1, r) →
  processor_status s1 !! q = Some false ∧
  ∀ p, p ≠ q → processor_status s1 !! p = processor_status s !! p.
Proof.
  unfold processor_failure_locked, map_index. intros H.
  destruct (processor_status s !! q) as [[]|] eqn:Hq; simpl in H.
  - destruct (processor_task_count s !! q); simplify_eq; simpl;
      (split; [apply lookup_insert_eq|intros p Hp; by rewrite lookup_insert_ne]).
  - by simplify_eq.
  - simplify_eq. simpl.
    split; [apply lookup_insert_eq|intros p Hp; by rewrite lookup_insert_ne].
Qed.

(** A worker's step leaves the status map alone, unless it is the
    failure it has drawn. *)
Lemma worker_step_status i d p0 s p' s' :
  worker_step i d p0 s = Some (p', s') →
  processor_status s' = processor_status s ∨
  ∃ t q, p0 = Failing t q ∧ processor_status s' !! q = Some false ∧
         ∀ p, p ≠ q → processor_status s' !! p = processor_status s !! p.
Proof.
  intros Hstep. destruct p0; simpl in Hstep.
  6: { destruct (processor_failure_locked processor_to_fail s) as [s1 r] eqn:Hf.
       apply processor_failure_locked_status in Hf as [Hq Hne].
       right. exists current_task, processor_to_fail.
       by destruct r; simplify_eq. }
  6: { destruct (i0 <? tasks_to_redirect); simplify_eq; [|by left]. left.
       unfold redirect_one.
       by destruct (add_task_frame (random_priority (r1 d)) (random_critical (r2 d))
                      default_task_id (pick d) s) as (_ & _ & ? & _). }
  6: { apply worker_step_Select_frame in Hstep as (_ & _ & Hst & _). by left. }
  all: step_cases Hstep; by left.
Qed.

(** X5. A processor goes from healthy to failed only in the failure step
    of a worker that has drawn it, and becomes healthy only by
    [processor_repair] on it. *)
Theorem health_changes_by_failure_and_repair l s s' p :
  step l s = Some s' →
  (processor_status s !! p = Some true → processor_status s' !! p ≠ Some true →
   ∃ i d t, l = Worker i d ∧ threads s !! i = Some (Failing t p)) ∧
  (processor_status s !! p ≠ Some true → processor_status s' !! p = Some true →
   l = Repair p).
Proof.
  intros Hstep. destruct l as [i d|i|pr cr id pk|q|]; simpl in Hstep.
  - destruct (threads s !! i) as [p0|] eqn:Hi; [|done].
    destruct (worker_step i d p0 s) as [[p' s1]|] eqn:Hw; [|done].
    injection Hstep as <-. simpl.
    destruct (worker_step_status _ _ _ _ _ _ Hw) as [->|(t & q & -> & Hq & Hne)].
    + split; intros H1 H2; congruence.
    + destruct (decide (p = q)) as [->|Hpq].
      * split; [intros _ _; by exists i, d, t|]. intros _ H2; congruence.
      * rewrite (Hne p Hpq). split; intros H1 H2; congruence.
  - destruct (threads s !! i) as [[]|]; simplify_eq. simpl.
    split; intros H1 H2; congruence.
  - injection Hstep as <-.
    destruct (add_task_frame pr cr id pk s) as (_ & _ & -> & _).
    split; intros H1 H2; congruence.
  - injection Hstep as <-.
    destruct (repair_makes_healthy_aux q s) as [Hq Hne].
    destruct (decide (p = q)) as [->|Hpq].
    + split; [intros _ H2; congruence|done].
    + rewrite (Hne p Hpq). split; intros H1 H2; congruence.
  - unfold stop_step in Hstep.
    destruct (stopping s); [| |destruct (all_exited (threads s))|]; simplify_eq; simpl;
      split; intros H1 H2; congruence.
Qed.

(** In [collision_run] worker 1 has drawn the failure of processor 0:
    its next step marks the processor failed. *)
Lemma health_changes_by_failure_and_repair_witness :
  ∃ s s', run (take 12 collision_run) init = Some s ∧
          step (Worker 1 tails) s = Some s' ∧
          processor_status s !! 0 = Some true ∧
          processor_status s' !! 0 = Some false ∧
          ∃ i d t, Worker 1 tails = Worker i d ∧ threads s !! i = Some (Failing t 0).
Proof.
  eexists _, _. split; [vm_compute; reflexivity|].
  split; [vm_compute; reflexivity|].
  match goal with
  | |- processor_status ?s !! 0 = _ ∧ processor_status ?s' !! 0 = _ ∧ _ =>
      assert (Hs : step (Worker 1 tails) s = Some s') by (vm_compute; reflexivity)
  end.
  split; [vm_compute; reflexivity|]. split; [vm_compute; reflexivity|].
  apply (proj1 (health_changes_by_failure_and_repair _ _ _ 0 Hs)).
  - vm_compute. reflexivity.
  - vm_compute. intros H. discriminate H.
Defined.

(** *** Exact counts in runs without failure *)

Lemma map_index_task_count s q n count :
  map_index 0 (processor_task_count s) q = (n, count) →
  n = task_count s q ∧ count !! q = Some n ∧
  ∀ j, j ≠ q → count !! j = processor_task_count s !! j.
Proof.
  intros Hm. pose proof (map_index_lookup _ _ _ _ _ Hm) as [Hk Hne].
  split; [|done]. unfold task_count.
  by apply map_index_value in Hm as [-> | [-> ->]].
Qed.

Lemma exact_init n : exact (init_with n).
Proof.
  split.
  - intros p _. rewrite total_zero by (by intros q [-> _]%elem_of_replicate).
    unfold task_count. simpl. rewrite !lookup_insert.
    by repeat case_decide.
  - by intros p [-> _]%elem_of_replicate.
Qed.

Lemma elem_of_threads_step i d p s p' s' q :
  worker_step i d p s = Some (p', s') →
  q ∈ <[i:=p']> (threads s') → q = p' ∨ q = QueueCheck ∨ q ∈ threads s.
Proof.
  intros Hw [->|Hq]%elem_of_insert_inv; [by left|]. right.
  destruct (QuantumSimulator_claims.worker_step_threads _ _ _ _ _ _ Hw) as [Ht|[pk Ht]];
    rewrite Ht in Hq; [by right|].
  apply QuantumSimulator_claims.elem_of_notify_one in Hq as [Hq| ->]; auto.
Qed.

Lemma worker_step_not_failing i d p s p' s' :
  worker_step i d p s = Some (p', s') → coin d = false → failing p' = false.
Proof.
  intros Hstep Hcoin. destruct p; simpl in Hstep.
  8: { by apply worker_step_Select_frame in Hstep
         as (_ & _ & _ & _ & _ & _ & _ & [->|(? & -> & _)]). }
  5: { rewrite Hcoin in Hstep. by simplify_eq. }
  all: by step_cases Hstep.
Qed.

Lemma worker_step_exact i d p s p' s' :
  threads s !! i = Some p → worker_step i d p s = Some (p', s') → coin d = false →
  exact s → exact (set_threads (<[i:=p']> (threads s')) s').
Proof.
  intros Hi Hstep Hcoin [Hcount Hcalm].
  split; simpl.
  2: { intros q Hq.
       destruct (elem_of_threads_step _ _ _ _ _ _ _ Hstep Hq) as [->|[->|Hq']];
         [by eapply worker_step_not_failing|done|by apply Hcalm]. }
  assert (failing p = false) as Hp.
  { apply Hcalm. by eapply list_elem_of_lookup_2. }
  intros q Hq1. specialize (Hcount q Hq1). unfold task_count in *. simpl.
  destruct p; try done.
  6: { apply worker_step_Select in Hstep
         as [(_ & -> & ->)
            |(pid & n & count & _ & Hm & [(-> & -> & ->)|(Hpid & -> & ->)])].
       - rewrite (total_insert _ _ _ _ _ Hi). simpl. lia.
       - simpl. rewrite (total_insert _ _ _ _ _ Hi). simpl.
         apply map_index_task_count in Hm as (_ & _ & Hne).
         rewrite lookup_insert_ne, Hne by done. lia.
       - simpl. rewrite (total_insert _ _ _ _ _ Hi). simpl.
         apply map_index_task_count in Hm as (-> & Hk & Hne). unfold task_count.
         destruct (decide (q = pid)) as [->|Hqp].
         + rewrite lookup_insert_eq, decide_True by done. simpl. lia.
         + rewrite lookup_insert_ne, Hne, decide_False by done. lia. }
  5: { simpl in Hstep. destruct (i0 <? tasks_to_redirect); simplify_eq.
       - assert (notify_one (pick d) (threads s) !! i
                 = Some (Redirecting current_task i0 tasks_to_redirect)) as Hi'.
         { by apply notify_one_lookup. }
         unfold redirect_one.
         destruct (add_task_frame (random_priority (r1 d)) (random_critical (r2 d))
                     default_task_id (pick d) s) as (_ & _ & _ & -> & _ & -> & _).
         rewrite (total_insert _ _ _ _ _ Hi'), notify_one_total by done. simpl. lia.
       - rewrite (total_insert _ _ _ _ _ Hi). simpl. lia. }
  9: { simpl in Hstep.
        destruct (map_index 0 (processor_task_count s) processor_id) as [n count] eqn:Hm.
        simplify_eq. simpl.
        apply map_index_task_count in Hm as (-> & Hk & Hne). unfold task_count in *.
        rewrite (total_insert _ _ _ _ _ Hi). simpl.
        pose proof (total_lookup_le (executing_on processor_id) _ _ _
                      (executing_on_ge0 processor_id) Hi) as Hle.
        simpl in Hle. rewrite decide_True in Hle by done.
        destruct (decide (q = processor_id)) as [->|Hqp].
        - rewrite decide_True by done.
          destruct (0 <? default 0 (processor_task_count s !! processor_id)) eqn:Hpos.
          + rewrite lookup_insert_eq. simpl. lia.
          + apply Z.ltb_ge in Hpos. lia.
        - rewrite decide_False by done.
          destruct (0 <? default 0 (processor_task_count s !! processor_id));
            rewrite ?lookup_insert_ne, Hne by done; lia. }
  all: simpl in Hstep; step_cases Hstep; simpl.
  all: rewrite (total_insert _ _ _ _ _ Hi); simpl; repeat case_decide; lia.
Qed.

Lemma step_exact l s s' : step l s = Some s' → calm l = true → exact s → exact s'.
Proof.
  intros Hstep Hl Hex. destruct l as [i d|i|pr cr id pk|p|]; simpl in Hstep.
  - destruct (threads s !! i) as [p|] eqn:Hi; [|done].
    destruct (worker_step i d p s) as [[p' s1]|] eqn:Hw; [|done].
    injection Hstep as <-. simpl in Hl. apply negb_true_iff in Hl.
    by eapply worker_step_exact.
  - destruct (threads s !! i) as [[]|] eqn:Hi; try done.
    injection Hstep as <-. destruct Hex as [Hcount Hcalm]. split; simpl.
    + intros q Hq1. rewrite (total_insert _ _ _ _ _ Hi). simpl.
      specialize (Hcount q Hq1). unfold task_count in *. simpl. lia.
    + intros q [->|Hq]%elem_of_insert_inv; [done|by apply Hcalm].
  - injection Hstep as <-. destruct Hex as [Hcount Hcalm].
    pose proof (add_task_frame pr cr id pk s) as (_ & _ & _ & Hc & _ & Ht & _).
    split; unfold task_count; rewrite ?Hc, ?Ht.
    + intros q Hq1. rewrite notify_one_total by done. by apply Hcount.
    + intros q [Hq| ->]%QuantumSimulator_claims.elem_of_notify_one; [by apply Hcalm|done].
  - injection Hstep as <-. destruct Hex as [Hcount Hcalm].
    destruct (processor_repair_cases p s) as [[_ ->]|[_ ->]]; by split.
  - destruct Hex as [Hcount Hcalm]. unfold stop_step in Hstep.
    destruct (stopping s); [| |destruct (all_exited (threads s))|]; simplify_eq.
    + by split.
    + split; unfold task_count; simpl.
      * intros q Hq1. rewrite notify_all_total by done. by apply Hcount.
      * intros q [i Hq]%list_elem_of_lookup.
        apply notify_all_lookup_inv in Hq as [Hq|[-> _]]; [|done].
        apply Hcalm. by eapply list_elem_of_lookup_2.
    + by split.
Qed.

(** X6. In a run in which no worker draws a failure, the count of every
    processor, that is of every key other than -1, is the number of
    workers running a task on it. *)
Theorem counts_exact_without_failure n ls s p :
  run ls (init_with n) = Some s → forallb calm ls = true → p ≠ -1 →
  task_count s p = total (executing_on p) (threads s).
Proof.
  intros Hrun Hls Hp. apply exact_count; [|done].
  revert Hrun Hls. generalize (exact_init n). generalize (init_with n).
  induction ls as [|l ls IH]; intros s0 H0 Hrun Hls; simpl in Hrun.
  - by simplify_eq.
  - destruct (step l s0) as [s1|] eqn:Hs; [|done].
    simpl in Hls. apply andb_true_iff in Hls as [Hl Hls].
    eauto using step_exact.
Qed.

(** After [busy_run] one worker runs a task on processor 0, and the
    count of processor 0 is 1. *)
Lemma counts_exact_without_failure_witness :
  ∃ s, run busy_run (init_with 10) = Some s ∧ forallb calm busy_run = true ∧
       task_count s 0 = total (executing_on 0) (threads s) ∧
       total (executing_on 0) (threads s) = 1.
Proof.
  eexists. split; [vm_compute; reflexivity|]. split; [reflexivity|].
  split; [|vm_compute; reflexivity].
  apply (counts_exact_without_failure 10 busy_run); [vm_compute; reflexivity|reflexivity|done].
Defined.

(** *** After shutdown *)

Lemma step_shutdown_kept l s s' :
  step l s = Some s' → shutdown s = true → shutdown s' = true.
Proof.
  intros Hstep Hsh. destruct l as [i d|i|pr cr id pk|p|]; simpl in Hstep.
  - destruct (threads s !! i) as [p|] eqn:Hi; [|done].
    destruct (worker_step i d p s) as [[p' s1]|] eqn:Hw; [|done].
    injection Hstep as <-. simpl.
    destruct (QuantumSimulator_claims.worker_step_flags _ _ _ _ _ _ Hw) as [-> _]. done.
  - destruct (threads s !! i) as [[]|]; by simplify_eq.
  - injection Hstep as <-.
    by destruct (add_task_frame pr cr id pk s) as (_ & _ & _ & _ & -> & _).
  - injection Hstep as <-.
    by destruct (processor_repair_cases p s) as [[_ ->]|[_ ->]].
  - unfold stop_step in Hstep.
    destruct (stopping s); [| |destruct (all_exited (threads s))|]; by simplify_eq.
Qed.

Lemma step_no_dequeue l s s' :
  step l s = Some s' → shutdown s = true →
  tasks s' = tasks s ∨ ∃ t, tasks s' = t :: tasks s.
Proof.
  intros Hstep Hsh.
  destruct (QuantumSimulator_claims.step_queue_change _ _ _ Hstep)
    as [Hq|i d t -> Hi Hi' _|? ? ? ? _ Hq|? ? ? ? ? _ _ _ Hq|? ? ? _ _ Hq]; eauto.
  simpl in Hstep. rewrite Hi in Hstep. simpl in Hstep. rewrite Hsh in Hstep.
  injection Hstep as <-. simpl in Hi'.
  by rewrite (QuantumSimulator_claims.insert_lookup_self _ _ _ _ Hi) in Hi'.
Qed.

(** X7. Once the shutdown flag is set no task is taken from the queue
    any more: whatever the workers and the callers do, the flag stays
    set and the tasks queued at that moment stay queued, below those
    pushed later. *)
Theorem no_dequeue_after_shutdown ls s s' :
  run ls s = Some s' → shutdown s = true →
  shutdown s' = true ∧ ∃ pushed, tasks s' = pushed ++ tasks s.
Proof.
  revert s. induction ls as [|l ls IH]; intros s Hrun Hsh; simpl in Hrun.
  - simplify_eq. split; [done|]. by exists [].
  - destruct (step l s) as [s1|] eqn:Hs; [|done].
    pose proof (step_shutdown_kept _ _ _ Hs Hsh) as Hsh1.
    destruct (IH s1 Hrun Hsh1) as [Hsh' [pushed Hq]]. split; [done|].
    destruct (step_no_dequeue _ _ _ Hs Hsh) as [Ht|[t Ht]]; rewrite Hq, Ht.
    + by exists pushed.
    + exists (pushed ++ [t]). by rewrite <- app_assoc.
Qed.

(** A task is queued, worker 0 comes to the queue and [stop] sets the
    flag; the worker finds the flag and leaves the task where it is. *)
Lemma no_dequeue_after_shutdown_witness :
  ∃ s s', run [AddTask 1 false 1 0; Worker 0 tails; Stop] init = Some s ∧
          run [Stop; Worker 0 tails; Worker 1 tails] s = Some s' ∧
          tasks s = [Build_Task 1 false 1] ∧
          shutdown s' = true ∧ ∃ pushed, tasks s' = pushed ++ tasks s.
Proof.
  eexists _, _. split; [vm_compute; reflexivity|].
  match goal with
  | |- run ?ls ?s = Some ?s' ∧ _ =>
      assert (Hs : run ls s = Some s') by (vm_compute; reflexivity)
  end.
  split; [exact Hs|]. split; [vm_compute; reflexivity|].
  apply (no_dequeue_after_shutdown _ _ _ Hs). vm_compute. reflexivity.
Defined.

Lemma processor_failure_locked_redirects q s s1 k :
  processor_failure_locked q s = (s1, Some k) →
  processor_task_count s !! q = Some k ∨ k = 0.
Proof.
  unfold processor_failure_locked. intros H. step_cases H.
  match goal with
  | Hm : map_index 0 _ _ = _ |- _ => apply map_index_value in Hm as [Hm|[_ ->]]
  end; auto.
Qed.

(** A failure under way names one of the processors 0..3, and its
    redirection started at 0 and counts at most four tasks. *)
Lemma failure_redirects_bounded q s s1 k :
  processor_failure_locked q s = (s1, Some k) → inv s → q ≠ -1 → k ≤ 4.
Proof.
  intros Hf [Hsem Hgate Hcount] Hq.
  apply processor_failure_locked_redirects in Hf as [Hf| ->]; [|lia].
  destruct (Hcount _ _ Hf) as [_ Hle]. specialize (Hle Hq).
  assert (total (executing_on q) (threads s) ≤ total holds_slot (threads s)) as Hle'.
  { apply total_le. intros []; simpl; try case_decide; lia. }
  unfold capacity in Hgate. lia.
Qed.

Lemma worker_step_redirect_bounded i d p s p' s1 :
  worker_step i d p s = Some (p', s1) → inv s → redirect_bounded s →
  threads s !! i = Some p →
  (∀ t j k, p' = Redirecting t j k → 0 ≤ j ∧ k ≤ 4) ∧
  (∀ t q, p' = Failing t q → 0 ≤ q ≤ 3).
Proof.
  intros Hstep Hinv [Hloop Hdraw] Hi. apply list_elem_of_lookup_2 in Hi.
  destruct p; simpl in Hstep.
  8: { apply worker_step_Select_frame in Hstep
         as (_ & _ & _ & _ & _ & _ & _ & [->|(? & -> & _)]); by split. }
  5: { destruct (coin d); simplify_eq; (split; [done|]); [|done].
       intros t q [= <- <-]. pose proof (Z.mod_pos_bound (Z.of_nat (r1 d)) 4). lia. }
  5: { destruct (processor_failure_locked processor_to_fail s) as [s2 [k'|]] eqn:Hf;
         simplify_eq; (split; [|done]); [|done].
       intros t j k [= <- <- <-]. split; [done|].
       eapply failure_redirects_bounded; [done|done|].
       specialize (Hdraw _ _ Hi). lia. }
  5: { destruct (i0 <? tasks_to_redirect) eqn:Hlt; simplify_eq; (split; [|done]); [|done].
       intros t j k [= <- <- <-]. apply Hloop in Hi. lia. }
  all: step_cases Hstep; by split.
Qed.

Lemma step_redirect_bounded l s s' :
  step l s = Some s' → inv s → redirect_bounded s → redirect_bounded s'.
Proof.
  intros Hstep Hinv Hb.
  assert (∀ q, q ∈ threads s' →
               q ∈ threads s ∨ q = QueueCheck ∨
               ∃ (i : nat) d p s1, threads s !! i = Some p ∧
                                   worker_step i d p s = Some (q, s1)) as Hsrc.
  { intros q Hin. destruct l as [i d|i|pr cr id pk|p|]; simpl in Hstep.
    - destruct (threads s !! i) as [p|] eqn:Hi; [|done].
      destruct (worker_step i d p s) as [[p' s1]|] eqn:Hw; [|done].
      injection Hstep as <-. simpl in Hin.
      destruct (elem_of_threads_step _ _ _ _ _ _ _ Hw Hin) as [->|[->|Hq]]; auto.
      right. right. by exists i, d, p, s1.
    - destruct (threads s !! i) as [[]|] eqn:Hi; try done.
      injection Hstep as <-. simpl in Hin.
      apply elem_of_insert_inv in Hin as [->|Hin]; auto.
    - injection Hstep as <-.
      destruct (add_task_frame pr cr id pk s) as (_ & _ & _ & _ & _ & Ht & _).
      rewrite Ht in Hin.
      apply QuantumSimulator_claims.elem_of_notify_one in Hin as [Hin| ->]; auto.
    - injection Hstep as <-.
      destruct (processor_repair_cases p s) as [[_ Hr]|[_ Hr]]; rewrite Hr in Hin; auto.
    - unfold stop_step in Hstep.
      destruct (stopping s); [| |destruct (all_exited (threads s))|]; simplify_eq;
        simpl in Hin; auto.
      apply list_elem_of_lookup in Hin as [i Hin].
      apply notify_all_lookup_inv in Hin as [Hin|[-> _]]; auto.
      left. by eapply list_elem_of_lookup_2. }
  split.
  - intros t j k Hin.
    destruct (Hsrc _ Hin) as [Hq|[?|(i & d & p & s1 & Hi & Hw)]];
      [by eapply (bounded_loop s)|done|].
    by eapply (proj1 (worker_step_redirect_bounded _ _ _ _ _ _ Hw Hinv Hb Hi)).
  - intros t q Hin.
    destruct (Hsrc _ Hin) as [Hq|[?|(i & d & p & s1 & Hi & Hw)]];
      [by eapply (bounded_draw s)|done|].
    by eapply (proj2 (worker_step_redirect_bounded _ _ _ _ _ _ Hw Hinv Hb Hi)).
Qed.

Lemma run_redirect_bounded ls s s' :
  run ls s = Some s' → inv s → redirect_bounded s → redirect_bounded s'.
Proof.
  revert s. induction ls as [|l ls IH]; intros s Hrun Hinv Hb; simpl in Hrun.
  - by simplify_eq.
  - destruct (step l s) as [s1|] eqn:Hs; [|done].
    eauto using step_inv, step_redirect_bounded.
Qed.

Lemma reachable_redirect_bounded s : reachable s → redirect_bounded s.
Proof.
  intros (n & ls & Hrun).
  eapply run_redirect_bounded; [done|apply inv_init|].
  split; [intros t j k [? _]%elem_of_replicate|intros t q [? _]%elem_of_replicate]; done.
Qed.

(** With the flag set every action of a worker brings it nearer to
    the end of [worker_thread]. *)
Lemma worker_step_steps_left i d p s p' s1 :
  worker_step i d p s = Some (p', s1) → inv s → redirect_bounded s →
  threads s !! i = Some p → shutdown s = true →
  (steps_left p' < steps_left p)%nat.
Proof.
  intros Hstep Hinv Hb Hi Hsh. destruct p; simpl in Hstep.
  8: { apply worker_step_Select_frame in Hstep
         as (_ & _ & _ & _ & _ & _ & _ & [->|(? & -> & _)]); simpl; lia. }
  6: { destruct (processor_failure_locked processor_to_fail s) as [s2 [k|]] eqn:Hf;
         simplify_eq; simpl; [|lia].
       apply list_elem_of_lookup_2 in Hi. apply (bounded_draw s Hb) in Hi.
       assert (k ≤ 4) by (eapply failure_redirects_bounded; [done|done|lia]). lia. }
  6: { destruct (i0 <? tasks_to_redirect) eqn:Hlt; simplify_eq; simpl; [|lia].
       apply Z.ltb_lt in Hlt. lia. }
  all: rewrite ?Hsh in Hstep; step_cases Hstep; simpl; lia.
Qed.

Lemma wake_nth_woken n ths (i : nat) p :
  ths !! i = Some p → ∃ p', wake_nth n ths !! i = Some p' ∧ woken p p'.
Proof.
  revert n i. induction ths as [|q ths IH]; intros n [|i] H; simplify_eq/=.
  - destruct p; try (eexists; split; [done|by left]).
    destruct n; eexists; (split; [done|]); [by right|by left].
  - destruct q; simpl; eauto. destruct n; simpl; eauto.
    exists p. split; [done|by left].
Qed.

Lemma notify_all_woken ths (i : nat) p :
  ths !! i = Some p → ∃ p', notify_all ths !! i = Some p' ∧ woken p p'.
Proof.
  intros H. unfold notify_all. rewrite list_lookup_fmap, H. simpl.
  exists (wake p). split; [done|]. destruct p; (by left) || (by right).
Qed.

Lemma woken_steps_left p p' : woken p p' → steps_left p' = steps_left p.
Proof. by intros [->|[-> ->]]. Qed.

Lemma worker_step_woken j d pj s pj' s1 (i : nat) p :
  worker_step j d pj s = Some (pj', s1) → threads s !! i = Some p →
  ∃ p', threads s1 !! i = Some p' ∧ woken p p'.
Proof.
  intros Hw Hi.
  destruct (QuantumSimulator_claims.worker_step_threads _ _ _ _ _ _ Hw) as [->|[pk ->]].
  - exists p. split; [done|by left].
  - by apply wake_nth_woken.
Qed.

Lemma step_steps_left l s s' (i : nat) p :
  step l s = Some s' → inv s → redirect_bounded s → shutdown s = true →
  threads s !! i = Some p →
  ∃ p', threads s' !! i = Some p' ∧
        (worker_actions i [l] + steps_left p' ≤ steps_left p)%nat.
Proof.
  intros Hstep Hinv Hb Hsh Hi. destruct l as [j d|j|pr cr id pk|q|]; simpl in Hstep.
  - destruct (threads s !! j) as [pj|] eqn:Hj; [|done].
    destruct (worker_step j d pj s) as [[pj' s1]|] eqn:Hw; [|done].
    injection Hstep as <-. simpl.
    destruct (worker_step_woken _ _ _ _ _ _ _ _ Hw Hi) as (p1 & Hi1 & Hwk).
    destruct (decide (j = i)) as [->|Hji].
    + exists pj'. split; [by eapply QuantumSimulator_claims.insert_lookup_self|].
      rewrite Hi in Hj. injection Hj as <-.
      pose proof (worker_step_steps_left _ _ _ _ _ _ Hw Hinv Hb Hi Hsh). lia.
    + exists p1. rewrite list_lookup_insert_ne by done. split; [done|].
      rewrite (woken_steps_left _ _ Hwk). lia.
  - destruct (threads s !! j) as [[]|] eqn:Hj; try done.
    injection Hstep as <-. simpl.
    destruct (decide (j = i)) as [->|Hji].
    + exists QueueCheck. split; [by eapply QuantumSimulator_claims.insert_lookup_self|].
      rewrite Hi in Hj. by injection Hj as ->.
    + exists p. by rewrite list_lookup_insert_ne.
  - injection Hstep as <-.
    destruct (add_task_frame pr cr id pk s) as (_ & _ & _ & _ & _ & -> & _).
    destruct (wake_nth_woken (pk mod Z.to_nat (total waiting (threads s))) _ _ _ Hi)
      as (p1 & Hi1 & Hwk).
    exists p1. split; [done|]. rewrite (woken_steps_left _ _ Hwk). simpl. lia.
  - injection Hstep as <-. exists p.
    by destruct (processor_repair_cases q s) as [[_ ->]|[_ ->]].
  - unfold stop_step in Hstep.
    destruct (stopping s); [| |destruct (all_exited (threads s))|]; simplify_eq; simpl;
      try (by exists p).
    destruct (notify_all_woken _ _ _ Hi) as (p1 & Hi1 & Hwk).
    exists p1. split; [done|]. rewrite (woken_steps_left _ _ Hwk). lia.
Qed.

Lemma run_steps_left ls s s' (i : nat) p :
  run ls s = Some s' → inv s → redirect_bounded s → shutdown s = true →
  threads s !! i = Some p →
  ∃ p', threads s' !! i = Some p' ∧
        (worker_actions i ls + steps_left p' ≤ steps_left p)%nat.
Proof.
  revert s p. induction ls as [|l ls IH]; intros s p Hrun Hinv Hb Hsh Hi; simpl in Hrun.
  - simplify_eq. exists p. split; [done|]. simpl. lia.
  - destruct (step l s) as [s1|] eqn:Hs; [|done].
    destruct (step_steps_left _ _ _ _ _ Hs Hinv Hb Hsh Hi) as (p1 & Hi1 & Hle1).
    destruct (IH s1 p1 Hrun (step_inv _ _ _ Hs Hinv)
                (step_redirect_bounded _ _ _ Hs Hinv Hb)
                (step_shutdown_kept _ _ _ Hs Hsh) Hi1)
      as (p' & Hi' & Hle').
    exists p'. split; [done|].
    change (l :: ls) with ([l] ++ ls).
    assert (worker_actions i ([l] ++ ls) = worker_actions i [l] + worker_actions i ls)%nat
      as ->; [|lia].
    simpl. destruct l; simpl; lia.
Qed.

(** X8. Once the shutdown flag is set a worker exits after a bounded
    number of its own actions, whatever the others do: at most
    [steps_left] of them, which is at most 13 (the actions left for the
    task it has in hand) and at most 2 if it has no task; when it has
    taken that many, it has left [worker_thread]. *)
Theorem worker_exits_after_shutdown ls s s' (i : nat) p :
  reachable s → shutdown s = true → run ls s = Some s' → threads s !! i = Some p →
  (worker_actions i ls ≤ steps_left p ≤ 13)%nat ∧
  (task_in_hand p = None → worker_actions i ls ≤ 2)%nat ∧
  (worker_actions i ls = steps_left p → threads s' !! i = Some Exited).
Proof.
  intros Hs Hsh Hrun Hi.
  destruct (run_steps_left _ _ _ _ _ Hrun (reachable_inv _ Hs)
              (reachable_redirect_bounded _ Hs) Hsh Hi) as (p' & Hi' & Hle).
  assert (steps_left p ≤ 13)%nat as Hmax.
  { destruct p; simpl; try lia.
    apply list_elem_of_lookup_2 in Hi.
    apply (bounded_loop _ (reachable_redirect_bounded _ Hs)) in Hi. lia. }
  split; [lia|]. split.
  - intros Hnone. destruct p; simpl in *; try done; lia.
  - intros Heq. assert (steps_left p' = 0)%nat as H0 by lia.
    destruct p'; simpl in H0; try done; lia.
Qed.

(** In [late_run] the flag is set while worker 0 stands at the gate
    with its task; seven actions later it has left the loop. *)
Lemma worker_exits_after_shutdown_witness :
  ∃ s s', run (take 5 late_run) init = Some s ∧
          run (replicate 7 (Worker 0 tails)) s = Some s' ∧
          threads s !! 0%nat = Some (GateWait (Build_Task 1 false 1)) ∧
          threads s' !! 0%nat = Some Exited ∧
          (worker_actions 0 (replicate 7 (Worker 0 tails))
           ≤ steps_left (GateWait (Build_Task 1 false 1)) ≤ 13)%nat.
Proof.
  eexists _, _. split; [vm_compute; reflexivity|].
  match goal with
  | |- run ?ls ?s = Some ?s' ∧ _ =>
      assert (Hs : run ls s = Some s') by (vm_compute; reflexivity);
      assert (Hr : reachable s) by (exists 10%nat, (take 5 late_run); vm_compute; reflexivity)
  end.
  split; [exact Hs|]. split; [vm_compute; reflexivity|].
  split; [vm_compute; reflexivity|].
  apply (worker_exits_after_shutdown _ _ _ 0 _ Hr) with (2 := Hs); vm_compute; reflexivity.
Defined.

(** *** The ids of the redirection loop *)

Lemma wrap32_id z : - 2 ^ 31 ≤ z < 2 ^ 31 → wrap32 z = z.
Proof.
  intros Hz. unfold wrap32.
  rewrite Z.mod_small by lia. lia.
Qed.

(** An action of a worker outside the redirection loop leaves the
    counter of the ids alone. *)
Lemma worker_step_counter i d p s p' s1 :
  worker_step i d p s = Some (p', s1) →
  (∀ t j k, p = Redirecting t j k → (j <? k) = false) →
  next_task_id s1 = next_task_id s.
Proof.
  intros Hstep Hp. destruct p; simpl in Hstep.
  8: { by apply worker_step_Select_frame in Hstep as (_ & _ & _ & _ & _ & Hid & _). }
  6: { destruct (processor_failure_locked processor_to_fail s) as [s2 r] eqn:Hf.
       apply processor_failure_locked_frame in Hf as (_ & _ & _ & _ & Hid & _).
       by destruct r; simplify_eq. }
  6: { rewrite (Hp _ _ _ eq_refl) in Hstep. by simplify_eq. }
  all: by step_cases Hstep.
Qed.

Lemma step_automatic l s s' :
  step l s = Some s' → automatic l s = true →
  ∃ pr cr, tasks s' = Build_Task pr cr (next_task_id s) :: tasks s ∧
           next_task_id s' = wrap32 (next_task_id s + 1).
Proof.
  intros Hstep Ha. destruct l as [i d|i|pr cr id pk|p|]; simpl in Hstep, Ha; try done.
  - destruct (threads s !! i) as [[]|] eqn:Hi; try done.
    cbn [worker_step] in Hstep. rewrite Ha in Hstep. injection Hstep as <-.
    exists (random_priority (r1 d)), (random_critical (r2 d)).
    split; [exact (QuantumSimulator_claims.redirect_one_tasks d s)|].
    destruct (add_task_frame (random_priority (r1 d)) (random_critical (r2 d))
                default_task_id (pick d) s) as (_ & _ & _ & _ & _ & _ & Hid & _).
    exact Hid.
  - injection Hstep as <-. exists pr, cr.
    destruct (add_task_frame pr cr id pk s) as (-> & _ & _ & _ & _ & _ & -> & _).
    unfold default_task_id in Ha. by rewrite Ha.
Qed.

Lemma step_not_automatic l s s' :
  step l s = Some s' → automatic l s = false → next_task_id s' = next_task_id s.
Proof.
  intros Hstep Ha. destruct l as [i d|i|pr cr id pk|p|]; simpl in Hstep, Ha.
  - destruct (threads s !! i) as [p|] eqn:Hi; [|done].
    destruct (worker_step i d p s) as [[p' s1]|] eqn:Hw; [|done].
    injection Hstep as <-. simpl.
    apply (worker_step_counter _ _ _ _ _ _ Hw). by intros t j k ->.
  - destruct (threads s !! i) as [[]|]; by simplify_eq.
  - injection Hstep as <-.
    destruct (add_task_frame pr cr id pk s) as (_ & _ & _ & _ & _ & _ & -> & _).
    unfold default_task_id in Ha. by rewrite Ha.
  - injection Hstep as <-.
    by destruct (processor_repair_cases p s) as [[_ ->]|[_ ->]].
  - unfold stop_step in Hstep.
    destruct (stopping s); [| |destruct (all_exited (threads s))|]; by simplify_eq.
Qed.

Lemma run_automatic_ids ls : ∀ s s',
  run ls s = Some s' →
  - 2 ^ 31 ≤ next_task_id s →
  next_task_id s + Z.of_nat (length (automatic_ids ls s)) < 2 ^ 31 →
  automatic_ids ls s
  = seqZ (next_task_id s) (Z.of_nat (length (automatic_ids ls s))) ∧
  next_task_id s' = next_task_id s + Z.of_nat (length (automatic_ids ls s)).
Proof.
  induction ls as [|l ls IH]; intros s s' Hrun Hlo Hhi; cbn [run] in Hrun.
  - simplify_eq. simpl. split; [done|lia].
  - cbn [automatic_ids] in Hhi |- *.
    destruct (step l s) as [s1|] eqn:Hs; [|done].
    destruct (automatic l s) eqn:Ha.
    + destruct (step_automatic _ _ _ Hs Ha) as (pr & cr & Hq & Hid).
      rewrite Hq in Hhi |- *. cbn [head fmap option_fmap option_map task_id] in Hhi |- *.
      change (option_list (Some (next_task_id s)) ++ automatic_ids ls s1)
        with (next_task_id s :: automatic_ids ls s1) in Hhi |- *.
      rewrite length_cons in Hhi |- *.
      rewrite wrap32_id in Hid by lia.
      destruct (IH s1 s' Hrun) as [Hids Hnext]; [lia|lia|].
      split; [|lia].
      replace (Z.of_nat (S (length (automatic_ids ls s1))))
        with (Z.succ (Z.of_nat (length (automatic_ids ls s1)))) by lia.
      rewrite seqZ_cons by lia. f_equal.
      rewrite Z.pred_succ. rewrite Hids at 1. f_equal. lia.
    + pose proof (step_not_automatic _ _ _ Hs Ha) as Hid.
      cbn [app] in Hhi |- *. rewrite <- Hid.
      apply (IH s1 s' Hrun); lia.
Qed.

(** X9. The tasks pushed without an id take their ids from the counter,
    one after the other, whoever pushes them: a caller, or the
    redirection loop of a worker, whose iterations other threads may
    separate.  Each such call pushes a task with the value of the
    counter as its id and advances the counter by one, modulo 2^32; no
    other action changes the counter.  So, as long as the counter does
    not pass [INT_MAX], the ids of these tasks over any run are
    [next_task_id], [next_task_id + 1], ... in the order of the calls,
    and the counter ends at [next_task_id] plus their number. *)
Theorem automatic_ids_consecutive :
  (∀ l s s',
      step l s = Some s' → automatic l s = true →
      ∃ pr cr, tasks s' = Build_Task pr cr (next_task_id s) :: tasks s ∧
               next_task_id s' = wrap32 (next_task_id s + 1)) ∧
  (∀ l s s',
      step l s = Some s' → automatic l s = false →
      next_task_id s' = next_task_id s) ∧
  (∀ i d t j k s,
      threads s !! i = Some (Redirecting t j k) →
      automatic (Worker i d) s = (j <? k)) ∧
  (∀ ls s s',
      run ls s = Some s' →
      - 2 ^ 31 ≤ next_task_id s →
      next_task_id s + Z.of_nat (length (automatic_ids ls s)) < 2 ^ 31 →
      automatic_ids ls s
      = seqZ (next_task_id s) (Z.of_nat (length (automatic_ids ls s))) ∧
      next_task_id s' = next_task_id s + Z.of_nat (length (automatic_ids ls s))).
Proof.
  split; [exact step_automatic|]. split; [exact step_not_automatic|].
  split; [|exact run_automatic_ids].
  intros i d t j k s Hi. simpl. by rewrite Hi.
Qed.

(** Worker 2 redirects the two tasks of processor 0, and a caller
    submits a task without an id between the two iterations of its
    loop: the loop's tasks, of priority 1, carry the ids 1 and 3, the
    caller's, of priority 3, the id 2. *)
Lemma automatic_ids_consecutive_witness :
  ∃ s s', run two_on_one_run init = Some s ∧
          threads s !! 2%nat = Some (Redirecting (Build_Task 1 false 10) 0 2) ∧
          run interleaved_run s = Some s' ∧
          task_id <$> tasks s' = [3; 2; 1] ∧
          priority <$> tasks s' = [1; 3; 1] ∧
          automatic_ids interleaved_run s = seqZ (next_task_id s) 3 ∧
          next_task_id s' = next_task_id s + 3.
Proof.
  eexists _, _. split; [vm_compute; reflexivity|]. split; [reflexivity|].
  match goal with
  | |- run ?ls ?s = Some ?s' ∧ _ =>
      assert (Hs : run ls s = Some s') by (vm_compute; reflexivity)
  end.
  split; [exact Hs|]. split; [vm_compute; reflexivity|].
  split; [vm_compute; reflexivity|].
  apply (proj2 (proj2 (proj2 automatic_ids_consecutive)) _ _ _ Hs);
    vm_compute; [discriminate|reflexivity].
Defined.

(** *** [stop] returns *)

Lemma run_app ls1 ls2 s :
  run (ls1 ++ ls2) s = match run ls1 s with Some s1 => run ls2 s1 | None => None end.
Proof.
  revert s. induction ls1 as [|l ls1 IH]; intros s; simpl; [done|].
  by destruct (step l s).
Qed.

(** With the flag set, a worker that neither waits for the queue nor
    stands at the gate has an action. *)
Lemma worker_step_enabled i p s :
  shutdown s = true → p ≠ QueueWait → parked p = false →
  is_Some (worker_step i tails p s).
Proof.
  intros Hsh Hw Hp. destruct p; simpl in *; try done; rewrite ?Hsh; try by eexists.
  - by destruct (processor_failure_locked processor_to_fail s) as [s1 [k|]].
  - by destruct (i0 <? tasks_to_redirect).
  - destruct (healthy_processors (processor_status s)) as [|p0 l]; [done|].
    destruct (map_index 0 (processor_task_count s) _).
    by destruct (_ =? -1).
  - by destruct (map_index 0 (processor_task_count s) processor_id).
Qed.

(** While [stop] joins, a worker that has not left can act. *)
Lemma some_worker_enabled s :
  inv s → no_queue_waiter s → shutdown s = true → all_exited (threads s) = false →
  ∃ (i : nat) p, threads s !! i = Some p ∧ is_Some (worker_step i tails p s).
Proof.
  intros [Hsem Hgate _] Hnw Hsh Hex.
  destruct (forallb parked (threads s)) eqn:Hparked.
  - apply forallb_false in Hex as (i & p & Hi & Hp). exists i, p. split; [done|].
    pose proof (forallb_lookup _ _ _ _ Hparked Hi) as Hpp.
    assert (total holds_slot (threads s) = 0) as H0.
    { apply total_zero. intros q [j Hj]%list_elem_of_lookup.
      pose proof (forallb_lookup _ _ _ _ Hparked Hj). by destruct q. }
    destruct p; try done. simpl.
    assert ((0 <? task_semaphore s) = true) as ->; [|done].
    apply Z.ltb_lt. unfold capacity in Hgate. lia.
  - apply forallb_false in Hparked as (i & p & Hi & Hp). exists i, p. split; [done|].
    apply worker_step_enabled; [done| |done]. apply Hnw. by eapply list_elem_of_lookup_2.
Qed.

Lemma worker_step_work_left i d p s p' s1 :
  threads s !! i = Some p → worker_step i d p s = Some (p', s1) →
  inv s → redirect_bounded s → shutdown s = true →
  work_left (<[i:=p']> (threads s1)) < work_left (threads s).
Proof.
  intros Hi Hw Hinv Hb Hsh. unfold work_left.
  pose proof (worker_step_steps_left _ _ _ _ _ _ Hw Hinv Hb Hi Hsh) as Hlt.
  destruct (QuantumSimulator_claims.worker_step_threads _ _ _ _ _ _ Hw) as [->|[pk ->]].
  - rewrite (total_insert _ _ _ _ _ Hi). lia.
  - assert (notify_one pk (threads s) !! i = Some p) as Hi'.
    { apply notify_one_lookup; [done|]. intros ->. done. }
    rewrite (total_insert _ _ _ _ _ Hi'), notify_one_total by done. lia.
Qed.

Lemma joining_completes n s :
  work_left (threads s) ≤ Z.of_nat n →
  inv s → redirect_bounded s → stop_inv s → stopping s = StopJoining →
  ∃ ls s', run ls s = Some s' ∧ forallb shutdown_action ls = true ∧
           stopping s' = Stopped ∧ all_exited (threads s') = true.
Proof.
  revert s. induction n as [|n IH]; intros s Hn Hinv Hb Hst Hj.
  all: destruct (all_exited (threads s)) eqn:Hex.
  1,3: exists [Stop], (set_stopping Stopped s); simpl; unfold stop_step;
         by rewrite Hj, Hex.
  all: assert (shutdown s = true) as Hsh by (apply (stop_flag s Hst); by rewrite Hj).
  all: destruct (some_worker_enabled s Hinv (stop_woken s Hst (or_introl Hj)) Hsh Hex)
         as (i & p & Hi & [[p' s1] Hw]).
  all: pose proof (worker_step_work_left _ _ _ _ _ _ Hi Hw Hinv Hb Hsh) as Hlt.
  all: assert (step (Worker i tails) s = Some (set_threads (<[i:=p']> (threads s1)) s1))
         as Hstep by (simpl; by rewrite Hi, Hw).
  - pose proof (total_nonneg (λ p, Z.of_nat (steps_left p)) (<[i:=p']> (threads s1))) as H0.
    unfold work_left in *. specialize (H0 ltac:(intros; lia)). lia.
  - destruct (IH (set_threads (<[i:=p']> (threads s1)) s1)) as (ls & s' & Hrun & Hls & Hs');
      [simpl; lia|by eapply step_inv|by eapply step_redirect_bounded
      |by eapply QuantumSimulator_claims.step_stop_inv| |].
    { simpl. destruct (QuantumSimulator_claims.worker_step_flags _ _ _ _ _ _ Hw) as [_ ->].
      done. }
    exists (Worker i tails :: ls), s'. split; [|done].
    change (run (Worker i tails :: ls) s) with
      (match step (Worker i tails) s with Some s2 => run ls s2 | None => None end).
    by rewrite Hstep.
Qed.

(** The first two actions of [stop]: the flag, then [notify_all]. *)
Lemma stop_reaches_joining s :
  stopping s ≠ Stopped →
  ∃ ls s1, run ls s = Some s1 ∧ forallb shutdown_action ls = true ∧
           stopping s1 = StopJoining.
Proof.
  intros Hst. destruct (stopping s) eqn:Hs; [| | |done].
  - exists [Stop; Stop]. eexists. simpl. unfold stop_step. rewrite Hs. simpl. done.
  - exists [Stop]. eexists. simpl. unfold stop_step. rewrite Hs. done.
  - by exists [], s.
Qed.

Lemma run_stop_inv ls s s' : run ls s = Some s' → stop_inv s → stop_inv s'.
Proof.
  revert s. induction ls as [|l ls IH]; intros s Hrun Hst; simpl in Hrun.
  - by simplify_eq.
  - destruct (step l s) as [s1|] eqn:Hs; [|done].
    eauto using QuantumSimulator_claims.step_stop_inv.
Qed.

(** From a state that keeps the invariants, [stop] and the workers
    come to the end of [stop]. *)
Lemma stop_completes_from s :
  inv s → redirect_bounded s → stop_inv s → stopping s ≠ Stopped →
  ∃ ls s', run ls s = Some s' ∧ forallb shutdown_action ls = true ∧
           stopping s' = Stopped ∧ all_exited (threads s') = true.
Proof.
  intros Hinv Hb Hstop Hst.
  destruct (stop_reaches_joining s Hst) as (ls1 & s1 & Hrun1 & Hls1 & Hj).
  destruct (joining_completes (Z.to_nat (work_left (threads s1))) s1)
    as (ls2 & s' & Hrun2 & Hls2 & Hs');
    [lia|by eapply run_inv|by eapply run_redirect_bounded|by eapply run_stop_inv|done|].
  exists (ls1 ++ ls2), s'. split; [by rewrite run_app, Hrun1|]. split; [|done].
  rewrite forallb_app. by rewrite Hls1, Hls2.
Qed.

(** X10. [stop] can always return.  From every state of the program in
    which [stop] has not returned yet, the actions of [stop] and of the
    workers alone lead to a state in which every worker has left
    [worker_thread] and [join_all] has returned: no worker is left
    blocked in [wait] or at the gate. *)
Theorem stop_can_complete s :
  reachable s → stopping s ≠ Stopped →
  ∃ ls s', run ls s = Some s' ∧ forallb shutdown_action ls = true ∧
           stopping s' = Stopped ∧ all_exited (threads s') = true.
Proof.
  intros Hr Hst.
  apply stop_completes_from;
    [by apply reachable_inv|by apply reachable_redirect_bounded| |done].
  by apply QuantumSimulator_claims.reachable_stop_inv.
Qed.


(** The fresh object with its ten workers: [stop] has not been called. *)
Lemma stop_can_complete_witness :
  ∃ ls s', run ls init = Some s' ∧ forallb shutdown_action ls = true ∧
           stopping s' = Stopped ∧ all_exited (threads s') = true.
Proof.
  apply stop_can_complete.
  - by exists 10%nat, [].
  - simpl. discriminate.
Defined.

(** *** The program of [main] *)

(** The threads after a step: those before, one woken, or the worker
    that has acted. *)
Lemma step_threads_elem l s s' q :
  step l s = Some s' → q ∈ threads s' →
  q ∈ threads s ∨ q = QueueCheck ∨
  ∃ (i : nat) d p s1, l = Worker i d ∧ threads s !! i = Some p ∧
                      worker_step i d p s = Some (q, s1).
Proof.
  intros Hstep Hq. destruct l as [i d|i|pr cr id pk|p|]; simpl in Hstep.
  - destruct (threads s !! i) as [p|] eqn:Hi; [|done].
    destruct (worker_step i d p s) as [[p' s1]|] eqn:Hw; [|done].
    injection Hstep as <-. simpl in Hq.
    destruct (elem_of_threads_step _ _ _ _ _ _ _ Hw Hq) as [->|[->|Hq']]; auto.
    right. right. by exists i, d, p, s1.
  - destruct (threads s !! i) as [[]|] eqn:Hi; try done.
    injection Hstep as <-. simpl in Hq.
    apply elem_of_insert_inv in Hq as [->|Hq]; auto.
  - injection Hstep as <-.
    destruct (add_task_frame pr cr id pk s) as (_ & _ & _ & _ & _ & Ht & _).
    rewrite Ht in Hq.
    apply QuantumSimulator_claims.elem_of_notify_one in Hq as [Hq| ->]; auto.
  - injection Hstep as <-.
    destruct (processor_repair_cases p s) as [[_ Hr]|[_ Hr]]; rewrite Hr in Hq; auto.
  - unfold stop_step in Hstep.
    destruct (stopping s); [| |destruct (all_exited (threads s))|]; simplify_eq;
      simpl in Hq; auto.
    apply list_elem_of_lookup in Hq as [i Hq].
    apply notify_all_lookup_inv in Hq as [Hq|[-> _]]; auto.
    left. by eapply list_elem_of_lookup_2.
Qed.

(** The task a worker has in hand after an action: the one it had, or
    one it has taken from the queue. *)
Lemma task_in_hand_source i d p s p' s1 t :
  worker_step i d p s = Some (p', s1) → task_in_hand p' = Some t →
  task_in_hand p = Some t ∨ t ∈ tasks s.
Proof.
  intros Hstep Ht. destruct p; simpl in Hstep.
  8: { apply worker_step_Select_frame in Hstep
         as (_ & _ & _ & _ & _ & _ & _ & [->|(? & -> & _)]); by left. }
  2: { destruct (shutdown s); [by simplify_eq|].
       destruct (tasks s) as [|t0 q] eqn:Hq; [by simplify_eq|].
       destruct (pq_pop_at Task_less (pick d) (t0 :: q)) as [[t1 q']|] eqn:Hpop; [|done].
       injection Hstep as <- <-. simpl in Ht. injection Ht as ->. right.
       unfold pq_pop_at in Hpop.
       destruct ((t0 :: q) !! pick d) as [x|] eqn:Hx; [|done].
       destruct (is_topb Task_less (t0 :: q) x); [|done].
       injection Hpop as -> _. by eapply list_elem_of_lookup_2. }
  all: step_cases Hstep; simpl in *; auto; done.
Qed.

(** The processor a worker names after an action: the one it named, a
    healthy one it has chosen, or one of 0..3 it has drawn. *)
Lemma processor_of_source i d p s p' s1 q :
  worker_step i d p s = Some (p', s1) → processor_of p' = Some q →
  processor_of p = Some q ∨ processor_status s !! q = Some true ∨ 0 ≤ q ≤ 3.
Proof.
  intros Hstep Hq. destruct p; simpl in Hstep.
  8: { apply worker_step_Select_frame in Hstep
         as (_ & _ & _ & _ & _ & _ & _ & [->|(pid & -> & _ & Hin)]); [done|].
       simpl in Hq. injection Hq as ->. right. by left. }
  5: { destruct (coin d); simplify_eq; simpl in Hq; simplify_eq.
       right. right. pose proof (Z.mod_pos_bound (Z.of_nat (r1 d)) 4). lia. }
  all: step_cases Hstep; simpl in *; auto; done.
Qed.

(** What an action of a worker does to the counts: nothing, or it sets
    the count of the processor the worker names or has chosen. *)
Lemma worker_step_count i d p s p' s1 :
  worker_step i d p s = Some (p', s1) →
  processor_task_count s1 = processor_task_count s ∨
  ∃ q, (processor_of p = Some q ∨ processor_status s !! q = Some true) ∧
       is_Some (processor_task_count s1 !! q) ∧
       ∀ j, j ≠ q → processor_task_count s1 !! j = processor_task_count s !! j.
Proof.
  intros Hstep. destruct p; simpl in Hstep.
  8: { apply worker_step_Select in Hstep
         as [(_ & _ & ->)|(pid & n & count & Hin & Hm & Hout)]; [by left|].
       right. exists pid. split; [right; by apply healthy_processors_spec|].
       apply map_index_lookup in Hm as [_ Hne].
       destruct Hout as [(_ & _ & ->)|(_ & _ & ->)]; simpl.
       all: rewrite lookup_insert_eq; split; [done|]; intros j Hj.
       all: by rewrite lookup_insert_ne, Hne. }
  6: { unfold processor_failure_locked in Hstep.
       destruct (map_index false (processor_status s) processor_to_fail) as [[] status].
       - destruct (map_index 0 (processor_task_count s) processor_to_fail)
           as [n count] eqn:Hm.
         simpl in Hstep. injection Hstep as <- <-. simpl.
         right. exists processor_to_fail. split; [by left|].
         apply map_index_lookup in Hm as [_ Hne].
         rewrite lookup_insert_eq. split; [done|]. intros j Hj.
         by rewrite lookup_insert_ne, Hne.
       - simpl in Hstep. injection Hstep as <- <-. by left. }
  6: { destruct (i0 <? tasks_to_redirect); simplify_eq; [|by left]. left.
       unfold redirect_one.
       by destruct (add_task_frame (random_priority (r1 d)) (random_critical (r2 d))
                      default_task_id (pick d) s) as (_ & _ & _ & ? & _). }
  10: { destruct (map_index 0 (processor_task_count s) processor_id) as [n count] eqn:Hm.
        injection Hstep as <- <-. simpl.
        right. exists processor_id. split; [by left|].
        apply map_index_lookup in Hm as [Hk Hne].
        destruct (0 <? n).
        - rewrite lookup_insert_eq. split; [done|]. intros j Hj.
          by rewrite lookup_insert_ne, Hne.
        - rewrite Hk. split; [done|]. done. }
  all: step_cases Hstep; by left.
Qed.

Lemma step_well_formed l s s' :
  step l s = Some s' → main_action l → well_formed s → well_formed s'.
Proof.
  intros Hstep Hl [Hqueue Hhand Hstatus Hcount Hproc].
  assert (∀ p q, p ∈ threads s' → processor_of p = Some q → 0 ≤ q ≤ 3) as Hproc'.
  { intros p q Hp Hq.
    destruct (step_threads_elem _ _ _ _ Hstep Hp)
      as [Hin|[->|(i & d & p0 & s1 & -> & Hi & Hw)]]; [by eapply Hproc|done|].
    destruct (processor_of_source _ _ _ _ _ _ _ Hw Hq) as [Hq0|[Hq0|Hq0]]; [|by apply Hstatus|done].
    eapply Hproc; [|done]. by eapply list_elem_of_lookup_2. }
  split; [| | | |done].
  - (* the queue *)
    intros t Ht.
    destruct (QuantumSimulator_claims.step_queue_change _ _ _ Hstep)
      as [Hq|i d t0 -> Hi Hi' Hpop|pr cr id pk -> Hq|i d t0 j k -> Hi _ Hq|i d t0 -> Hi Hq].
    + rewrite Hq in Ht. by apply Hqueue.
    + apply pq_pops_inv in Hpop as [_ Hperm]. apply Hqueue.
      rewrite Hperm. by right.
    + rewrite Hq in Ht. apply elem_of_cons in Ht as [->|Ht]; [done|by apply Hqueue].
    + rewrite Hq in Ht. apply elem_of_cons in Ht as [->|Ht]; [|by apply Hqueue].
      apply QuantumSimulator_claims.random_priority_range.
    + rewrite Hq in Ht. apply elem_of_cons in Ht as [->|Ht]; [|by apply Hqueue].
      eapply Hhand; [by eapply list_elem_of_lookup_2|done].
  - (* the tasks in hand *)
    intros p t Hp Ht.
    destruct (step_threads_elem _ _ _ _ Hstep Hp)
      as [Hin|[->|(i & d & p0 & s1 & -> & Hi & Hw)]]; [by eapply Hhand|done|].
    destruct (task_in_hand_source _ _ _ _ _ _ _ Hw Ht) as [Ht0|Ht0]; [|by apply Hqueue].
    eapply Hhand; [|done]. by eapply list_elem_of_lookup_2.
  - (* the status map *)
    intros q. rewrite <- Hstatus.
    destruct l as [i d|i|pr cr id pk|p|]; simpl in Hstep.
    + destruct (threads s !! i) as [p0|] eqn:Hi; [|done].
      destruct (worker_step i d p0 s) as [[p' s1]|] eqn:Hw; [|done].
      injection Hstep as <-. simpl.
      destruct (worker_step_status _ _ _ _ _ _ Hw) as [->|(t & q0 & -> & Hq0 & Hne)]; [done|].
      destruct (decide (q = q0)) as [->|Hq]; [|by rewrite Hne].
      rewrite Hq0. split; [|done]. intros _. apply Hstatus.
      eapply Hproc; [by eapply list_elem_of_lookup_2|done].
    + destruct (threads s !! i) as [[]|]; by simplify_eq.
    + injection Hstep as <-.
      by destruct (add_task_frame pr cr id pk s) as (_ & _ & -> & _).
    + injection Hstep as <-. destruct (repair_makes_healthy_aux p s) as [Hp Hne].
      destruct (decide (q = p)) as [->|Hq]; [|by rewrite Hne].
      rewrite Hp. split; [|done]. intros _. by apply Hstatus.
    + unfold stop_step in Hstep.
      destruct (stopping s); [| |destruct (all_exited (threads s))|]; by simplify_eq.
  - (* the counts *)
    intros q. rewrite <- Hcount.
    destruct l as [i d|i|pr cr id pk|p|]; simpl in Hstep.
    + destruct (threads s !! i) as [p0|] eqn:Hi; [|done].
      destruct (worker_step i d p0 s) as [[p' s1]|] eqn:Hw; [|done].
      injection Hstep as <-. simpl.
      destruct (worker_step_count _ _ _ _ _ _ Hw) as [->|(q0 & Hq0 & Hsome & Hne)]; [done|].
      destruct (decide (q = q0)) as [->|Hq]; [|by rewrite Hne].
      split; [|done]. intros _. apply Hcount. destruct Hq0 as [Hq0|Hq0].
      * eapply Hproc; [by eapply list_elem_of_lookup_2|done].
      * by apply Hstatus.
    + destruct (threads s !! i) as [[]|]; by simplify_eq.
    + injection Hstep as <-.
      by destruct (add_task_frame pr cr id pk s) as (_ & _ & _ & -> & _).
    + injection Hstep as <-.
      by destruct (processor_repair_cases p s) as [[_ ->]|[_ ->]].
    + unfold stop_step in Hstep.
      destruct (stopping s); [| |destruct (all_exited (threads s))|]; by simplify_eq.
Qed.

Lemma processors_lookup {V : Type} (v : V) q :
  is_Some (foldl (λ m i, <[i:=v]> m) (∅ : gmap Z V) processors !! q) ↔ 0 ≤ q ≤ 3.
Proof.
  simpl. rewrite !lookup_insert_is_Some, lookup_empty. split.
  - intros [<-|[_ [<-|[_ [<-|[_ [<-|[_ [? ?]]]]]]]]]; (lia || done).
  - intros Hq. destruct (decide (3 = q)); [by left|right; split; [done|]].
    destruct (decide (2 = q)); [by left|right; split; [done|]].
    destruct (decide (1 = q)); [by left|right; split; [done|]].
    left. lia.
Qed.

Lemma well_formed_init n : well_formed (init_with n).
Proof.
  split; simpl.
  - by intros t Ht%elem_of_nil.
  - by intros p t [-> _]%elem_of_replicate.
  - apply processors_lookup.
  - apply processors_lookup.
  - by intros p q [-> _]%elem_of_replicate.
Qed.

(** A step keeps the number of threads. *)
Lemma step_threads_length l s s' :
  step l s = Some s' → length (threads s') = length (threads s).
Proof.
  intros Hstep.
  assert (∀ n ths, length (wake_nth n ths) = length ths) as Hwake.
  { intros n ths. revert n. induction ths as [|p ths IH]; intros n; [done|].
    destruct p; simpl; rewrite ?IH; try done. destruct n; simpl; by rewrite ?IH. }
  destruct l as [i d|i|pr cr id pk|p|]; simpl in Hstep.
  - destruct (threads s !! i) as [p0|] eqn:Hi; [|done].
    destruct (worker_step i d p0 s) as [[p' s1]|] eqn:Hw; [|done].
    injection Hstep as <-. simpl. rewrite length_insert.
    destruct (QuantumSimulator_claims.worker_step_threads _ _ _ _ _ _ Hw) as [->|[pk ->]];
      [done|apply Hwake].
  - destruct (threads s !! i) as [[]|]; simplify_eq. simpl. by rewrite length_insert.
  - injection Hstep as <-.
    destruct (add_task_frame pr cr id pk s) as (_ & _ & _ & _ & _ & -> & _). apply Hwake.
  - injection Hstep as <-.
    by destruct (processor_repair_cases p s) as [[_ ->]|[_ ->]].
  - unfold stop_step in Hstep.
    destruct (stopping s); [| |destruct (all_exited (threads s))|]; simplify_eq; simpl;
      try done.
    unfold notify_all. by rewrite length_fmap.
Qed.

Lemma priority_dist_range r : 1 ≤ priority_dist r ≤ 5.
Proof. unfold priority_dist. pose proof (Z.mod_pos_bound (Z.of_nat r) 5). lia. Qed.

Lemma program_step_inv l pr pr' :
  program_step l pr = Some pr' → program_inv pr → program_inv pr'.
Proof.
  intros Hstep [Hcore Hlen Hrep].
  assert (∀ l0 c, step l0 (core pr) = Some c → main_action l0 →
                  program_inv (Program c (main pr))) as Hon.
  { intros l0 c Hs Hl0. split; simpl; [by eapply step_well_formed| |done].
    by rewrite (step_threads_length _ _ _ Hs). }
  destruct l as [d|i d|i]; simpl in Hstep.
  - unfold main_step in Hstep. destruct (main pr) as [|i|i j| |] eqn:Hm; simplify_eq.
    + (* start *)
      apply length_zero_iff_nil in Hlen.
      destruct Hcore as [Hqueue Hhand Hstatus Hcount Hproc].
      split; simpl; [|by rewrite Hlen|done]. unfold start. rewrite Hlen. simpl.
      split; simpl; try done.
      * intros p t Hp Ht. repeat (apply elem_of_cons in Hp as [->|Hp]; [done|]).
        by apply elem_of_nil in Hp.
      * intros p q Hp Hq. repeat (apply elem_of_cons in Hp as [->|Hp]; [done|]).
        by apply elem_of_nil in Hp.
    + (* add_task *)
      destruct (Hon (AddTask (priority_dist (r1 d)) (coin d) (Z.of_nat i + 1) (pick d))
                  (add_task (priority_dist (r1 d)) (coin d) (Z.of_nat i + 1) (pick d)
                     (core pr)) eq_refl (priority_dist_range _)) as [H1 H2 _].
      simpl in *. split; simpl; [done| |].
      * rewrite H2. by destruct (S i <? 40)%nat.
      * intros i0 j0. destruct (S i <? 40)%nat; [done|]. intros [= <- <-]. lia.
    + (* processor_repair *)
      specialize (Hrep i j eq_refl).
      destruct (Hon (Repair (Z.of_nat j)) (processor_repair (Z.of_nat j) (core pr))
                  eq_refl ltac:(simpl; lia)) as [H1 H2 _].
      simpl in *. split; simpl; [done| |].
      * rewrite H2. destruct (S j <? 4)%nat; [done|]. by destruct (S i <? 2)%nat.
      * intros i0 j0. destruct (S j <? 4)%nat eqn:Hj.
        -- intros [= <- <-]. by apply Nat.ltb_lt in Hj.
        -- destruct (S i <? 2)%nat; [|done]. intros [= <- <-]. lia.
    + (* stop *)
      destruct (stop_step (core pr)) as [c|] eqn:Hs; [|done]. injection Hstep as <-.
      destruct (Hon Stop c Hs I) as [H1 H2 _]. simpl in *.
      split; simpl; [done| |].
      * rewrite H2. by destruct (stopping c).
      * intros i0 j0. by destruct (stopping c).
  - unfold on_core in Hstep.
    destruct (step (Worker i d) (core pr)) as [c|] eqn:Hs; [|done].
    injection Hstep as <-. by apply (Hon (Worker i d)).
  - unfold on_core in Hstep.
    destruct (step (Wakeup i) (core pr)) as [c|] eqn:Hs; [|done].
    injection Hstep as <-. by apply (Hon (Wakeup i)).
Qed.

(** X11. In the program that [main] runs, every task, queued or in the
    hand of a worker, has a priority of 1..5, whether [main] or the
    redirection loop has made it; the processors are the four of the
    constructor, 0..3, in both maps ([operator[]] never adds an entry);
    and there are the ten workers of [start]. *)
Theorem program_tasks_and_processors pr :
  program_reachable pr →
  (∀ t, task_of (core pr) t → 1 ≤ priority t ≤ 5) ∧
  (∀ q, is_Some (processor_status (core pr) !! q) ↔ 0 ≤ q ≤ 3) ∧
  (∀ q, is_Some (processor_task_count (core pr) !! q) ↔ 0 ≤ q ≤ 3) ∧
  (∀ p q, p ∈ threads (core pr) → processor_of p = Some q → 0 ≤ q ≤ 3) ∧
  length (threads (core pr)) = workers_of (main pr).
Proof.
  intros [ls Hrun].
  assert (program_inv pr) as [[Hqueue Hhand Hstatus Hcount Hproc] Hlen _].
  { revert Hrun.
    assert (program_inv program_init) as H0.
    { split; [apply well_formed_init|done|done]. }
    revert H0. generalize program_init.
    induction ls as [|l ls IH]; intros pr0 H0 Hrun; simpl in Hrun.
    - by simplify_eq.
    - destruct (program_step l pr0) as [pr1|] eqn:Hs; [|done].
      eauto using program_step_inv. }
  split; [|done].
  intros t [Ht|(p & Hp & Ht)]; [by apply Hqueue|by eapply Hhand].
Qed.

(** [main] starts the workers and submits task 1; a worker takes it. *)
Lemma program_tasks_and_processors_witness :
  ∃ pr, program_run [Main tails; Main tails; Thread 0 tails; Thread 0 tails] program_init
        = Some pr ∧
        task_of (core pr) (Build_Task 1 false 1) ∧
        (∀ t, task_of (core pr) t → 1 ≤ priority t ≤ 5) ∧
        length (threads (core pr)) = 10%nat.
Proof.
  eexists. split; [vm_compute; reflexivity|].
  split.
  { right. exists (GateWait (Build_Task 1 false 1)). split; [|done].
    apply (list_elem_of_lookup_2 _ 0%nat). vm_compute. reflexivity. }
  match goal with
  | |- (∀ t, task_of (core ?pr) t → _) ∧ _ =>
      destruct (program_tasks_and_processors pr) as (H1 & _ & _ & _ & H5)
  end.
  - exists [Main tails; Main tails; Thread 0 tails; Thread 0 tails].
    vm_compute. reflexivity.
  - split; [exact H1|exact H5].
Defined.

(** *** [main] returns *)

Lemma reachable_step l s s' : reachable s → step l s = Some s' → reachable s'.
Proof.
  intros (n & ls & Hrun) Hs. exists n, (ls ++ [l]).
  rewrite run_app, Hrun. simpl. by rewrite Hs.
Qed.

Lemma program_run_app ls1 ls2 pr :
  program_run (ls1 ++ ls2) pr
  = match program_run ls1 pr with Some pr1 => program_run ls2 pr1 | None => None end.
Proof.
  revert pr. induction ls1 as [|l ls1 IH]; intros pr; simpl; [done|].
  by destruct (program_step l pr).
Qed.

Lemma step_stopping_kept l s s' :
  step l s = Some s' → l ≠ Stop → stopping s' = stopping s.
Proof.
  intros Hstep Hl. destruct l as [i d|i|pr cr id pk|p|]; simpl in Hstep; [| | | |done].
  - destruct (threads s !! i) as [p|] eqn:Hi; [|done].
    destruct (worker_step i d p s) as [[p' s1]|] eqn:Hw; [|done].
    injection Hstep as <-. simpl.
    by destruct (QuantumSimulator_claims.worker_step_flags _ _ _ _ _ _ Hw) as [_ ->].
  - destruct (threads s !! i) as [[]|]; by simplify_eq.
  - injection Hstep as <-.
    by destruct (add_task_frame pr cr id pk s) as (_ & _ & _ & _ & _ & _ & _ & -> & _).
  - injection Hstep as <-.
    by destruct (processor_repair_cases p s) as [[_ ->]|[_ ->]].
Qed.

(** Where every worker has left, nothing acts on the threads. *)
Lemma all_exited_stuck i s :
  all_exited (threads s) = true →
  (∀ d, step (Worker i d) s = None) ∧ step (Wakeup i) s = None.
Proof.
  intros Hex. split; [intros d|]; simpl.
  all: destruct (threads s !! i) as [p|] eqn:Hi; [|done].
  all: pose proof (forallb_lookup _ _ _ _ Hex Hi) as Hp; by destruct p.
Qed.

Lemma program_step_flow l pr pr' :
  program_step l pr = Some pr' → program_flow pr → program_flow pr'.
Proof.
  intros Hstep [Hcore Hstart Hbefore Hstopping Hreturned].
  assert (∀ l0 c, step l0 (core pr) = Some c → l0 ≠ Stop → main pr ≠ Returned →
                  main pr ≠ Starting → program_flow (Program c (main pr))) as Hon.
  { intros l0 c Hs Hl0 Hm Hm'. split; simpl.
    - by eapply reachable_step.
    - done.
    - intros H1 H2. rewrite (step_stopping_kept _ _ _ Hs Hl0). by apply Hbefore.
    - intros H1. rewrite (step_stopping_kept _ _ _ Hs Hl0). by apply Hstopping.
    - done. }
  destruct l as [d|i d|i]; simpl in Hstep.
  - unfold main_step in Hstep. destruct (main pr) as [|i|i j| |] eqn:Hm; simplify_eq.
    + rewrite (Hstart eq_refl). split; simpl; try done. by exists 10%nat, [].
    + destruct (Hon (AddTask (priority_dist (r1 d)) (coin d) (Z.of_nat i + 1) (pick d))
                  (add_task (priority_dist (r1 d)) (coin d) (Z.of_nat i + 1) (pick d)
                     (core pr)) eq_refl ltac:(done) ltac:(done) ltac:(done))
        as [H1 _ H2 _ _].
      simpl in *. split; simpl; [done| | | |]; try by destruct (S i <? 40)%nat.
      intros _ _. by apply H2.
    + destruct (Hon (Repair (Z.of_nat j)) (processor_repair (Z.of_nat j) (core pr))
                  eq_refl ltac:(done) ltac:(done) ltac:(done)) as [H1 _ H2 _ _].
      simpl in *. split; simpl; [done| | | |].
      * destruct (S j <? 4)%nat; [done|]. by destruct (S i <? 2)%nat.
      * intros _ _. by apply H2.
      * intros _. rewrite H2; done.
      * destruct (S j <? 4)%nat; [done|]. by destruct (S i <? 2)%nat.
    + destruct (stop_step (core pr)) as [c|] eqn:Hs; [|done]. injection Hstep as <-.
      split; simpl.
      * by apply (reachable_step Stop (core pr)).
      * by destruct (stopping c).
      * by destruct (stopping c).
      * by destruct (stopping c).
      * unfold stop_step in Hs.
        destruct (stopping (core pr)); [| |destruct (all_exited (threads (core pr))) eqn:Hex|];
          by simplify_eq.
  - unfold on_core in Hstep.
    destruct (step (Worker i d) (core pr)) as [c|] eqn:Hs; [|done].
    injection Hstep as <-. apply (Hon (Worker i d)); [done|done| |].
    + intros Hm. by rewrite (proj1 (all_exited_stuck i _ (Hreturned Hm)) d) in Hs.
    + intros Hm. by rewrite (Hstart Hm) in Hs.
  - unfold on_core in Hstep.
    destruct (step (Wakeup i) (core pr)) as [c|] eqn:Hs; [|done].
    injection Hstep as <-. apply (Hon (Wakeup i)); [done|done| |].
    + intros Hm. by rewrite (proj2 (all_exited_stuck i _ (Hreturned Hm))) in Hs.
    + intros Hm. by rewrite (Hstart Hm) in Hs.
Qed.

Lemma program_reachable_flow pr : program_reachable pr → program_flow pr.
Proof.
  intros [ls Hrun]. revert Hrun.
  assert (program_flow program_init) as H0.
  { split; simpl; try done. by exists 0%nat, []. }
  revert H0. generalize program_init.
  induction ls as [|l ls IH]; intros pr0 H0 Hrun; simpl in Hrun.
  - by simplify_eq.
  - destruct (program_step l pr0) as [pr1|] eqn:Hs; [|done].
    eauto using program_step_flow.
Qed.

(** [main] comes to [stop]: none of its calls before blocks. *)
Lemma main_reaches_stop n pr :
  (main_left (main pr) ≤ n)%nat → main pr ≠ Returned →
  ∃ k pr', program_run (replicate k (Main tails)) pr = Some pr' ∧ main pr' = Stopping.
Proof.
  revert pr. induction n as [|n IH]; intros pr Hn Hm.
  all: destruct (main pr) as [|i|i j| |] eqn:Hmain; simpl in Hn; try lia; try done.
  1,5: by exists 0%nat, pr.
  all: destruct (program_step (Main tails) pr) as [pr1|] eqn:Hs;
         [|by simpl in Hs; unfold main_step in Hs; rewrite Hmain in Hs].
  all: destruct (IH pr1) as (k & pr' & Hrun & Hpr');
         [simpl in Hs; unfold main_step in Hs; rewrite Hmain in Hs; injection Hs as <-; simpl
         |simpl in Hs; unfold main_step in Hs; rewrite Hmain in Hs; injection Hs as <-; simpl
         |exists (S k), pr'; simpl in *; by rewrite Hs].
  - lia.
  - done.
  - destruct (S i <? 40)%nat eqn:Hi; simpl; [apply Nat.ltb_lt in Hi|]; lia.
  - by destruct (S i <? 40)%nat.
  - destruct (S j <? 4)%nat eqn:Hj; simpl; [apply Nat.ltb_lt in Hj; lia|].
    destruct (S i <? 2)%nat eqn:Hi; simpl; [apply Nat.ltb_lt in Hi|]; lia.
  - destruct (S j <? 4)%nat; [done|]. by destruct (S i <? 2)%nat.
Qed.

(** The actions that end [stop], as actions of the program. *)
Lemma stop_lifts ls : ∀ c c',
  run ls c = Some c' → forallb shutdown_action ls = true →
  stopping c ≠ Stopped → stopping c' = Stopped →
  ∃ pls pr', program_run pls (Program c Stopping) = Some pr' ∧ main pr' = Returned ∧
             all_exited (threads (core pr')) = true.
Proof.
  induction ls as [|l ls IH]; intros c c' Hrun Hls Hc Hc'; simpl in Hrun.
  - by simplify_eq.
  - destruct (step l c) as [c1|] eqn:Hs; [|done].
    simpl in Hls. apply andb_true_iff in Hls as [Hl Hls].
    destruct l as [i d| | | |]; try done.
    + destruct (IH c1 c' Hrun Hls) as (pls & pr' & Hp & Hpr'); [|done|].
      { by rewrite (step_stopping_kept _ _ _ Hs). }
      exists (Thread i d :: pls), pr'. split; [|done].
      change (program_run (Thread i d :: pls) (Program c Stopping))
        with (match on_core (Worker i d) (Program c Stopping) with
              | Some pr1 => program_run pls pr1
              | None => None
              end).
      unfold on_core. cbn [core main]. by rewrite Hs.
    + simpl in Hs. destruct (decide (stopping c1 = Stopped)) as [Hst|Hst].
      * exists [Main tails]. eexists.
        cbn [program_run program_step]. unfold main_step. cbn [core main].
        rewrite Hs, Hst. split; [done|]. split; [done|]. cbn [core].
        unfold stop_step in Hs.
        destruct (stopping c); [| |destruct (all_exited (threads c)) eqn:Hex|];
          by simplify_eq.
      * destruct (IH c1 c' Hrun Hls Hst Hc') as (pls & pr' & Hp & Hpr').
        exists (Main tails :: pls), pr'. split; [|done].
        cbn [program_run program_step]. unfold main_step. cbn [core main].
        rewrite Hs. by destruct (stopping c1).
Qed.

(** X12. The program ends.  From every state of the program that [main]
    runs, the calls of [main] and the actions of the workers lead to the
    return of [stop]: no call of [main] blocks for ever and every one of
    the ten workers leaves [worker_thread]. *)
Theorem main_can_return pr :
  program_reachable pr →
  ∃ ls pr', program_run ls pr = Some pr' ∧ main pr' = Returned ∧
            all_exited (threads (core pr')) = true.
Proof.
  intros Hr. destruct (decide (main pr = Returned)) as [Hm|Hm].
  { exists [], pr. split; [done|]. split; [done|].
    by apply (flow_returned _ (program_reachable_flow _ Hr)). }
  destruct (main_reaches_stop _ pr (le_n _) Hm) as (k & pr1 & Hrun1 & Hm1).
  assert (program_flow pr1) as [Hcore _ _ Hstopping _].
  { apply program_reachable_flow. destruct Hr as [ls0 Hrun0].
    exists (ls0 ++ replicate k (Main tails)). by rewrite program_run_app, Hrun0. }
  destruct (stop_completes_from (core pr1) (reachable_inv _ Hcore)
              (reachable_redirect_bounded _ Hcore)
              (QuantumSimulator_claims.reachable_stop_inv _ Hcore) (Hstopping Hm1))
    as (ls & c' & Hrun & Hls & Hc' & _).
  destruct (stop_lifts ls (core pr1) c' Hrun Hls (Hstopping Hm1) Hc')
    as (pls & pr' & Hp & Hpr').
  exists (replicate k (Main tails) ++ pls), pr'. split; [|done].
  rewrite program_run_app, Hrun1.
  destruct pr1 as [c1 m1]. simpl in Hm1. by subst m1.
Qed.

(** The program before [start]. *)
Lemma main_can_return_witness :
  ∃ ls pr', program_run ls program_init = Some pr' ∧ main pr' = Returned ∧
            all_exited (threads (core pr')) = true.
Proof. apply main_can_return. by exists []. Defined.

(** *** The order of the queue *)

(** X13. [Task::operator<] is a strict weak order, as
    [std::priority_queue] requires of its comparison: irreflexive,
    transitive, and with a transitive equivalence.  Two tasks are
    equivalent exactly when they agree on the critical flag and on the
    priority; the id plays no part. *)
Theorem Task_order_strict_weak :
  (∀ a, Task_less a a = false) ∧
  (∀ a b c, Task_less a b = true → Task_less b c = true → Task_less a c = true) ∧
  (∀ a b, Task_less a b = false ∧ Task_less b a = false
          ↔ is_critical a = is_critical b ∧ priority a = priority b) ∧
  (∀ a b c, Task_less a b = false ∧ Task_less b a = false →
            Task_less b c = false ∧ Task_less c b = false →
            Task_less a c = false ∧ Task_less c a = false).
Proof.
  assert (∀ a b, Task_less a b = false ∧ Task_less b a = false
                 ↔ is_critical a = is_critical b ∧ priority a = priority b) as Heq.
  { intros a b. unfold Task_less.
    destruct (is_critical a), (is_critical b); simpl;
      rewrite ?Z.gtb_ltb, ?Z.ltb_ge; intuition (try done; lia). }
  split; [apply Task_less_irrefl|]. split; [apply Task_less_trans|]. split; [done|].
  intros a b c Hab Hbc. apply Heq in Hab as [H1 H2]. apply Heq in Hbc as [H3 H4].
  apply Heq. split; congruence.
Qed.

End QuantumSimulator_extra.


(** * Variant B: further properties of the code *)
Module EnergyMonitorSystem_extra.
Import EnergyMonitorSystem EnergyMonitorSystem_facts EnergyMonitorSystem_program.

Lemma server_run_app ls1 ls2 s :
  run (ls1 ++ ls2) s = match run ls1 s with Some s1 => run ls2 s1 | None => None end.
Proof.
  revert s. induction ls1 as [|l ls1 IH]; intros s; simpl; [done|].
  by destruct (step l s).
Qed.

Lemma server_reachable_step l s s' : reachable s → step l s = Some s' → reachable s'.
Proof.
  intros (ls & Hrun) Hs. exists (ls ++ [l]).
  rewrite server_run_app, Hrun. simpl. by rewrite Hs.
Qed.

(** *** The load and the handlers *)

Lemma step_load_grows l s s' :
  step l s = Some s' → inv s →
  current_load s ≤ current_load s' ∧
  (∀ packet load t, server s = Sleeping packet load t →
                    ∀ pick pt, l = Server pick pt →
                    Z.min 100 (current_load s + 10) ≤ current_load s').
Proof.
  intros Hstep [Hsem Hgate Hadd Hload Hlocal Htime Hhigh].
  destruct l as [pick pt| | | |]; simpl in Hstep.
  - unfold server_step in Hstep. destruct (server s) eqn:Hpc.
    11: { injection Hstep as <-. simpl.
          pose proof (Hlocal _ eq_refl) as ->.
          pose proof (Htime _ _ _ eq_refl) as Ht.
          rewrite next_load_min. unfold max_load in *.
          assert (10 ≤ processing_time ÷ 10) by (apply Z.quot_le_lower_bound; lia).
          split; [lia|]. intros. lia. }
    all: step_cases Hstep; simpl; split; (lia || done).
  - destruct (server s); simplify_eq; simpl; split; (lia || done).
  - injection Hstep as <-. simpl. split; (lia || done).
  - injection Hstep as <-. simpl. split; (lia || done).
  - unfold stop_step in Hstep.
    destruct (stopping s); [| |destruct (server s)|]; simplify_eq; simpl;
      split; (lia || done).
Qed.

Lemma step_handlers_grow l s s' :
  step l s = Some s' → inv s → additional_handlers s ≤ additional_handlers s'.
Proof.
  intros Hstep [Hsem Hgate Hadd Hload Hlocal Htime Hhigh].
  destruct (EnergyMonitorSystem_claims.step_additional _ _ _ Hstep)
    as [->|[(? & ? & ? & ? & _ & _ & _ & _ & _ & ->)
           |(? & ? & ? & new_load & _ & Hpc & Hlow & Hpos & _)]]; [lia|lia|].
  rewrite Hpc in Hlocal. specialize (Hlocal _ eq_refl). lia.
Qed.

(** X14. The load is a ratchet.  In no run does the load go down or the
    number of additional handlers decrease: every processed packet
    raises the load by at least 10 until it stands at 100, and the test
    that would remove a handler never succeeds, at any load and any
    number of handlers the program can come to. *)
Theorem load_and_handlers_never_decrease :
  (∀ ls s s', reachable s → run ls s = Some s' →
              current_load s ≤ current_load s' ∧
              additional_handlers s ≤ additional_handlers s') ∧
  (∀ pick pt s packet load t,
      reachable s → server s = Sleeping packet load t →
      ∃ s', step (Server pick pt) s = Some s' ∧
            Z.min 100 (current_load s + 10) ≤ current_load s') ∧
  (∀ pick pt s packet new_load,
      reachable s → server s = ShrinkCheck packet new_load →
      step (Server pick pt) s = Some (set_server (Post packet) s)).
Proof.
  split; [|split].
  - intros ls s s' Hs%server_reachable_inv Hrun. revert s Hs Hrun.
    induction ls as [|l ls IH]; intros s Hinv Hrun; simpl in Hrun.
    + simplify_eq. lia.
    + destruct (step l s) as [s1|] eqn:Hstep; [|done].
      pose proof (step_load_grows _ _ _ Hstep Hinv) as [H1 _].
      pose proof (step_handlers_grow _ _ _ Hstep Hinv) as H2.
      destruct (IH s1 (server_system_step_inv _ _ _ Hstep Hinv) Hrun). lia.
  - intros pick pt s packet load t Hs%server_reachable_inv Hpc.
    assert (is_Some (step (Server pick pt) s)) as [s' Hstep].
    { simpl. unfold server_step. by rewrite Hpc. }
    exists s'. split; [done|].
    by eapply (proj2 (step_load_grows _ _ _ Hstep Hs)).
  - intros pick pt s packet new_load Hs Hpc. simpl. unfold server_step. rewrite Hpc.
    by rewrite (EnergyMonitorSystem_claims.shrink_never_due _ _ _ Hs Hpc).
Qed.

(** *** The gate *)

Lemma step_grow_counted l s s' :
  step l s = Some s' → grow_counted s → inv s → grow_counted s'.
Proof.
  intros Hstep Hg [Hsem Hgate Hadd Hload Hlocal Htime Hhigh] packet load Hpc.
  destruct l as [pick pt| | | |]; simpl in Hstep.
  - unfold server_step in Hstep. destruct (server s) eqn:Hpc0;
      step_cases Hstep; simpl in *; try done. lia.
  - destruct (server s); by simplify_eq.
  - injection Hstep as <-. simpl in *. eapply Hg.
    destruct (server s); simpl in Hpc; try done.
  - injection Hstep as <-. simpl in *. by eapply Hg.
  - unfold stop_step in Hstep.
    destruct (stopping s); [| |destruct (server s) eqn:Hpc0|]; simplify_eq; simpl in *.
    + by eapply Hg.
    + eapply Hg. destruct (server s); simpl in Hpc; try done.
    + by rewrite Hpc0 in Hpc.
Qed.

Lemma reachable_grow_counted s : reachable s → grow_counted s.
Proof.
  intros [ls Hrun]. revert Hrun.
  assert (grow_counted init) as H0 by (by intros ? ?).
  revert H0. generalize inv_init_server. generalize init.
  induction ls as [|l ls IH]; intros s0 Hinv H0 Hrun; simpl in Hrun.
  - by simplify_eq.
  - destruct (step l s0) as [s1|] eqn:Hs; [|done].
    eauto using step_grow_counted, server_system_step_inv.
Qed.

Lemma reachable_semaphore_free s : reachable s → 1 ≤ data_semaphore s.
Proof.
  intros Hs. pose proof (reachable_grow_counted s Hs) as Hg.
  destruct (server_reachable_inv s Hs) as [Hsem Hgate Hadd Hload Hlocal Htime Hhigh].
  unfold capacity, base_handlers in *.
  destruct (server s) eqn:Hpc; simpl in *; try lia.
  specialize (Hg _ _ Hpc). lia.
Qed.

(** X15. The gate of the server is never closed.  The server is the only
    thread that takes slots and it holds one at a time, so at least one
    of the two or more slots is always free: neither wait on
    [data_semaphore] ever blocks, and the server holds at most one
    packet's slot whatever the capacity. *)
Theorem semaphore_never_exhausted s :
  reachable s →
  1 ≤ data_semaphore s ∧
  (∀ packet, server s = GateWait packet →
             capacity s ≤ data_semaphore s ∧
             ∀ pick pt, step (Server pick pt) s
                        = Some (set_server (ReadLoad packet)
                                  (set_data_semaphore (data_semaphore s - 1) s))) ∧
  (executing (server s) = 1 → held s = 1).
Proof.
  intros Hs. pose proof (reachable_grow_counted s Hs) as Hg.
  destruct (server_reachable_inv s Hs) as [Hsem Hgate Hadd Hload Hlocal Htime Hhigh].
  unfold held, capacity, base_handlers in *.
  split; [|split].
  - destruct (server s) eqn:Hpc; simpl in *; try lia.
    specialize (Hg _ _ Hpc). lia.
  - intros packet Hpc. rewrite Hpc in Hgate. simpl in Hgate. split; [lia|].
    intros pick pt. simpl. unfold server_step. rewrite Hpc.
    assert ((0 <? data_semaphore s) = true) as ->; [apply Z.ltb_lt; lia|done].
  - intros Hex. destruct (server s); simpl in *; try done; lia.
Qed.

(** A packet is queued and the server comes to the gate: both slots
    are free. *)
Lemma semaphore_never_exhausted_witness :
  ∃ s, run [Station 1 false 7; Server 0 100; Server 0 100] init = Some s ∧
       server s = GateWait (Build_DataPacket 1 false 7) ∧
       1 ≤ data_semaphore s ∧ capacity s ≤ data_semaphore s.
Proof.
  eexists. split; [vm_compute; reflexivity|]. split; [reflexivity|].
  match goal with
  | |- 1 ≤ data_semaphore ?s ∧ _ =>
      destruct (semaphore_never_exhausted s) as (H1 & H2 & _)
  end.
  - exists [Station 1 false 7; Server 0 100; Server 0 100]. vm_compute. reflexivity.
  - split; [exact H1|]. exact (proj1 (H2 _ eq_refl)).
Defined.

(** *** After shutdown *)

Lemma server_shutdown_kept l s s' :
  step l s = Some s' → shutdown s = true → shutdown s' = true.
Proof.
  intros Hstep Hsh. destruct l as [pick pt| | | |]; simpl in Hstep.
  - by destruct (EnergyMonitorSystem_claims.server_step_flags _ _ _ _ Hstep) as (-> & _).
  - destruct (server s); by simplify_eq.
  - by injection Hstep as <-.
  - by injection Hstep as <-.
  - unfold stop_step in Hstep.
    destruct (stopping s); [| |destruct (server s)|]; by simplify_eq.
Qed.

(** With the flag set every action of the server brings it nearer to
    the end of [server_handler], and it takes no packet. *)
Lemma server_step_steps_left pick pt s s' :
  server_step pick pt s = Some s' → shutdown s = true →
  (steps_left (server s') < steps_left (server s))%nat ∧
  data_packets s' = data_packets s.
Proof.
  intros Hstep Hsh. unfold server_step in Hstep. rewrite Hsh in Hstep.
  destruct (server s) eqn:Hpc; step_cases Hstep; simpl; split; (lia || done).
Qed.

Lemma step_server_steps_left l s s' :
  step l s = Some s' → shutdown s = true →
  (server_actions [l] + steps_left (server s') ≤ steps_left (server s))%nat.
Proof.
  intros Hstep Hsh. destruct l as [pick pt| | | |]; simpl in Hstep.
  - pose proof (server_step_steps_left _ _ _ _ Hstep Hsh) as [Hlt _]. simpl. lia.
  - destruct (server s) eqn:Hpc; simplify_eq. simpl. lia.
  - injection Hstep as <-. simpl. destruct (server s); simpl; lia.
  - injection Hstep as <-. simpl. lia.
  - unfold stop_step in Hstep.
    destruct (stopping s); [| |destruct (server s) eqn:Hpc|]; simplify_eq; simpl;
      rewrite ?Hpc; try lia.
    all: destruct (server s); simpl; lia.
Qed.

(** X16. Once the shutdown flag is set the server leaves
    [server_handler] after a bounded number of its own actions,
    whatever the stations and [main] do: at most [steps_left] of them,
    which is at most 11 (the actions left for the packet it has in
    hand) and at most 1 if it has no packet; when it has taken that
    many, it has left [server_handler]. *)
Theorem server_exits_after_shutdown ls s s' :
  shutdown s = true → run ls s = Some s' →
  (server_actions ls ≤ steps_left (server s) ≤ 11)%nat ∧
  (packet_in_hand (server s) = None → server_actions ls ≤ 1)%nat ∧
  (server_actions ls = steps_left (server s) → server s' = Exited).
Proof.
  intros Hsh Hrun.
  assert (server_actions ls + steps_left (server s') ≤ steps_left (server s))%nat as Hle.
  { revert s Hsh Hrun. induction ls as [|l ls IH]; intros s Hsh Hrun; simpl in Hrun.
    - simplify_eq. simpl. lia.
    - destruct (step l s) as [s1|] eqn:Hs; [|done].
      pose proof (step_server_steps_left _ _ _ Hs Hsh) as H1.
      pose proof (IH s1 (server_shutdown_kept _ _ _ Hs Hsh) Hrun) as H2.
      assert (server_actions (l :: ls) = server_actions [l] + server_actions ls)%nat
        as -> by (by destruct l).
      lia. }
  split; [|split].
  - destruct (server s); simpl in *; lia.
  - intros Hnone. destruct (server s); simpl in *; try done; lia.
  - intros Heq. destruct (server s'); simpl in Hle; try done; lia.
Qed.

(** In [late_run] the flag is set while the server stands at the gate
    with its packet; it processes the packet and leaves. *)
Lemma server_exits_after_shutdown_witness :
  ∃ s s', run (take 5 late_run) init = Some s ∧
          run (replicate 9 (Server 0 100)) s = Some s' ∧
          server s = GateWait (Build_DataPacket 1 false 7) ∧
          server s' = Exited ∧
          (server_actions (replicate 9 (Server 0 100)) ≤ steps_left (server s) ≤ 11)%nat.
Proof.
  eexists _, _. split; [vm_compute; reflexivity|].
  match goal with
  | |- run ?ls ?s = Some ?s' ∧ _ =>
      assert (Hs : run ls s = Some s') by (vm_compute; reflexivity)
  end.
  split; [exact Hs|]. split; [vm_compute; reflexivity|].
  split; [vm_compute; reflexivity|].
  apply (server_exits_after_shutdown _ _ _) with (2 := Hs). vm_compute. reflexivity.
Defined.

(** *** The program of [main] *)

Lemma monitor_step_frame l s s' :
  step l s = Some s' →
  (l ≠ Stop → shutdown s' = shutdown s ∧ stopping s' = stopping s) ∧
  (l ≠ Emergency → emergency_mode s' = emergency_mode s).
Proof.
  intros Hstep. destruct l as [pick pt| | | |]; simpl in Hstep.
  - destruct (EnergyMonitorSystem_claims.server_step_flags _ _ _ _ Hstep) as (H1 & H2 & _).
    split; [done|]. intros _. unfold server_step in Hstep.
    destruct (server s); step_cases Hstep; done.
  - destruct (server s); by simplify_eq.
  - by injection Hstep as <-.
  - by injection Hstep as <-.
  - split; [done|]. intros _. unfold stop_step in Hstep.
    destruct (stopping s); [| |destruct (server s)|]; by simplify_eq.
Qed.

(** The packets after a step: those before, or the one a station has
    sent. *)
Lemma step_packets l s s' x :
  step l s = Some s' → packet_of s' x →
  packet_of s x ∨
  ∃ pri crit id, l = Station pri crit id ∧ x = Build_DataPacket pri crit id.
Proof.
  intros Hstep Hx. destruct l as [pick pt| | pri crit id | |]; simpl in Hstep.
  - left. unfold server_step in Hstep. destruct (server s) eqn:Hpc.
    2: { destruct (shutdown s); [simplify_eq; destruct Hx as [Hx|Hx]; [by left|done]|].
         destruct (data_packets s) as [|x0 q] eqn:Hq;
           [simplify_eq; destruct Hx as [Hx|Hx]; [by left|done]|].
         destruct (pq_pop_at DataPacket_less pick (x0 :: q)) as [[y q']|] eqn:Hpop; [|done].
         injection Hstep as <-.
         assert (pq_pops DataPacket_less (x0 :: q) y q') as Hpops by (by exists pick).
         apply pq_pops_inv in Hpops as [_ Hperm]. left. rewrite Hq, Hperm.
         destruct Hx as [Hx|Hx]; simpl in Hx; [by right|].
         injection Hx as ->. by left. }
    all: step_cases Hstep; destruct Hx as [Hx|Hx]; simpl in Hx;
      try done; try (by left); try (right; by rewrite Hpc).
  - destruct (server s) eqn:Hpc; simplify_eq. left.
    destruct Hx as [Hx|Hx]; [by left|done].
  - injection Hstep as <-. destruct Hx as [Hx|Hx]; simpl in Hx.
    + apply elem_of_cons in Hx as [->|Hx]; [right; by exists pri, crit, id|left; by left].
    + left. right. by destruct (server s).
  - injection Hstep as <-. by left.
  - left. unfold stop_step in Hstep.
    destruct (stopping s); [| |destruct (server s) eqn:Hpc|]; simplify_eq;
      destruct Hx as [Hx|Hx]; simpl in Hx; try (by left); try (by right).
    right. by destruct (server s).
Qed.

(** [stop], by the action it takes. *)
Lemma stop_step_cases s c :
  stop_step s = Some c →
  (stopping s = StopNotCalled ∧ stopping c = StopFlagSet ∧ shutdown c = true) ∨
  (stopping s = StopFlagSet ∧ stopping c = StopJoining ∧ shutdown c = shutdown s) ∨
  (stopping s = StopJoining ∧ stopping c = Stopped ∧ shutdown c = shutdown s ∧
   server s = Exited ∧ server c = Exited).
Proof.
  unfold stop_step. intros Hs.
  destruct (stopping s); [| |destruct (server s) eqn:Hpc|]; simplify_eq; simpl; auto.
  right. right. by rewrite Hpc.
Qed.

Lemma elem_of_stations_insert (sts : list station_pc) (i : nat) st x :
  x ∈ <[i:=st]> sts → x = st ∨ x ∈ sts.
Proof. apply elem_of_insert_inv. Qed.

Lemma all_stations_exited_lookup sts (i : nat) st :
  all_stations_exited sts = true → sts !! i = Some st → st = StationExited.
Proof.
  intros Hall Hi. pose proof (forallb_lookup _ _ _ _ Hall Hi) as H. by destruct st.
Qed.

Lemma monitor_priority_range r : 1 ≤ priority_dist r ≤ 5.
Proof. unfold priority_dist. pose proof (Z.mod_pos_bound (Z.of_nat r) 5). lia. Qed.

Lemma monitor_step_inv l pr pr' :
  program_step l pr = Some pr' → program_inv pr → program_inv pr'.
Proof.
  intros Hstep [Hcore Hpk Hsend Hlen Hflag Hstart Hnormal Hem Hinem Hstopping Hret].
  assert (∀ l0 c sts,
            step l0 (core pr) = Some c → l0 ≠ Stop → l0 ≠ Emergency →
            (∀ p cr i, l0 = Station p cr i → 1 ≤ p ≤ 5 ∧ 0 ≤ i ≤ 9) →
            main pr ≠ Starting → main pr ≠ Returned →
            length sts = length (stations pr) →
            (∀ pri crit, StationSend pri crit ∈ sts → 1 ≤ pri ≤ 5) →
            program_inv (Program c sts (main pr))) as Hon.
  { intros l0 c sts Hs Hl1 Hl2 Hl3 Hm1 Hm2 Hsts Hsends.
    destruct (monitor_step_frame _ _ _ Hs) as [Hf1 Hf2].
    destruct (Hf1 Hl1) as [Hsh Hst]. specialize (Hf2 Hl2).
    split; simpl; rewrite ?Hsh, ?Hst, ?Hf2; try done.
    - by eapply server_reachable_step.
    - intros x Hx.
      destruct (step_packets _ _ _ _ Hs Hx) as [Hx0|(p & cr & i & -> & ->)]; [by apply Hpk|].
      simpl. by eapply Hl3.
    - by rewrite Hsts. }
  destruct l as [|pick pt| |i r coin ms]; simpl in Hstep.
  - (* main *)
    unfold main_step in Hstep. destruct (main pr) eqn:Hm.
    + injection Hstep as <-. rewrite (Hstart eq_refl) in *.
      split; simpl; try done.
      intros pri crit Hx. repeat (apply elem_of_cons in Hx as [?|Hx]; [done|]).
      by apply elem_of_nil in Hx.
    + injection Hstep as <-. destruct (Hnormal eq_refl) as [Hst Hemf].
      split; simpl; try done.
      all: try by apply (server_reachable_step Emergency (core pr)).
    + rewrite (Hinem eq_refl) in Hstep.
      destruct (stop_step (core pr)) as [c|] eqn:Hs; [|done]. injection Hstep as <-.
      destruct (stop_step_cases _ _ Hs)
        as [(H1 & H2 & H3)|[(H1 & _)|(H1 & _)]]; rewrite (Hinem eq_refl) in H1; try done.
      rewrite H2. split; simpl; rewrite ?H2; try done.
      * by apply (server_reachable_step Stop (core pr)).
      * intros x Hx.
        destruct (step_packets Stop _ _ _ Hs Hx) as [Hx0|(? & ? & ? & [=] & _)].
        by apply Hpk.
      * intros _ _.
        rewrite (proj2 (monitor_step_frame Stop _ _ Hs) ltac:(done)). by apply Hem.
      * intros _. by left.
    + destruct (match stopping (core pr) with
                | StopJoining => all_stations_exited (stations pr)
                | _ => true
                end) eqn:Hguard; [|done].
      destruct (stop_step (core pr)) as [c|] eqn:Hs; [|done]. injection Hstep as <-.
      assert (emergency_mode c = true) as Hemc.
      { rewrite (proj2 (monitor_step_frame Stop _ _ Hs) ltac:(done)). by apply Hem. }
      assert (∀ x, packet_of c x → 1 ≤ priority x ≤ 5 ∧ 0 ≤ station_id x ≤ 9) as Hpkc.
      { intros x Hx.
        destruct (step_packets Stop _ _ _ Hs Hx) as [Hx0|(? & ? & ? & [=] & _)].
        by apply Hpk. }
      pose proof (server_reachable_step Stop _ _ Hcore Hs) as Hcorec.
      destruct (stop_step_cases _ _ Hs)
        as [(H1 & H2 & H3)|[(H1 & H2 & H3)|(H1 & H2 & H3 & H4 & H5)]].
      * destruct (Hstopping eq_refl) as [H|H]; rewrite H in H1; done.
      * rewrite H2. split; simpl; rewrite ?H2; try done. intros _. by right.
      * rewrite H1 in Hguard. rewrite H2. split; simpl; rewrite ?H2; try done.
    + done.
  - (* the server *)
    unfold on_core in Hstep. destruct (decide (main pr = Starting)) as [Hm|Hm].
    { by rewrite Hm in Hstep. }
    assert (match main pr with Starting => None | _ =>
              match step (Server pick pt) (core pr) with
              | Some c => Some (Program c (stations pr) (main pr))
              | None => None
              end end
            = match step (Server pick pt) (core pr) with
              | Some c => Some (Program c (stations pr) (main pr))
              | None => None
              end) as Heq by (by destruct (main pr)).
    rewrite Heq in Hstep. clear Heq.
    destruct (step (Server pick pt) (core pr)) as [c|] eqn:Hs; [|done].
    injection Hstep as <-. apply (Hon (Server pick pt)); try done.
    intros Hr. destruct (Hret Hr) as [Hex _]. simpl in Hs. unfold server_step in Hs.
    by rewrite Hex in Hs.
  - (* a spurious wake-up *)
    unfold on_core in Hstep. destruct (decide (main pr = Starting)) as [Hm|Hm].
    { by rewrite Hm in Hstep. }
    assert (match main pr with Starting => None | _ =>
              match step Wakeup (core pr) with
              | Some c => Some (Program c (stations pr) (main pr))
              | None => None
              end end
            = match step Wakeup (core pr) with
              | Some c => Some (Program c (stations pr) (main pr))
              | None => None
              end) as Heq by (by destruct (main pr)).
    rewrite Heq in Hstep. clear Heq.
    destruct (step Wakeup (core pr)) as [c|] eqn:Hs; [|done].
    injection Hstep as <-. apply (Hon Wakeup); try done.
    intros Hr. destruct (Hret Hr) as [Hex _]. simpl in Hs. by rewrite Hex in Hs.
  - (* a station *)
    destruct (stations pr !! i) as [st|] eqn:Hi; [|done].
    assert (main pr ≠ Starting) as Hm1.
    { intros Hm. rewrite Hm in Hlen. simpl in Hlen.
      apply length_zero_iff_nil in Hlen. by rewrite Hlen in Hi. }
    assert (i < 10)%nat as Hi10.
    { apply lookup_lt_Some in Hi. rewrite Hlen in Hi. by destruct (main pr). }
    assert (main pr ≠ Returned) as Hm2.
    { intros Hr. destruct (Hret Hr) as [_ Hall].
      rewrite (all_stations_exited_lookup _ _ _ Hall Hi) in Hstep. done. }
    destruct st as [|pri crit|ms0|]; simpl in Hstep; [| | |done].
    + injection Hstep as <-.
      assert (program_inv (Program (core pr) (stations pr) (main pr))) as Hpr.
      { by split. }
      destruct Hpr. split; simpl in *; try done.
      * intros p c [Hx|Hx]%elem_of_stations_insert; [|by eapply Hsend].
        destruct (shutdown (core pr)); [done|]. injection Hx as -> _.
        apply monitor_priority_range.
      * by rewrite length_insert.
    + destruct (0 <=? ms); [|done]. injection Hstep as <-.
      apply (Hon (Station pri crit (Z.of_nat i))); try done.
      * intros p c j [= <- <- <-]. split; [|lia].
        eapply Hsend. by eapply list_elem_of_lookup_2.
      * by rewrite length_insert.
      * intros p c [Hx|Hx]%elem_of_stations_insert; [done|by eapply Hsend].
    + injection Hstep as <-.
      assert (program_inv (Program (core pr) (stations pr) (main pr))) as Hpr.
      { by split. }
      destruct Hpr. split; simpl in *; try done.
      * intros p c [Hx|Hx]%elem_of_stations_insert; [done|by eapply Hsend].
      * by rewrite length_insert.
Qed.

Lemma monitor_reachable_inv pr : program_reachable pr → program_inv pr.
Proof.
  intros [ls Hrun]. revert Hrun.
  assert (program_inv program_init) as H0.
  { split; simpl; try done.
    - by exists [].
    - intros x [Hx|Hx]; [by apply elem_of_nil in Hx|done].
    - intros ? ? Hx. by apply elem_of_nil in Hx. }
  revert H0. generalize program_init.
  induction ls as [|l ls IH]; intros pr0 H0 Hrun; simpl in Hrun.
  - by simplify_eq.
  - destruct (program_step l pr0) as [pr1|] eqn:Hs; [|done].
    eauto using monitor_step_inv.
Qed.

(** X17. In the program that [main] runs, every packet, queued or in the
    hand of the server, has a priority of 1..5 and the id of one of the
    ten stations; [stop] is called only after the emergency has been
    declared, so the flag is never set in normal mode; and when [main]
    has returned, the server and the ten stations have left their
    loops. *)
Theorem program_packets_and_modes pr :
  program_reachable pr →
  (∀ x, packet_of (core pr) x → 1 ≤ priority x ≤ 5 ∧ 0 ≤ station_id x ≤ 9) ∧
  (shutdown (core pr) = true → emergency_mode (core pr) = true) ∧
  length (stations pr) = stations_of (main pr) ∧
  (main pr = Returned →
   server (core pr) = Exited ∧ all_stations_exited (stations pr) = true).
Proof.
  intros [Hcore Hpk Hsend Hlen Hflag Hstart Hnormal Hem Hinem Hstopping Hret]
    %monitor_reachable_inv.
  split; [done|]. split; [|done].
  intros Hsh. destruct (decide (main pr = Starting)) as [Hm|Hm1].
  { by rewrite (Hstart Hm) in Hsh. }
  destruct (decide (main pr = Normal)) as [Hm|Hm2]; [|by apply Hem].
  destruct (Hnormal Hm) as [Hst _]. by rewrite (Hflag Hst) in Hsh.
Qed.

(** [main] starts the threads; station 3 draws a packet and sends it. *)
Lemma program_packets_and_modes_witness :
  ∃ pr, program_run [Main; StationThread 3 7 true 0; StationThread 3 7 true 120]
          program_init = Some pr ∧
        packet_of (core pr) (Build_DataPacket 3 true 3) ∧
        (∀ x, packet_of (core pr) x → 1 ≤ priority x ≤ 5 ∧ 0 ≤ station_id x ≤ 9) ∧
        length (stations pr) = 10%nat.
Proof.
  eexists. split; [vm_compute; reflexivity|].
  split; [left; vm_compute; by left|].
  match goal with
  | |- (∀ x, packet_of (core ?pr) x → _) ∧ _ =>
      destruct (program_packets_and_modes pr) as (H1 & _ & H3 & _)
  end.
  - exists [Main; StationThread 3 7 true 0; StationThread 3 7 true 120].
    vm_compute. reflexivity.
  - split; [exact H1|exact H3].
Defined.

(** *** The packets sent after shutdown *)

Lemma about_to_send_nonneg sts : 0 ≤ total about_to_send sts.
Proof. apply total_nonneg. intros []; simpl; lia. Qed.

Lemma about_to_send_bound sts : total about_to_send sts ≤ Z.of_nat (length sts).
Proof. induction sts as [|[] sts IH]; simpl in *; lia. Qed.

Lemma monitor_step_after_shutdown l pr pr' :
  program_step l pr = Some pr' → shutdown (core pr) = true →
  shutdown (core pr') = true ∧
  ∃ pushed, data_packets (core pr') = pushed ++ data_packets (core pr) ∧
            Z.of_nat (length pushed) + total about_to_send (stations pr')
            ≤ total about_to_send (stations pr).
Proof.
  intros Hstep Hsh.
  assert (∀ l0 c, step l0 (core pr) = Some c → (∀ p cr i, l0 ≠ Station p cr i) →
                  shutdown c = true ∧ data_packets c = data_packets (core pr)) as Hcore.
  { intros l0 c Hs Hl. split; [by eapply server_shutdown_kept|].
    destruct l0 as [pick pt| |p cr i| |]; simpl in Hs.
    - by destruct (server_step_steps_left _ _ _ _ Hs Hsh).
    - destruct (server (core pr)); by simplify_eq.
    - by destruct (Hl p cr i).
    - by injection Hs as <-.
    - unfold stop_step in Hs.
      destruct (stopping (core pr)); [| |destruct (server (core pr))|]; by simplify_eq. }
  destruct l as [|pick pt| |i r coin ms]; simpl in Hstep.
  - unfold main_step in Hstep. destruct (main pr) eqn:Hm; [| | | |done].
    + injection Hstep as <-. simpl. split; [done|]. exists []. split; [done|].
      pose proof (about_to_send_nonneg (stations pr)). simpl. lia.
    + injection Hstep as <-. simpl. split; [done|]. exists []. split; [done|]. simpl. lia.
    + destruct (match stopping (core pr) with
                | StopJoining => all_stations_exited (stations pr) | _ => true end);
        [|done].
      destruct (stop_step (core pr)) as [c|] eqn:Hs; [|done]. injection Hstep as <-.
      destruct (Hcore Stop c Hs ltac:(done)) as [H1 H2]. simpl.
      split; [done|]. exists []. split; [done|]. simpl. lia.
    + destruct (match stopping (core pr) with
                | StopJoining => all_stations_exited (stations pr) | _ => true end);
        [|done].
      destruct (stop_step (core pr)) as [c|] eqn:Hs; [|done]. injection Hstep as <-.
      destruct (Hcore Stop c Hs ltac:(done)) as [H1 H2]. simpl.
      split; [done|]. exists []. split; [done|]. simpl. lia.
  - unfold on_core in Hstep. destruct (main pr); [done|..];
      (destruct (step (Server pick pt) (core pr)) as [c|] eqn:Hs; [|done]);
      injection Hstep as <-;
      destruct (Hcore _ c Hs ltac:(done)) as [H1 H2]; simpl;
      (split; [done|]); exists []; (split; [done|]); simpl; lia.
  - unfold on_core in Hstep. destruct (main pr); [done|..];
      (destruct (step Wakeup (core pr)) as [c|] eqn:Hs; [|done]);
      injection Hstep as <-;
      destruct (Hcore _ c Hs ltac:(done)) as [H1 H2]; simpl;
      (split; [done|]); exists []; (split; [done|]); simpl; lia.
  - destruct (stations pr !! i) as [st|] eqn:Hi; [|done].
    destruct st as [|pri crit|ms0|]; simpl in Hstep; [| | |done].
    + rewrite Hsh in Hstep. injection Hstep as <-. simpl.
      split; [done|]. exists []. split; [done|].
      rewrite (total_insert _ _ _ _ _ Hi). simpl. lia.
    + destruct (0 <=? ms); [|done]. injection Hstep as <-. simpl.
      split; [done|]. exists [Build_DataPacket pri crit (Z.of_nat i)]. split; [done|].
      rewrite (total_insert _ _ _ _ _ Hi). simpl. lia.
    + injection Hstep as <-. simpl.
      split; [done|]. exists []. split; [done|].
      rewrite (total_insert _ _ _ _ _ Hi). simpl. lia.
Qed.

(** X18. Once the shutdown flag is set, a station sends at most the one
    packet it has already drawn, and the server takes none: the queue
    keeps the packets it has and gains at most one per station that has
    passed its loop test, so at most one per station. *)
Theorem packets_after_shutdown ls pr pr' :
  program_run ls pr = Some pr' → shutdown (core pr) = true →
  shutdown (core pr') = true ∧
  ∃ pushed, data_packets (core pr') = pushed ++ data_packets (core pr) ∧
            Z.of_nat (length pushed) + total about_to_send (stations pr')
            ≤ total about_to_send (stations pr) ∧
            (length pushed ≤ length (stations pr))%nat.
Proof.
  intros Hrun Hsh.
  assert (shutdown (core pr') = true ∧
          ∃ pushed, data_packets (core pr') = pushed ++ data_packets (core pr) ∧
                    Z.of_nat (length pushed) + total about_to_send (stations pr')
                    ≤ total about_to_send (stations pr)) as (H1 & pushed & H2 & H3).
  { revert pr Hrun Hsh. induction ls as [|l ls IH]; intros pr Hrun Hsh; simpl in Hrun.
    - simplify_eq. split; [done|]. exists []. split; [done|]. simpl. lia.
    - destruct (program_step l pr) as [pr1|] eqn:Hs; [|done].
      destruct (monitor_step_after_shutdown _ _ _ Hs Hsh) as (Hsh1 & new1 & Hq1 & Hle1).
      destruct (IH pr1 Hrun Hsh1) as (Hsh' & new & Hq & Hle).
      split; [done|]. exists (new ++ new1). rewrite Hq, Hq1, <- app_assoc.
      split; [done|]. rewrite length_app. lia. }
  split; [done|]. exists pushed. split; [done|]. split; [done|].
  pose proof (about_to_send_bound (stations pr)).
  pose proof (about_to_send_nonneg (stations pr')). lia.
Qed.

(** Station 3 has drawn its packet when [stop] sets the flag; it sends
    the packet and leaves, and the packet stays in the queue. *)
Lemma packets_after_shutdown_witness :
  ∃ pr pr', program_run [Main; StationThread 3 7 true 0; Main; Main] program_init
            = Some pr ∧
            program_run [StationThread 3 0 false 120; StationThread 3 0 false 0;
                         StationThread 3 0 false 0; ServerThread 0 100] pr = Some pr' ∧
            stations pr' !! 3%nat = Some StationExited ∧
            server (core pr') = Exited ∧
            ∃ pushed, data_packets (core pr') = pushed ++ data_packets (core pr) ∧
                      Z.of_nat (length pushed) + total about_to_send (stations pr')
                      ≤ total about_to_send (stations pr) ∧
                      (length pushed ≤ length (stations pr))%nat.
Proof.
  eexists _, _. split; [vm_compute; reflexivity|].
  match goal with
  | |- program_run ?ls ?pr = Some ?pr' ∧ _ =>
      assert (Hs : program_run ls pr = Some pr') by (vm_compute; reflexivity)
  end.
  split; [exact Hs|]. split; [vm_compute; reflexivity|].
  split; [vm_compute; reflexivity|].
  apply (packets_after_shutdown _ _ _ Hs). vm_compute. reflexivity.
Defined.

(** *** [main] returns *)

Lemma monitor_run_app ls1 ls2 pr :
  program_run (ls1 ++ ls2) pr
  = match program_run ls1 pr with Some pr1 => program_run ls2 pr1 | None => None end.
Proof.
  revert pr. induction ls1 as [|l ls1 IH]; intros pr; simpl; [done|].
  by destruct (program_step l pr).
Qed.

Lemma monitor_reachable_run ls pr pr' :
  program_reachable pr → program_run ls pr = Some pr' → program_reachable pr'.
Proof.
  intros [ls0 Hrun0] Hrun. exists (ls0 ++ ls). by rewrite monitor_run_app, Hrun0.
Qed.

(** [main] comes to the joins of [stop]: none of its calls before
    blocks. *)
Lemma main_reaches_join pr :
  program_inv pr → main pr ≠ Returned →
  ∃ ls pr', program_run ls pr = Some pr' ∧ main pr' = Stopping ∧
            stopping (core pr') = StopJoining.
Proof.
  intros [Hcore Hpk Hsend Hlen Hflag Hstart Hnormal Hem Hinem Hstopping Hret] Hm.
  destruct pr as [c sts m]. simpl in *. destruct m; [| | | |done].
  - rewrite (Hstart eq_refl). exists [Main; Main; Main; Main]. eexists.
    split; [vm_compute; reflexivity|]. done.
  - destruct (Hnormal eq_refl) as [Hst _].
    exists [Main; Main; Main]. eexists. simpl. unfold main_step, stop_step. simpl.
    rewrite Hst. simpl. done.
  - specialize (Hinem eq_refl).
    exists [Main; Main]. eexists. simpl. unfold main_step, stop_step. simpl.
    rewrite Hinem. simpl. done.
  - destruct (Hstopping eq_refl) as [Hst|Hst].
    + exists [Main]. eexists. simpl. unfold main_step, stop_step. simpl.
      rewrite Hst. simpl. done.
    + by exists [], (Program c sts Stopping).
Qed.

Lemma wake_steps_left p : steps_left (wake p) = steps_left p.
Proof. by destruct p. Qed.

(** With the flag set the server has an action until it has left: it
    never waits at the gate. *)
Lemma server_step_enabled s :
  reachable s → shutdown s = true → server s ≠ QueueWait → server s ≠ Exited →
  ∃ s', server_step 0 100 s = Some s' ∧
        (steps_left (server s') < steps_left (server s))%nat ∧
        stopping s' = stopping s.
Proof.
  intros Hs Hsh Hw Hex.
  pose proof (reachable_semaphore_free s Hs) as Hsem.
  assert (is_Some (server_step 0 100 s)) as [s' Hstep].
  { unfold server_step. rewrite Hsh.
    assert ((0 <? data_semaphore s) = true) as -> by (apply Z.ltb_lt; lia).
    destruct (server s); simpl; try done; try by eexists.
    - by destruct ((load >? 80) && (additional_handlers s <? max_additional_handlers)).
    - destruct (emergency_mode s); [|by eexists].
      by destruct ((priority packet >? 3) && negb (is_critical packet)).
    - by destruct ((new_load <? 50) && (additional_handlers s >? 0)). }
  exists s'. split; [done|].
  split; [by apply (server_step_steps_left _ _ _ _ Hstep Hsh)|].
  by destruct (EnergyMonitorSystem_claims.server_step_flags _ _ _ _ Hstep) as (_ & -> & _).
Qed.

(** While [stop] joins, a thread that has not left can act. *)
Lemma some_thread_steps pr :
  program_reachable pr → main pr = Stopping → stopping (core pr) = StopJoining →
  (all_stations_exited (stations pr) = true ∧ server (core pr) = Exited) ∨
  ∃ l pr1, program_step l pr = Some pr1 ∧ main pr1 = Stopping ∧
           stopping (core pr1) = StopJoining ∧ program_left pr1 < program_left pr.
Proof.
  intros Hr Hm Hst.
  destruct (monitor_reachable_inv _ Hr)
    as [Hcore _ _ _ _ _ _ _ _ _ _].
  pose proof (EnergyMonitorSystem_claims.server_reachable_stop_inv _ Hcore)
    as [Hflag Hwoken].
  assert (shutdown (core pr) = true) as Hsh by (apply Hflag; by rewrite Hst).
  destruct (all_stations_exited (stations pr)) eqn:Hall.
  - destruct (decide (server (core pr) = Exited)) as [Hex|Hex]; [by left|]. right.
    destruct (server_step_enabled _ Hcore Hsh (Hwoken (or_introl Hst)) Hex)
      as (c & Hstep & Hlt & Hstc).
    exists (ServerThread 0 100), (Program c (stations pr) (main pr)).
    split; [|split; [done|split; [simpl; congruence|]]].
    + simpl. unfold on_core. rewrite Hm. simpl. by rewrite Hstep.
    + unfold program_left. simpl. lia.
  - right. apply forallb_false in Hall as (i & st & Hi & Hst0).
    destruct st as [|pri crit|ms0|]; [| | |done].
    + exists (StationThread i 0 false 0),
        (Program (core pr) (<[i:=StationExited]> (stations pr)) (main pr)).
      split; [simpl; by rewrite Hi; simpl; rewrite Hsh|].
      split; [done|]. split; [done|]. unfold program_left. simpl.
      rewrite (total_insert _ _ _ _ _ Hi). simpl. lia.
    + exists (StationThread i 0 false 0),
        (Program (add_data_packet pri crit (Z.of_nat i) (core pr))
           (<[i:=StationSleep 0]> (stations pr)) (main pr)).
      split; [simpl; by rewrite Hi|].
      split; [done|]. split; [done|]. unfold program_left. simpl.
      rewrite (total_insert _ _ _ _ _ Hi), wake_steps_left. simpl. lia.
    + exists (StationThread i 0 false 0),
        (Program (core pr) (<[i:=StationTest]> (stations pr)) (main pr)).
      split; [simpl; by rewrite Hi|].
      split; [done|]. split; [done|]. unfold program_left. simpl.
      rewrite (total_insert _ _ _ _ _ Hi). simpl. lia.
Qed.

Lemma monitor_joining_completes n pr :
  program_left pr ≤ Z.of_nat n →
  program_reachable pr → main pr = Stopping → stopping (core pr) = StopJoining →
  ∃ ls pr', program_run ls pr = Some pr' ∧ main pr' = Returned.
Proof.
  revert pr. induction n as [|n IH]; intros pr Hn Hr Hm Hst.
  all: destruct (some_thread_steps pr Hr Hm Hst)
         as [[Hall Hex]|(l & pr1 & Hstep & Hm1 & Hst1 & Hlt)].
  1,3: exists [Main]; eexists; simpl; unfold main_step, stop_step;
         rewrite Hm, Hst, Hall, Hex; simpl; done.
  - assert (0 ≤ program_left pr1); [|lia]. unfold program_left.
    pose proof (total_nonneg station_left (stations pr1)) as H0.
    specialize (H0 ltac:(intros []; simpl; lia)). lia.
  - destruct (IH pr1) as (ls & pr' & Hrun & Hpr'); [lia| |done|done|].
    { apply (monitor_reachable_run [l] pr); [done|]. simpl. by rewrite Hstep. }
    exists (l :: ls), pr'. split; [|done]. simpl. by rewrite Hstep.
Qed.

(** X19. The program ends.  From every state of the program that [main]
    runs, the calls of [main] and the actions of the stations and of
    the server lead to the return of [stop], with the ten stations and
    the server out of their loops: no thread is left blocked in [wait]
    or at the gate, and [join_all] and [join] return. *)
Theorem system_can_stop pr :
  program_reachable pr →
  ∃ ls pr', program_run ls pr = Some pr' ∧ main pr' = Returned ∧
            server (core pr') = Exited ∧ all_stations_exited (stations pr') = true.
Proof.
  intros Hr.
  assert (∃ ls pr', program_run ls pr = Some pr' ∧ main pr' = Returned)
    as (ls & pr' & Hrun & Hpr').
  { destruct (decide (main pr = Returned)) as [Hm|Hm]; [by exists [], pr|].
    destruct (main_reaches_join pr (monitor_reachable_inv _ Hr) Hm)
      as (ls1 & pr1 & Hrun1 & Hm1 & Hst1).
    destruct (monitor_joining_completes (Z.to_nat (program_left pr1)) pr1)
      as (ls2 & pr' & Hrun2 & Hpr'); [lia|by eapply monitor_reachable_run|done|done|].
    exists (ls1 ++ ls2), pr'. by rewrite monitor_run_app, Hrun1. }
  exists ls, pr'. split; [done|]. split; [done|].
  apply (program_returned pr'); [|done].
  apply monitor_reachable_inv. by eapply monitor_reachable_run.
Qed.

(** The program before [start]. *)
Lemma system_can_stop_witness :
  ∃ ls pr', program_run ls program_init = Some pr' ∧ main pr' = Returned ∧
            server (core pr') = Exited ∧ all_stations_exited (stations pr') = true.
Proof. apply system_can_stop. by exists []. Defined.

(** *** The order of the queue *)

(** X20. [DataPacket::operator<] is a strict weak order, as
    [std::priority_queue] requires of its comparison: irreflexive,
    transitive, and with a transitive equivalence.  Two packets are
    equivalent exactly when they agree on the critical flag and on the
    priority; the station plays no part. *)
Theorem DataPacket_order_strict_weak :
  (∀ a, DataPacket_less a a = false) ∧
  (∀ a b c, DataPacket_less a b = true → DataPacket_less b c = true →
            DataPacket_less a c = true) ∧
  (∀ a b, DataPacket_less a b = false ∧ DataPacket_less b a = false
          ↔ is_critical a = is_critical b ∧ priority a = priority b) ∧
  (∀ a b c, DataPacket_less a b = false ∧ DataPacket_less b a = false →
            DataPacket_less b c = false ∧ DataPacket_less c b = false →
            DataPacket_less a c = false ∧ DataPacket_less c a = false).
Proof.
  assert (∀ a b, DataPacket_less a b = false ∧ DataPacket_less b a = false
                 ↔ is_critical a = is_critical b ∧ priority a = priority b) as Heq.
  { intros a b. unfold DataPacket_less.
    destruct (is_critical a), (is_critical b); simpl;
      rewrite ?Z.gtb_ltb, ?Z.ltb_ge; intuition (try done; lia). }
  split; [apply DataPacket_less_irrefl|]. split; [apply DataPacket_less_trans|].
  split; [done|].
  intros a b c Hab Hbc. apply Heq in Hab as [H1 H2]. apply Heq in Hbc as [H3 H4].
  apply Heq. split; congruence.
Qed.

End EnergyMonitorSystem_extra.




